(** * gmail-mcp: the Gmail client, the refresh guard and the tool handlers

    A shallow embedding of
    - [GmailClient] (src/gmail-client.ts): [sendEmail], [searchEmails],
      [getMessage], [extractHeader];
    - [AuthManager.refreshTokenIfNeeded];
    - the tool handlers [send_email], [search_emails], [read_email],
      [send_html_email] and [manage_labels], as the guide lists them for the
      server entry point (the only place where they are written out), and
      the boundary [server.tool] puts around them;
    - the guide's helper [retryWithBackoff] and the guide's [GmailClient]
      with its token file.

    Strings are modelled as the byte sequence of their UTF-8 encoding
    ([String.string], one [ascii] per byte), so that [Buffer.from(s)] is the
    identity on the model and template literals, [+] and [Array.join] are
    concatenation.  The collaborators the code calls into (the token
    endpoint, the mail API, the clock, [String.toLowerCase],
    [JSON.stringify]) are the fields of one record, [Externals]; every call
    to the token endpoint, the mail API or the console is recorded, in
    order, in the [events] of the state.  The state also holds the
    credentials of the one [OAuth2Client] object that [AuthManager] updates
    and the mail API client reads.

    The mail API client is modelled twice.  First as the code sees it: a
    method of the client is called and ends as [Externals] says for the
    credentials held at the call ([gmail_users_messages_send] and the like,
    the client [direct]).  Then with what the [OAuth2Client] under the
    client does inside a call, a token refresh included ([OAuth2Client]).
    The operations are the same code over either client ([OnClient]). *)

From Stdlib Require Import ZArith NArith String Ascii List Bool Lia.
From Stdlib Require Import QArith Qround.
From Stdlib Require Import DecimalString.
From stdpp Require Import list.

Local Open Scope string_scope.
Local Open Scope list_scope.

(** ** Strings *)

Infix "+:+" := String.append (at level 60, right associativity).

Definition CRLF : string := String "013" (String "010" "").

(** The double quote character, as a string. *)
Definition dquote : string := String "034" "".

(** [Array.prototype.join]: the elements separated by [sep]; the empty
    array gives the empty string. *)
Definition join (sep : string) (parts : list string) : string :=
  String.concat sep parts.

(** ** base64url, as [Buffer.toString('base64url')] produces it
    (RFC 4648 section 5: the alphabet A-Z a-z 0-9 - _, no padding). *)

Module Base64Url.

Definition char (i : N) : ascii :=
  if (i <? 26)%N then ascii_of_N (65 + i)
  else if (i <? 52)%N then ascii_of_N (97 + (i - 26))
  else if (i <? 62)%N then ascii_of_N (48 + (i - 52))
  else if (i =? 62)%N then "-"%char
  else "_"%char.

Definition index (c : ascii) : option N :=
  let n := N_of_ascii c in
  if ((65 <=? n) && (n <=? 90))%N then Some (n - 65)%N
  else if ((97 <=? n) && (n <=? 122))%N then Some (n - 97 + 26)%N
  else if ((48 <=? n) && (n <=? 57))%N then Some (n - 48 + 52)%N
  else if (n =? 45)%N then Some 62%N
  else if (n =? 95)%N then Some 63%N
  else None.

(** The sextets of a group of three, two and one bytes. *)
Definition group3 (a b c : N) : list N :=
  let n := (a * 65536 + b * 256 + c)%N in
  [ (n / 262144)%N; ((n / 4096) mod 64)%N; ((n / 64) mod 64)%N; (n mod 64)%N ].

Definition group2 (a b : N) : list N :=
  let n := ((a * 256 + b) * 4)%N in
  [ (n / 4096)%N; ((n / 64) mod 64)%N; (n mod 64)%N ].

Definition group1 (a : N) : list N :=
  let n := (a * 16)%N in
  [ (n / 64)%N; (n mod 64)%N ].

Definition chars (sextets : list N) (rest : string) : string :=
  fold_right (fun i acc => String (char i) acc) rest sextets.

Fixpoint encode (s : string) : string :=
  match s with
  | EmptyString => EmptyString
  | String a EmptyString => chars (group1 (N_of_ascii a)) EmptyString
  | String a (String b EmptyString) =>
      chars (group2 (N_of_ascii a) (N_of_ascii b)) EmptyString
  | String a (String b (String c rest)) =>
      chars (group3 (N_of_ascii a) (N_of_ascii b) (N_of_ascii c)) (encode rest)
  end.

(** The inverse reading: four characters give three bytes, a final group
    of three gives two and a final group of two gives one; anything else
    is not an encoding. *)
Definition bytes3 (w x y z : N) (rest : string) : string :=
  let n := (((w * 64 + x) * 64 + y) * 64 + z)%N in
  String (ascii_of_N (n / 65536)) (String (ascii_of_N ((n / 256) mod 256))
    (String (ascii_of_N (n mod 256)) rest)).

Definition bytes2 (w x y : N) : string :=
  let n := (((w * 64 + x) * 64 + y) / 4)%N in
  String (ascii_of_N (n / 256)) (String (ascii_of_N (n mod 256)) EmptyString).

Definition bytes1 (w x : N) : string :=
  String (ascii_of_N ((w * 64 + x) / 16)) EmptyString.

Fixpoint decode (s : string) : option string :=
  match s with
  | EmptyString => Some EmptyString
  | String c1 (String c2 EmptyString) =>
      match index c1, index c2 with
      | Some w, Some x => Some (bytes1 w x)
      | _, _ => None
      end
  | String c1 (String c2 (String c3 EmptyString)) =>
      match index c1, index c2, index c3 with
      | Some w, Some x, Some y => Some (bytes2 w x y)
      | _, _, _ => None
      end
  | String c1 (String c2 (String c3 (String c4 rest))) =>
      match index c1, index c2, index c3, index c4, decode rest with
      | Some w, Some x, Some y, Some z, Some r => Some (bytes3 w x y z r)
      | _, _, _, _, _ => None
      end
  | _ => None
  end.

End Base64Url.

(** ** Data *)

(** [number | null | undefined], the type of [Credentials.expiry_date]
    (milliseconds since the epoch, an integer). *)
Inductive OptNumber : Type :=
| Undefined
| Null
| Num (n : Z).

(** Truthiness as [&&] and [if] test it: absent, [null] and [0] are falsy. *)
Definition truthy (x : OptNumber) : bool :=
  match x with
  | Num n => negb (n =? 0)%Z
  | _ => false
  end.

(** The [credentials] object of the [OAuth2Client]. *)
Record Credentials : Type := mkCredentials {
  access_token : option string;
  refresh_token : option string;
  expiry_date : OptNumber
}.

Record JsError : Type := mkError { message : string }.

(** types.ts: [GmailHeader], [GmailPayload], [GmailMessageData].  A header
    always carries its [name]; [extractHeader] guards the payload, the
    header list and the value, which are optional here. *)
Record GmailHeader : Type := mkHeader {
  name : string;
  value : option string
}.

Record GmailPayload : Type := mkPayload {
  headers : option (list GmailHeader)
}.

Record GmailMessageData : Type := mkMessageData {
  snippet : option string;
  payload : option GmailPayload
}.

(** One element of [res.data.messages] of the list call. *)
Module Listed.
Record t : Type := mk { id : string; threadId : option string }.
End Listed.

Module ListResponse.
Record t : Type := mk {
  messages : option (list Listed.t);
  resultSizeEstimate : option Z;
  nextPageToken : option string
}.
End ListResponse.

(** The object [searchEmails] builds for each listed message. *)
Module EmailMessage.
Record t : Type := mk {
  id : string;
  threadId : option string;
  snippet : option string;
  subject : string;
  from : string;
  date : string
}.
End EmailMessage.

Module SearchEmailsResult.
Record t : Type := mk {
  messages : list EmailMessage.t;
  resultSizeEstimate : option Z;
  nextPageToken : option string
}.
End SearchEmailsResult.

Record SendEmailParams : Type := mkSendEmailParams {
  to : list string;
  subject : string;
  body : string;
  cc : option (list string);
  bcc : option (list string)
}.

(** The value a tool handler returns: [content] holds one text item;
    [isError] is [false] where the handler leaves it out. *)
Record ToolResult : Type := mkToolResult {
  text : string;
  isError : bool
}.

(** ** Effects *)

(** How an awaited computation ends: with a value, with a thrown error
    (a rejected promise), or never ([Hang]: a promise that is not settled). *)
Inductive Outcome (A : Type) : Type :=
| Ok (a : A)
| Throw (e : JsError)
| Hang.
Arguments Ok {A} a.
Arguments Throw {A} e.
Arguments Hang {A}.

(** The calls the code makes into its collaborators.  A mail API call
    carries the credentials the shared [OAuth2Client] holds when the call is
    made. *)
Inductive Event : Type :=
| RefreshAccessToken (c : Credentials)
| ConsoleError (s : string)
| MessagesSend (c : Credentials) (raw : string)
| MessagesList (c : Credentials) (q : string) (maxResults : Z)
| MessagesGet (c : Credentials) (id : string)
| MessagesModify (c : Credentials) (id : string)
    (addLabelIds removeLabelIds : option (list string)).

(** The one [OAuth2Client] object, which [AuthManager] and the mail API
    client share, and the calls made so far (oldest first). *)
Record State : Type := mkState {
  credentials : Credentials;
  events : list Event
}.

Definition M (A : Type) : Type := State -> Outcome A * State.

Definition ret {A} (a : A) : M A := fun s => (Ok a, s).

Definition bind {A B} (m : M A) (k : A -> M B) : M B :=
  fun s =>
    match m s with
    | (Ok a, s') => k a s'
    | (Throw e, s') => (Throw e, s')
    | (Hang, s') => (Hang, s')
    end.

Definition throw {A} (e : JsError) : M A := fun s => (Throw e, s).

(** [try { m } catch (error) { h error }] *)
Definition try_catch {A} (m : M A) (h : JsError -> M A) : M A :=
  fun s =>
    match m s with
    | (Throw e, s') => h e s'
    | r => r
    end.

(** [await p] for a promise whose settlement is already decided. *)
Definition await {A} (o : Outcome A) : M A := fun s => (o, s).

Definition emit (e : Event) : M unit :=
  fun s => (Ok tt, mkState (credentials s) (events s ++ [e])).

Definition getCredentials : M Credentials := fun s => (Ok (credentials s), s).

(** [this.auth.setCredentials(c)] *)
Definition setCredentials (c : Credentials) : M unit :=
  fun s => (Ok tt, mkState c (events s)).

Declare Scope js_scope.
Delimit Scope js_scope with js.
Notation "x <- m ;; k" := (bind m (fun x => k))
  (at level 100, m at next level, right associativity) : js_scope.
Notation "m ;;; k" := (bind m (fun _ => k))
  (at level 100, right associativity) : js_scope.
Local Open Scope js_scope.

(** The collaborators: the clock, [String.prototype.toLowerCase],
    [JSON.stringify] on the two result types, the token endpoint behind
    [OAuth2Client.refreshAccessToken] (its answer is the credentials the
    client holds after a successful exchange) and the four mail API
    methods.  Each answer may depend on the credentials the client holds at
    the call. *)
Record Externals : Type := mkExternals {
  Date_now : Z;
  toLowerCase : string -> string;
  stringify_result : SearchEmailsResult.t -> string;
  stringify_message : GmailMessageData -> string;
  token_endpoint : Credentials -> Outcome Credentials;
  users_messages_send : Credentials -> string -> Outcome string;
  users_messages_list : Credentials -> string -> Z -> Outcome ListResponse.t;
  users_messages_get : Credentials -> string -> Outcome GmailMessageData;
  users_messages_modify :
    Credentials -> string -> option (list string) -> option (list string) ->
    Outcome unit
}.

(** ** Promise.all

    ECMAScript's [Promise.all] over [n] promises keeps an array of [n]
    values and a count of the elements still awaited.  When promise [i]
    is fulfilled its value is stored at index [i] and the count goes down;
    the combined promise is fulfilled with the array when the count reaches
    zero, and rejected by the first rejection.  A promise settles once:
    settling an index a second time, or an index that does not exist, does
    nothing. *)
Module PromiseAll.

Inductive t (A : Type) : Type :=
| Pending (values : list (option A)) (remaining : nat)
| Fulfilled (values : list A)
| Rejected (e : JsError).
Arguments Pending {A} values remaining.
Arguments Fulfilled {A} values.
Arguments Rejected {A} e.

(** The stored values, in index order. *)
Definition collect {A} (values : list (option A)) : list A :=
  omap (fun v => v) values.

Definition start {A} (n : nat) : t A :=
  match n with
  | O => Fulfilled []
  | S _ => Pending (replicate n None) n
  end.

(** Promise [i] settles with the outcome [outcomes !! i]. *)
Definition settle {A} (outcomes : list (Outcome A)) (st : t A) (i : nat) : t A :=
  match st with
  | Pending values remaining =>
      match values !! i, outcomes !! i with
      | Some None, Some (Ok v) =>
          let values' := <[i := Some v]> values in
          match remaining with
          | 1 => Fulfilled (collect values')
          | _ => Pending values' (remaining - 1)
          end
      | Some None, Some (Throw e) => Rejected e
      | _, _ => st
      end
  | _ => st
  end.

(** [order] lists the promises in the order in which they settle; a
    promise that [order] does not name settles after those it names. *)
Definition run {A} (outcomes : list (Outcome A)) (order : list nat) : Outcome (list A) :=
  let n := length outcomes in
  match fold_left (settle outcomes) (order ++ seq 0 n) (start n) with
  | Fulfilled values => Ok values
  | Rejected e => Throw e
  | Pending _ _ => Hang
  end.

End PromiseAll.

(** ** The program *)

Section Program.

Variable E : Externals.

(** [x?.length] as a condition: true for a present, non-empty array. *)
Definition hasLength {A} (x : option (list A)) : bool :=
  match x with
  | Some (_ :: _) => true
  | _ => false
  end.

(** [s || fallback] on an optional string: the empty string is falsy. *)
Definition orElse (s : option string) (fallback : string) : string :=
  match s with
  | Some (String c r) => String c r
  | _ => fallback
  end.

(** *** GmailClient (src/gmail-client.ts) *)

(** [this.gmail.users.messages.send({ userId: 'me', requestBody: { raw } })],
    then [res.data.id]: the call of the client's method, as the code makes
    it, recorded with the credentials held when it is made.  What the
    library does inside the call is in [OAuth2Client] below. *)
Definition gmail_users_messages_send (raw : string) : M string :=
  c <- getCredentials ;;
  emit (MessagesSend c raw) ;;;
  await (users_messages_send E c raw).

Definition gmail_users_messages_list (q : string) (maxResults : Z)
  : M ListResponse.t :=
  c <- getCredentials ;;
  emit (MessagesList c q maxResults) ;;;
  await (users_messages_list E c q maxResults).

Definition gmail_users_messages_modify (id : string)
    (addLabelIds removeLabelIds : option (list string)) : M unit :=
  c <- getCredentials ;;
  emit (MessagesModify c id addLabelIds removeLabelIds) ;;;
  await (users_messages_modify E c id addLabelIds removeLabelIds).

(** The value of the local [email] of [sendEmail]: the message parts,
    joined by CRLF. *)
Definition sendEmail_email (params : SendEmailParams) : string :=
  let messageParts :=
    [ "To: " +:+ join ", " (to params);
      "Subject: " +:+ subject params ] in
  let messageParts :=
    if hasLength (cc params)
    then messageParts ++ [ "Cc: " +:+ join ", " (default [] (cc params)) ]
    else messageParts in
  let messageParts :=
    if hasLength (bcc params)
    then messageParts ++ [ "Bcc: " +:+ join ", " (default [] (bcc params)) ]
    else messageParts in
  let messageParts :=
    messageParts ++
    [ "Content-Type: text/plain; charset=utf-8"; ""; body params ] in
  join CRLF messageParts.

Definition sendEmail (params : SendEmailParams) : M string :=
  let email := sendEmail_email params in
  let encodedEmail := Base64Url.encode email in
  gmail_users_messages_send encodedEmail.

(** [getMessage] issues the request as soon as it is called; the promise
    it returns settles with the answer later. *)
Definition getMessage_request (messageId : string) : M (Outcome GmailMessageData) :=
  c <- getCredentials ;;
  emit (MessagesGet c messageId) ;;;
  ret (users_messages_get E c messageId).

Definition getMessage (messageId : string) : M GmailMessageData :=
  p <- getMessage_request messageId ;;
  await p.

Definition extractHeader (message : GmailMessageData) (headerName : string)
  : string :=
  let header :=
    match payload message with
    | Some p =>
        match headers p with
        | Some hs =>
            find (fun h =>
                    String.eqb (toLowerCase E (name h))
                               (toLowerCase E headerName)) hs
        | None => None
        end
    | None => None
    end in
  orElse (match header with Some h => value h | None => None end) "".

(** The body of the callback [searchEmails] maps over the listed
    messages, after its [await]. *)
Definition shape (msg : Listed.t) (details : GmailMessageData)
  : EmailMessage.t :=
  {| EmailMessage.id := Listed.id msg;
     EmailMessage.threadId := Listed.threadId msg;
     EmailMessage.snippet := snippet details;
     EmailMessage.subject := extractHeader details "Subject";
     EmailMessage.from := extractHeader details "From";
     EmailMessage.date := extractHeader details "Date" |}.

Definition shaped (msg : Listed.t) (o : Outcome GmailMessageData)
  : Outcome EmailMessage.t :=
  match o with
  | Ok details => Ok (shape msg details)
  | Throw e => Throw e
  | Hang => Hang
  end.

(** [Array.map] calls the callback on each listed message in turn; each
    call runs up to its [await], that is, it issues its detail request. *)
Fixpoint startAll (listed : list Listed.t) : M (list (Outcome EmailMessage.t)) :=
  match listed with
  | [] => ret []
  | msg :: rest =>
      p <- getMessage_request (Listed.id msg) ;;
      ps <- startAll rest ;;
      ret (shaped msg p :: ps)
  end.

(** [order] is the order in which the detail fetches complete. *)
Definition searchEmails (order : list nat) (query : string)
    (maxResults : option Z) : M SearchEmailsResult.t :=
  res <- gmail_users_messages_list query (default 10%Z maxResults) ;;
  promises <- startAll (default [] (ListResponse.messages res)) ;;
  messages <- await (PromiseAll.run promises order) ;;
  ret {| SearchEmailsResult.messages := messages;
         SearchEmailsResult.resultSizeEstimate :=
           ListResponse.resultSizeEstimate res;
         SearchEmailsResult.nextPageToken := ListResponse.nextPageToken res |}.

(** *** AuthManager *)

(** [this.auth.refreshAccessToken()] *)
Definition refreshAccessToken : M Credentials :=
  c <- getCredentials ;;
  emit (RefreshAccessToken c) ;;;
  await (token_endpoint E c).

Definition console_error (s : string) : M unit := emit (ConsoleError s).

(** [expiry_date && Date.now() >= expiry_date] *)
Definition needsRefresh (c : Credentials) : bool :=
  truthy (expiry_date c) &&
  match expiry_date c with
  | Num e => (e <=? Date_now E)%Z
  | _ => false
  end.

Definition refreshTokenIfNeeded : M unit :=
  c <- getCredentials ;;
  if needsRefresh c then
    try_catch
      (credentials <- refreshAccessToken ;;
       setCredentials credentials)
      (fun error =>
         console_error "Token refresh failed, need re-authentication" ;;;
         throw error)
  else ret tt.

(** *** The tool handlers *)

Definition send_email (params : SendEmailParams) : M ToolResult :=
  try_catch
    (messageId <- sendEmail params ;;
     ret {| text := "Email sent successfully. Message ID: " +:+ messageId;
            isError := false |})
    (fun error =>
       ret {| text := "Error: " +:+ message error; isError := true |}).

Definition search_emails (order : list nat) (query : string)
    (maxResults : option Z) : M ToolResult :=
  try_catch
    (results <- searchEmails order query (Some (default 10%Z maxResults)) ;;
     ret {| text := stringify_result E results; isError := false |})
    (fun error =>
       ret {| text := "Error: " +:+ message error; isError := true |}).

Definition read_email (messageId : string) : M ToolResult :=
  try_catch
    (message <- getMessage messageId ;;
     ret {| text := stringify_message E message; isError := false |})
    (fun error =>
       ret {| text := "Error: " +:+ message error; isError := true |}).

(** [`${n}`] for an integer. *)
Definition decimal (n : Z) : string := NilZero.string_of_int (Z.to_int n).

(** The value of the local [email] of the [send_html_email] handler. *)
Definition send_html_email_email (to : list string)
    (subject htmlBody : string) (plainText : option string) : string :=
  let boundary := "boundary_" +:+ decimal (Date_now E) in
  let messageParts :=
    [ "To: " +:+ join ", " to;
      "Subject: " +:+ subject;
      "Content-Type: multipart/alternative; boundary=" +:+ dquote +:+ boundary +:+ dquote;
      "";
      "--" +:+ boundary;
      "Content-Type: text/plain; charset=utf-8";
      "";
      orElse plainText "This email requires HTML support";
      "";
      "--" +:+ boundary;
      "Content-Type: text/html; charset=utf-8";
      "";
      htmlBody;
      "";
      "--" +:+ boundary +:+ "--" ] in
  join CRLF messageParts.

Definition send_html_email (to : list string) (subject htmlBody : string)
    (plainText : option string) : M ToolResult :=
  let email := send_html_email_email to subject htmlBody plainText in
  let encodedEmail := Base64Url.encode email in
  id <- gmail_users_messages_send encodedEmail ;;
  ret {| text := "HTML email sent: " +:+ id; isError := false |}.

Definition manage_labels (messageId : string)
    (addLabels removeLabels : option (list string)) : M ToolResult :=
  gmail_users_messages_modify messageId addLabels removeLabels ;;;
  ret {| text := "Labels updated successfully"; isError := false |}.

End Program.

(** ** Observing a run *)

(** The calls a computation [m] makes when it is run from [s]. *)
Definition calls {A} (m : M A) (s : State) : list Event :=
  drop (length (events s)) (events (m s).2).

Definition isRefresh (e : Event) : bool :=
  match e with
  | RefreshAccessToken _ => true
  | _ => false
  end.

Definition isMailApiCall (e : Event) : bool :=
  match e with
  | MessagesSend _ _ | MessagesList _ _ _ | MessagesGet _ _
  | MessagesModify _ _ _ _ => true
  | _ => false
  end.

(** The number of token refresh exchanges among the calls. *)
Definition refreshAttempts (evs : list Event) : nat :=
  length (filter (fun e => isRefresh e = true) evs).

(** No mail API call is made before a refresh exchange has been attempted:
    scanning the calls in order, a refresh exchange comes before the first
    mail API call, if there is one. *)
Fixpoint refreshPrecedesApi (evs : list Event) : bool :=
  match evs with
  | [] => true
  | e :: rest =>
      if isRefresh e then true
      else if isMailApiCall e then false
      else refreshPrecedesApi rest
  end.

(** The header is the one asked for, up to case: the test of the callback
    [extractHeader] hands to [find]. *)
Definition matches (E : Externals) (headerName : string) (h : GmailHeader)
  : Prop :=
  toLowerCase E (name h) = toLowerCase E headerName.

(** The number of elements [Promise.all] still awaits in [values]. *)
Fixpoint pendingCount {A} (values : list (option A)) : nat :=
  match values with
  | [] => 0
  | None :: rest => S (pendingCount rest)
  | Some _ :: rest => pendingCount rest
  end.

(** The states [Promise.all] goes through over promises that settle as
    [outcomes] says: a slot is still empty or holds the value its promise
    was fulfilled with, and the count is the number of empty slots; the
    combined promise is fulfilled only with the values of all the promises,
    and rejected only with the error of one of them. *)
Definition slot_ok {A} (slot : option A) (o : Outcome A) : Prop :=
  slot = None \/ exists v, slot = Some v /\ o = Ok v.

Definition all_inv {A} (outcomes : list (Outcome A)) (st : PromiseAll.t A)
  : Prop :=
  match st with
  | PromiseAll.Pending values remaining =>
      Forall2 slot_ok values outcomes /\ remaining = pendingCount values /\
      0 < remaining
  | PromiseAll.Fulfilled values => outcomes = Ok <$> values
  | PromiseAll.Rejected e => exists i, outcomes !! i = Some (Throw e)
  end.

(** The promises below index [j] have settled. *)
Definition settledBelow {A} (j : nat) (st : PromiseAll.t A) : Prop :=
  match st with
  | PromiseAll.Pending values _ =>
      forall k, k < j -> values !! k <> Some None
  | _ => True
  end.

(** One MIME part as the [send_html_email] handler lays it out: the
    content type line, an empty line, the text and a line break. *)
Definition mimePart (contentType text : string) : string :=
  join CRLF [ "Content-Type: " +:+ contentType +:+ "; charset=utf-8";
              ""; text; "" ].

(** ** A concrete setting, for the examples

    [toLowerCase] on ASCII letters; a token endpoint that answers every
    exchange with [invalid_grant]; a mailbox whose list call answers
    [m3, m1, m2], whose send call accepts every message and whose modify
    call knows no message. *)
Module Demo.

Definition lowerChar (c : ascii) : ascii :=
  let n := N_of_ascii c in
  if ((65 <=? n) && (n <=? 90))%N then ascii_of_N (n + 32) else c.

Fixpoint lower (s : string) : string :=
  match s with
  | EmptyString => EmptyString
  | String c rest => String (lowerChar c) (lower rest)
  end.

Definition details (id : string) : GmailMessageData :=
  {| snippet := Some ("snippet of " +:+ id);
     payload := Some {| headers := Some
       [ {| name := "From"; value := Some "a@x.com" |};
         {| name := "subject"; value := Some ("About " +:+ id) |};
         {| name := "Subject"; value := Some "second" |};
         {| name := "Date"; value := None |} ] |} |}.

Definition listed : list Listed.t :=
  [ Listed.mk "m3" (Some "t3"); Listed.mk "m1" (Some "t1");
    Listed.mk "m2" None ].

Definition externals (now : Z) : Externals :=
  {| Date_now := now;
     toLowerCase := lower;
     stringify_result := fun _ => "{}";
     stringify_message := fun _ => "{}";
     token_endpoint := fun _ => Throw (mkError "invalid_grant");
     users_messages_send := fun _ _ => Ok "18c2f0a1";
     users_messages_list := fun _ _ _ =>
       Ok (ListResponse.mk (Some listed) (Some 3%Z) None);
     users_messages_get := fun _ id => Ok (details id);
     users_messages_modify := fun _ _ _ _ =>
       Throw (mkError "Requested entity was not found.") |}.

(** The same setting with a token endpoint that grants a new access token,
    good for an hour. *)
Definition renewing (now : Z) : Externals :=
  let E := externals now in
  {| Date_now := now;
     toLowerCase := toLowerCase E;
     stringify_result := stringify_result E;
     stringify_message := stringify_message E;
     token_endpoint := fun c =>
       Ok {| access_token := Some "ya29.new";
             refresh_token := refresh_token c;
             expiry_date := Num (now + 3600000) |};
     users_messages_send := users_messages_send E;
     users_messages_list := users_messages_list E;
     users_messages_get := users_messages_get E;
     users_messages_modify := users_messages_modify E |}.

(** A client whose access token expires at instant [expiry]. *)
Definition client (expiry : OptNumber) : State :=
  {| credentials :=
       {| access_token := Some "ya29.old";
          refresh_token := Some "1//0g";
          expiry_date := expiry |};
     events := [] |}.

Definition hello (recipients : list string) : SendEmailParams :=
  {| to := recipients; subject := "Hi"; body := "Hello";
     cc := None; bcc := None |}.

End Demo.

(** ** retryWithBackoff

    The guide's helper for rate limits.  [fn] is called once per round of
    the loop; [fn k] here is how its call number [k] (from 0) ends.  The
    helper returns how it ends together with what it did, in order: the
    calls of [fn] and the waits ([setTimeout], in milliseconds).  Here
    [maxRetries] is an integer ([RetryNumber] below takes any number);
    [fuel] bounds the rounds of the [for] loop, and [Hang] with the fuel
    used up means that the loop was cut short. *)
Module Retry.

Inductive Step : Type :=
| Call (k : nat)
| Sleep (ms : Z).

Section Loop.

Context {T : Type}.
Variable fn : nat -> Outcome T.
Variable maxRetries : Z.

(** The rounds of [for (let i = ...; i <= maxRetries; i++)] from round [i]
    on, and the [throw] after the loop. *)
Fixpoint loop (fuel : nat) (i : nat) : Outcome T * list Step :=
  match fuel with
  | O => (Hang, [])
  | S fuel' =>
      if (Z.of_nat i <=? maxRetries)%Z then
        match fn i with
        | Ok v => (Ok v, [Call i])
        | Throw error =>
            if (Z.of_nat i =? maxRetries)%Z then (Throw error, [Call i])
            else
              let (o, steps) := loop fuel' (S i) in
              (o, Call i :: Sleep (2 ^ Z.of_nat i * 1000) :: steps)
        | Hang => (Hang, [Call i])
        end
      else (Throw (mkError "Max retries exceeded"), [])
  end.

End Loop.

(** [maxRetries] defaults to 3.  The loop makes at most [maxRetries + 1]
    rounds and one more test of its condition. *)
Definition retryWithBackoff {T} (fn : nat -> Outcome T) (maxRetries : option Z)
  : Outcome T * list Step :=
  let maxRetries := default 3%Z maxRetries in
  loop fn maxRetries (S (Z.to_nat (maxRetries + 1))) 0.

(** The number of calls of [fn] and the time spent waiting. *)
Fixpoint attempts (steps : list Step) : nat :=
  match steps with
  | [] => 0
  | Call _ :: rest => S (attempts rest)
  | Sleep _ :: rest => attempts rest
  end.

Fixpoint waited (steps : list Step) : Z :=
  match steps with
  | [] => 0
  | Call _ :: rest => waited rest
  | Sleep ms :: rest => ms + waited rest
  end.

(** [n] failed rounds, from round [i] on: each is a call and then a wait
    that doubles, starting from [2 ^ i] seconds. *)
Fixpoint failedRounds (i n : nat) : list Step :=
  match n with
  | O => []
  | S n' => Call i :: Sleep (2 ^ Z.of_nat i * 1000) :: failedRounds (S i) n'
  end.

(** For the examples: a call that is rate limited [n] times (call [k]
    fails with [429 #k]) and then answers. *)
Definition flaky (n : nat) (k : nat) : Outcome string :=
  if Nat.ltb k n then Throw (mkError ("429 #" +:+ decimal (Z.of_nat k)))
  else Ok "done".

End Retry.

(** ** retryWithBackoff, for every number

    [maxRetries] is a JavaScript number.  The loop compares its counter with
    it ([i <= maxRetries], [i === maxRetries]), so what matters of a finite
    number is the rational it stands for; [NaN] and the two infinities are
    apart.  The counter is exact as long as it stays below [2 ^ 53]. *)
Module JsNumber.

Inductive t : Type :=
| Finite (q : Q)
| NaN
| Infinity
| NegInfinity.

Definition ofZ (z : Z) : t := Finite (inject_Z z).

(** [i <= x] for a counter [i]. *)
Definition counter_le (i : nat) (x : t) : bool :=
  match x with
  | Finite q => Qle_bool (inject_Z (Z.of_nat i)) q
  | Infinity => true
  | NaN | NegInfinity => false
  end.

(** [i === x] for a counter [i]. *)
Definition counter_eq (i : nat) (x : t) : bool :=
  match x with
  | Finite q => Qeq_bool (inject_Z (Z.of_nat i)) q
  | NaN | Infinity | NegInfinity => false
  end.

(** The number is an integer. *)
Definition isInteger (q : Q) : bool := Qeq_bool (inject_Z (Qfloor q)) q.

End JsNumber.

Module RetryNumber.

(** A call of [fn], and the wait of round [i]:
    [setTimeout(resolve, Math.pow(2, i) * 1000)]. *)
Inductive Step : Type :=
| Call (k : nat)
| Wait (i : nat).

Section Loop.

Context {T : Type}.
Variable fn : nat -> Outcome T.
Variable maxRetries : JsNumber.t.

Fixpoint loop (fuel : nat) (i : nat) : Outcome T * list Step :=
  match fuel with
  | O => (Hang, [])
  | S fuel' =>
      if JsNumber.counter_le i maxRetries then
        match fn i with
        | Ok v => (Ok v, [Call i])
        | Throw error =>
            if JsNumber.counter_eq i maxRetries then (Throw error, [Call i])
            else
              let (o, steps) := loop fuel' (S i) in
              (o, Call i :: Wait i :: steps)
        | Hang => (Hang, [Call i])
        end
      else (Throw (mkError "Max retries exceeded"), [])
  end.

End Loop.

(** [fuel] bounds the rounds of the loop, which need not end when
    [maxRetries] is [Infinity]. *)
Definition retryWithBackoff {T} (fuel : nat) (fn : nat -> Outcome T)
    (maxRetries : option JsNumber.t) : Outcome T * list Step :=
  loop fn (default (JsNumber.ofZ 3) maxRetries) fuel 0.

Fixpoint attempts (steps : list Step) : nat :=
  match steps with
  | [] => 0
  | Call _ :: rest => S (attempts rest)
  | Wait _ :: rest => attempts rest
  end.

Fixpoint waits (steps : list Step) : nat :=
  match steps with
  | [] => 0
  | Call _ :: rest => waits rest
  | Wait _ :: rest => S (waits rest)
  end.

(** [n] failed rounds from round [i] on: each is a call and then a wait. *)
Fixpoint failedRounds (i n : nat) : list Step :=
  match n with
  | O => []
  | S n' => Call i :: Wait i :: failedRounds (S i) n'
  end.

(** The steps as the integer model of [Retry] records them, a wait by
    the delay it asks for. *)
Definition toRetry (step : Step) : Retry.Step :=
  match step with
  | Call k => Retry.Call k
  | Wait i => Retry.Sleep (2 ^ Z.of_nat i * 1000)
  end.

(** The number of rounds a finite [maxRetries] allows. *)
Definition rounds (q : Q) : nat := Z.to_nat (Qfloor q + 1).

End RetryNumber.

(** ** More observers *)

(** The characters of the base64url alphabet: letters, digits, [-], [_]. *)
Definition urlSafeChar (c : ascii) : bool :=
  let n := N_of_ascii c in
  (((65 <=? n) && (n <=? 90)) || ((97 <=? n) && (n <=? 122)) ||
   ((48 <=? n) && (n <=? 57)) || (n =? 45) || (n =? 95))%N.

Fixpoint urlSafe (s : string) : bool :=
  match s with
  | EmptyString => true
  | String c rest => urlSafeChar c && urlSafe rest
  end.

(** The header line for a list of recipients that may be left out: a line
    for a list with at least one recipient, none for an empty list and none
    for a list left out. *)
Definition optionalHeader (label : string) (recipients : option (list string))
  : list string :=
  match recipients with
  | Some (first :: others) => [ label +:+ join ", " (first :: others) ]
  | Some [] => []
  | None => []
  end.

(** Promise [i] of a [Promise.all] is not one that is rejected. *)
Definition not_rejected {A} (outcomes : list (Outcome A)) (i : nat) : Prop :=
  forall e, outcomes !! i <> Some (Throw e).

(** A call of a method of the mail API client, without the credentials
    the client holds: what the code itself asks the client for. *)
Inductive MethodCall : Type :=
| SendCall (raw : string)
| ListCall (q : string) (maxResults : Z)
| GetCall (id : string)
| ModifyCall (id : string) (addLabelIds removeLabelIds : option (list string)).

Definition methodCall (e : Event) : option MethodCall :=
  match e with
  | MessagesSend _ raw => Some (SendCall raw)
  | MessagesList _ q maxResults => Some (ListCall q maxResults)
  | MessagesGet _ id => Some (GetCall id)
  | MessagesModify _ id addLabelIds removeLabelIds =>
      Some (ModifyCall id addLabelIds removeLabelIds)
  | RefreshAccessToken _ | ConsoleError _ => None
  end.

(** The methods of the mail API client called, in order. *)
Definition methodCalls (evs : list Event) : list MethodCall :=
  omap methodCall evs.

(** ** The guide's GmailClient: authenticate, token file, refresh

    The guide's listing of the client keeps the token in a file:
    [authenticate], [loadSavedCredentials], [saveCredentials] and its own
    [refreshTokenIfNeeded].  The state is the client's [auth] (the
    credentials of its [OAuth2Client], absent before [authenticate]), the
    contents of the two files it reads and writes, and what it has done so
    far.  Reading a file that is not there fails (the message of the error
    stands for the one of Node, which also names the path); the file system
    is taken to work otherwise: the properties below are about runs in which
    it does.  The libraries are the fields of [Libs]:
    [fromJSON content] is [google.auth.fromJSON(JSON.parse(content))],
    [parseKeys] is [JSON.parse] on the key file, [stringify] is
    [JSON.stringify] on the token payload and [consent] is how the consent
    flow of [@google-cloud/local-auth] ends. *)
Module Guide.

Inductive Path : Type := TOKEN_PATH | CREDENTIALS_PATH.

Record Key : Type := mkKey {
  client_id : option string;
  client_secret : option string
}.

Record Keys : Type := mkKeys {
  installed : option Key;
  web : option Key
}.

(** The payload written to the token file ([TokenData]). *)
Record TokenData : Type := mkTokenData {
  type : string;
  token_client_id : option string;
  token_client_secret : option string;
  token_refresh_token : option string
}.

Inductive Step : Type :=
| ReadFile (p : Path)
| WriteFile (p : Path) (content : string)
| ConsentFlow
| Refresh (c : Credentials)
| LogError (s : string).

Record World : Type := mkWorld {
  auth : option Credentials;
  token_file : option string;
  credentials_file : option string;
  steps : list Step
}.

Record Libs : Type := mkLibs {
  fromJSON : string -> Outcome Credentials;
  parseKeys : string -> Outcome Keys;
  stringify : TokenData -> string;
  consent : Outcome Credentials
}.

Definition G (A : Type) : Type := World -> Outcome A * World.

Definition ret {A} (a : A) : G A := fun w => (Ok a, w).

Definition bind {A B} (m : G A) (k : A -> G B) : G B :=
  fun w =>
    match m w with
    | (Ok a, w') => k a w'
    | (Throw e, w') => (Throw e, w')
    | (Hang, w') => (Hang, w')
    end.

Definition throw {A} (e : JsError) : G A := fun w => (Throw e, w).

Definition try_catch {A} (m : G A) (h : JsError -> G A) : G A :=
  fun w =>
    match m w with
    | (Throw e, w') => h e w'
    | r => r
    end.

Definition await {A} (o : Outcome A) : G A := fun w => (o, w).

Definition log (step : Step) : G unit :=
  fun w => (Ok tt, mkWorld (auth w) (token_file w) (credentials_file w)
                           (steps w ++ [step])).

Definition file (p : Path) (w : World) : option string :=
  match p with
  | TOKEN_PATH => token_file w
  | CREDENTIALS_PATH => credentials_file w
  end.

(** [fs.readFile(p, 'utf8')] *)
Definition readFile (p : Path) : G string :=
  bind (log (ReadFile p)) (fun _ w =>
    match file p w with
    | Some content => (Ok content, w)
    | None => (Throw (mkError "ENOENT: no such file or directory"), w)
    end).

(** [fs.writeFile(p, content)] *)
Definition writeFile (p : Path) (content : string) : G unit :=
  bind (log (WriteFile p content)) (fun _ w =>
    (Ok tt,
     match p with
     | TOKEN_PATH =>
         mkWorld (auth w) (Some content) (credentials_file w) (steps w)
     | CREDENTIALS_PATH =>
         mkWorld (auth w) (token_file w) (Some content) (steps w)
     end)).

(** [this.auth = client] *)
Definition setAuth (client : Credentials) : G unit :=
  fun w => (Ok tt, mkWorld (Some client) (token_file w) (credentials_file w)
                           (steps w)).

Declare Scope guide_scope.
Notation "x <- m ;; k" := (bind m (fun x => k))
  (at level 100, m at next level, right associativity) : guide_scope.
Notation "m ;;; k" := (bind m (fun _ => k))
  (at level 100, right associativity) : guide_scope.
Local Open Scope guide_scope.

Section Client.

Variable E : Externals.
Variable L : Libs.

Definition loadSavedCredentials : G (option Credentials) :=
  try_catch
    (content <- readFile TOKEN_PATH ;;
     client <- await (fromJSON L content) ;;
     ret (Some client))
    (fun err => ret None).

(** [a || b] on two optional objects. *)
Definition orKey (a b : option Key) : option Key :=
  match a with
  | Some k => Some k
  | None => b
  end.

Definition saveCredentials (client : Credentials) : G unit :=
  content <- readFile CREDENTIALS_PATH ;;
  keys <- await (parseKeys L content) ;;
  match orKey (installed keys) (web keys) with
  | Some key =>
      let payload :=
        stringify L
          {| type := "authorized_user";
             token_client_id := client_id key;
             token_client_secret := client_secret key;
             token_refresh_token := refresh_token client |} in
      writeFile TOKEN_PATH payload
  | None =>
      throw (mkError "Cannot read properties of undefined (reading 'client_id')")
  end.

(** The consent flow of [@google-cloud/local-auth].  The client it returns
    has its [credentials], so the test [if (client.credentials)] of
    [authenticate] passes. *)
Definition consentFlow : G Credentials :=
  log ConsentFlow ;;; await (consent L).

Definition authenticate : G unit :=
  saved <- loadSavedCredentials ;;
  client <-
    match saved with
    | Some client => ret client
    | None =>
        client <- consentFlow ;;
        saveCredentials client ;;;
        ret client
    end ;;
  setAuth client.

(** [this.auth.refreshAccessToken()]: the library stores the credentials
    it obtains in the client. *)
Definition refreshAccessToken (c : Credentials) : G Credentials :=
  log (Refresh c) ;;;
  credentials <- await (token_endpoint E c) ;;
  setAuth credentials ;;;
  ret credentials.

Definition refreshTokenIfNeeded : G unit :=
  fun w =>
    match auth w with
    | Some c =>
        if needsRefresh E c then
          try_catch
            (credentials <- refreshAccessToken c ;;
             (* [this.auth] now holds [credentials] *)
             saveCredentials credentials)
            (fun error =>
               log (LogError "Token refresh failed, need re-authentication") ;;;
               authenticate)
            w
        else (Ok tt, w)
    | None => (Ok tt, w)
    end.

End Client.

(** How many times the consent flow was started. *)
Fixpoint consents (l : list Step) : nat :=
  match l with
  | [] => 0
  | ConsentFlow :: rest => S (consents rest)
  | _ :: rest => consents rest
  end.

(** How many times the token endpoint was asked for a new token. *)
Fixpoint refreshes (l : list Step) : nat :=
  match l with
  | [] => 0
  | Refresh _ :: rest => S (refreshes rest)
  | _ :: rest => refreshes rest
  end.

(** The token file cannot be loaded: it is missing or [fromJSON] rejects
    its content. *)
Definition unloadable (L : Libs) (w : World) : Prop :=
  match token_file w with
  | Some content => exists e, fromJSON L content = Throw e
  | None => True
  end.

(** The payload [saveCredentials] writes for the key [key] and the client
    [client]. *)
Definition payload (L : Libs) (key : Key) (client : Credentials) : string :=
  stringify L
    {| type := "authorized_user";
       token_client_id := client_id key;
       token_client_secret := client_secret key;
       token_refresh_token := refresh_token client |}.

(** [w] after the steps [l]. *)
Definition after (w : World) (l : list Step) : World :=
  mkWorld (auth w) (token_file w) (credentials_file w) (steps w ++ l).

End Guide.

(** ** The mail API client

    [GmailClient] reaches the mail API through the one client it builds in
    its constructor, [google.gmail({ version: 'v1', auth })].  [OnClient]
    is the code of [sendEmail], [getMessage] and [searchEmails] over any
    such client [gmail]; [messages_get] issues its request and returns the
    promise of the answer. *)
Record Gmail : Type := mkGmail {
  messages_send : string -> M string;
  messages_list : string -> Z -> M ListResponse.t;
  messages_get : string -> M (Outcome GmailMessageData)
}.

Module OnClient.

Section Client.

Variable E : Externals.
Variable gmail : Gmail.

Definition sendEmail (params : SendEmailParams) : M string :=
  let email := sendEmail_email params in
  let encodedEmail := Base64Url.encode email in
  messages_send gmail encodedEmail.

Definition getMessage (messageId : string) : M GmailMessageData :=
  p <- messages_get gmail messageId ;;
  await p.

Fixpoint startAll (listed : list Listed.t) : M (list (Outcome EmailMessage.t)) :=
  match listed with
  | [] => ret []
  | msg :: rest =>
      p <- messages_get gmail (Listed.id msg) ;;
      ps <- startAll rest ;;
      ret (shaped E msg p :: ps)
  end.

Definition searchEmails (order : list nat) (query : string)
    (maxResults : option Z) : M SearchEmailsResult.t :=
  res <- messages_list gmail query (default 10%Z maxResults) ;;
  promises <- startAll (default [] (ListResponse.messages res)) ;;
  messages <- await (PromiseAll.run promises order) ;;
  ret {| SearchEmailsResult.messages := messages;
         SearchEmailsResult.resultSizeEstimate :=
           ListResponse.resultSizeEstimate res;
         SearchEmailsResult.nextPageToken := ListResponse.nextPageToken res |}.

End Client.

End OnClient.

(** The client seen from the code: a method call is recorded with the
    credentials held when it is made, and ends as [E] says for them.
    [sendEmail], [getMessage] and [searchEmails] above are the operations
    over this client. *)
Definition direct (E : Externals) : Gmail :=
  {| messages_send := gmail_users_messages_send E;
     messages_list := gmail_users_messages_list E;
     messages_get := getMessage_request E |}.

(** ** Inside a call of the client: the OAuth2Client

    The API client sends every request through [auth.request] of the
    [OAuth2Client] it was built on.  The library first looks at the
    credentials it holds ([getRequestMetadataAsync]): it uses the access
    token when there is one that is not expiring ([isTokenExpiring]: an
    [expiry_date] that is set and not later than [Date.now()] plus
    [eagerRefreshThresholdMillis], five minutes unless configured); else it
    asks the token endpoint for a new token with the refresh token, keeps
    the credentials it gets and uses them; when the exchange fails the
    request is not sent.  A request answered with status 401 or 403 is
    repeated once after a refresh, when the client holds both tokens and no
    [expiry_date].  Here a mail API event is a request sent, with the
    credentials it bears (the HTTP layer may transmit it again, as it is,
    after a server error), and [E] gives the answer to it.  The steps of one
    call are taken together: of the calls a search starts one after the
    other for its detail fetches, each is run before the next is started. *)
Module OAuth2Client.

(** What the library reads off an error: [isAuthErr], that it is an
    answer with status 401 or 403; [couldNotRefresh], the error of a failed
    exchange as the request rejects with it (the same error, its message
    prefixed when the status is 403 or 404). *)
Record Library : Type := mkLibrary {
  isAuthErr : JsError -> bool;
  couldNotRefresh : JsError -> JsError
}.

Definition eagerRefreshThresholdMillis : Z := 5 * 60 * 1000.

(** A token that is there: not absent, not the empty string. *)
Definition present (token : option string) : bool :=
  match token with
  | Some (String _ _) => true
  | _ => false
  end.

Section Client.

Variable E : Externals.
Variable L : Library.

Definition isTokenExpiring (c : Credentials) : bool :=
  truthy (expiry_date c) &&
  match expiry_date c with
  | Num e => (e <=? Date_now E + eagerRefreshThresholdMillis)%Z
  | _ => false
  end.

(** The access token can be used as it is. *)
Definition usable (c : Credentials) : bool :=
  present (access_token c) && negb (isTokenExpiring c).

(** [refreshAccessTokenAsync]: the exchange, then
    [this.credentials = tokens]. *)
Definition refreshAccessTokenAsync : M Credentials :=
  c <- getCredentials ;;
  emit (RefreshAccessToken c) ;;;
  tokens <- await (token_endpoint E c) ;;
  setCredentials tokens ;;;
  ret tokens.

Definition getRequestMetadataAsync : M Credentials :=
  c <- getCredentials ;;
  if negb (present (access_token c)) && negb (present (refresh_token c)) then
    throw (mkError
      "No access, refresh token, API key or refresh handler callback is set.")
  else if usable c then ret c
  else
    try_catch refreshAccessTokenAsync
      (fun e => throw (couldNotRefresh L e)).

Definition mayRequireRefresh (c : Credentials) : bool :=
  present (access_token c) && present (refresh_token c) &&
  negb (truthy (expiry_date c)).

(** One try: the headers, then the request [ev] with the credentials used,
    answered by [answer]. *)
Definition transmit {A} (ev : Credentials -> Event)
    (answer : Credentials -> Outcome A) : M A :=
  c <- getRequestMetadataAsync ;;
  emit (ev c) ;;;
  await (answer c).

Definition requestAsync {A} (ev : Credentials -> Event)
    (answer : Credentials -> Outcome A) : M A :=
  try_catch (transmit ev answer)
    (fun e =>
       c <- getCredentials ;;
       if isAuthErr L e && mayRequireRefresh c then
         refreshAccessTokenAsync ;;;
         transmit ev answer
       else throw e).

(** The promise of a request that has been started. *)
Definition promise {A} (m : M A) : M (Outcome A) :=
  fun s => (Ok (m s).1, (m s).2).

(** [google.gmail({ version: 'v1', auth })] *)
Definition gmail : Gmail :=
  {| messages_send := fun raw =>
       requestAsync (fun c => MessagesSend c raw)
                    (fun c => users_messages_send E c raw);
     messages_list := fun q maxResults =>
       requestAsync (fun c => MessagesList c q maxResults)
                    (fun c => users_messages_list E c q maxResults);
     messages_get := fun id =>
       promise (requestAsync (fun c => MessagesGet c id)
                             (fun c => users_messages_get E c id)) |}.

End Client.

End OAuth2Client.

(** The credentials a mail API request bears. *)
Definition bearer (e : Event) : option Credentials :=
  match e with
  | MessagesSend c _ | MessagesList c _ _ | MessagesGet c _
  | MessagesModify c _ _ _ => Some c
  | RefreshAccessToken _ | ConsoleError _ => None
  end.

(** The credentials [c'] are what a refresh exchange among [before]
    returned. *)
Definition exchanged (E : Externals) (before : list Event) (c' : Credentials)
  : Prop :=
  exists c0, In (RefreshAccessToken c0) before /\ token_endpoint E c0 = Ok c'.

(** Scanning [evs] in order, after [pre]: every mail API request bears
    credentials that a refresh exchange made before it returned. *)
Fixpoint bearsExchanged (E : Externals) (pre evs : list Event) : Prop :=
  match evs with
  | [] => True
  | e :: rest =>
      (forall c', bearer e = Some c' -> exchanged E pre c') /\
      bearsExchanged E (pre ++ [e]) rest
  end.

(** What the first request of an operation [op] does when it is run on a
    client whose token has expired: no request is sent before a refresh
    exchange; every request bears credentials that an exchange of the
    operation returned, never the stored ones as they were; with a token to
    go by, the first thing done is the exchange, from the stored
    credentials; when that exchange fails, no request is sent at all and the
    operation fails; when it succeeds, the request follows, bearing the new
    credentials. *)
Definition refreshedFirst {A} (E : Externals) (op : M A) (s : State) : Prop :=
  let c := credentials s in
  refreshPrecedesApi (calls op s) = true /\
  bearsExchanged E [] (calls op s) /\
  (OAuth2Client.present (access_token c) || OAuth2Client.present (refresh_token c)
     = true ->
   (exists rest, calls op s = RefreshAccessToken c :: rest) /\
   (forall c', token_endpoint E c = Ok c' ->
      exists e rest,
        calls op s = RefreshAccessToken c :: e :: rest /\ bearer e = Some c')) /\
  (forall error, token_endpoint E c = Throw error ->
     Forall (fun e => isMailApiCall e = false) (calls op s) /\
     exists error', (op s).1 = Throw error').

(** The credentials held, when the access token can be used as it is,
    are what a refresh exchange among [pre] returned. *)
Definition held (E : Externals) (pre : list Event) (s : State) : Prop :=
  OAuth2Client.usable E (credentials s) = true ->
  exchanged E pre (credentials s).

(** [m] only adds requests that bear exchanged credentials, and keeps
    [held]. *)
Definition authorizes (E : Externals) {A} (m : M A) : Prop :=
  forall s pre, held E pre s ->
  exists evs,
    events (m s).2 = events s ++ evs /\
    held E (pre ++ evs) (m s).2 /\
    bearsExchanged E pre evs.

(** [m], which returns credentials, returns exchanged ones. *)
Definition issues (E : Externals) (m : M Credentials) : Prop :=
  forall s pre, held E pre s ->
  exists evs,
    events (m s).2 = events s ++ evs /\
    held E (pre ++ evs) (m s).2 /\
    bearsExchanged E pre evs /\
    (forall c, (m s).1 = Ok c -> exchanged E (pre ++ evs) c).

(** ** Concrete settings for the further examples *)
Module Scenario.

(** [E] with another answer to the detail fetches, to the list call. *)
Definition withGet (E : Externals)
    (get : Credentials -> string -> Outcome GmailMessageData) : Externals :=
  {| Date_now := Date_now E;
     toLowerCase := toLowerCase E;
     stringify_result := stringify_result E;
     stringify_message := stringify_message E;
     token_endpoint := token_endpoint E;
     users_messages_send := users_messages_send E;
     users_messages_list := users_messages_list E;
     users_messages_get := get;
     users_messages_modify := users_messages_modify E |}.

Definition withList (E : Externals)
    (list : Credentials -> string -> Z -> Outcome ListResponse.t) : Externals :=
  {| Date_now := Date_now E;
     toLowerCase := toLowerCase E;
     stringify_result := stringify_result E;
     stringify_message := stringify_message E;
     token_endpoint := token_endpoint E;
     users_messages_send := users_messages_send E;
     users_messages_list := list;
     users_messages_get := users_messages_get E;
     users_messages_modify := users_messages_modify E |}.

(** The detail fetch of [m1] fails, the others are answered. *)
Definition m1Fails : Externals :=
  withGet (Demo.externals 2000)
    (fun _ id => if String.eqb id "m1" then Throw (mkError "Not Found")
                 else Ok (Demo.details id)).

(** The list call answers without a [messages] field. *)
Definition noMessages : Externals :=
  withList (Demo.externals 2000)
    (fun _ _ _ => Ok (ListResponse.mk None (Some 0%Z) None)).

(** Libraries for the guide's client: a token file holds [token:] and the
    refresh token; the key file [keys] holds an [installed] key. *)
Definition libs : Guide.Libs :=
  {| Guide.fromJSON := fun content =>
       match content with
       | String "t" (String "o" (String "k" (String "e" (String "n"
           (String ":" refresh))))) =>
           Ok {| access_token := None;
                 refresh_token := Some refresh;
                 expiry_date := Undefined |}
       | _ => Throw (mkError "Unexpected token")
       end;
     Guide.parseKeys := fun content =>
       if String.eqb content "keys"
       then Ok {| Guide.installed :=
                    Some {| Guide.client_id := Some "id.apps";
                            Guide.client_secret := Some "secret" |};
                  Guide.web := None |}
       else Throw (mkError "Unexpected token");
     Guide.stringify := fun data =>
       "token:" +:+ default "" (Guide.token_refresh_token data);
     Guide.consent :=
       Ok {| access_token := Some "ya29.first";
             refresh_token := Some "1//0g";
             expiry_date := Num 3600000 |} |}.

(** A client of the guide with the key file in place and the given
    [auth] and token file. *)
Definition world (auth : option Credentials) (token : option string)
  : Guide.World :=
  {| Guide.auth := auth;
     Guide.token_file := token;
     Guide.credentials_file := Some "keys";
     Guide.steps := [] |}.

Definition installedKey : Guide.Key :=
  {| Guide.client_id := Some "id.apps"; Guide.client_secret := Some "secret" |}.

(** The send call rejects the token [ya29.old] with status 401 and accepts
    any other; the token endpoint grants a new token. *)
Definition rejectsOld : Externals :=
  let E := Demo.renewing 2000 in
  {| Date_now := Date_now E;
     toLowerCase := toLowerCase E;
     stringify_result := stringify_result E;
     stringify_message := stringify_message E;
     token_endpoint := token_endpoint E;
     users_messages_send := fun c raw =>
       match access_token c with
       | Some "ya29.old" => Throw (mkError "Invalid Credentials")
       | _ => users_messages_send E c raw
       end;
     users_messages_list := users_messages_list E;
     users_messages_get := users_messages_get E;
     users_messages_modify := users_messages_modify E |}.

(** The library reading an error: the answer [Invalid Credentials] is the
    one with status 401; the error of a failed exchange is left as it is
    (an [invalid_grant] answer has status 400). *)
Definition library : OAuth2Client.Library :=
  {| OAuth2Client.isAuthErr := fun e =>
       String.eqb (message e) "Invalid Credentials";
     OAuth2Client.couldNotRefresh := fun e => e |}.

End Scenario.

(** ** The tool boundary

    The handlers are callbacks registered with [server.tool] on the SDK's
    [McpServer].  The server answers a [tools/call] request by running the
    registered callback inside a [try]/[catch] of its own: what the callback
    returns is the result of the call, and a callback that throws (an
    [async] callback whose promise is rejected) is answered with a result
    whose one text item is the message of the error, with [isError] set.
    The arguments are those that passed the schema given at registration. *)
Module McpServer.

Definition tool (callback : M ToolResult) : M ToolResult :=
  try_catch callback
    (fun error => ret {| text := message error; isError := true |}).

End McpServer.

(** A call of one of the tools that the entry point and the guide's further
    listings register, with its arguments. *)
Inductive ToolCall : Type :=
| Send_email (params : SendEmailParams)
| Search_emails (query : string) (maxResults : option Z)
| Read_email (messageId : string)
| Send_html_email (to : list string) (subject htmlBody : string)
    (plainText : option string)
| Manage_labels (messageId : string)
    (addLabels removeLabels : option (list string)).

(** The callback registered for the tool. *)
Definition callback (E : Externals) (order : list nat) (call : ToolCall)
  : M ToolResult :=
  match call with
  | Send_email params => send_email E params
  | Search_emails query maxResults => search_emails E order query maxResults
  | Read_email messageId => read_email E messageId
  | Send_html_email to subject htmlBody plainText =>
      send_html_email E to subject htmlBody plainText
  | Manage_labels messageId addLabels removeLabels =>
      manage_labels E messageId addLabels removeLabels
  end.

(** The tool call, as the server answers it. *)
Definition callTool (E : Externals) (order : list nat) (call : ToolCall)
  : M ToolResult :=
  McpServer.tool (callback E order call).

(** * Facts *)

(** ** Running the monad *)

Lemma calls_app {A} (m : M A) (s : State) (evs : list Event) :
  events (m s).2 = events s ++ evs -> calls m s = evs.
Proof.
  intros H. unfold calls. rewrite H. apply drop_app_length.
Qed.

Lemma calls_unchanged {A} (m : M A) (s : State) (o : Outcome A) :
  m s = (o, s) -> calls m s = [].
Proof.
  intros H. apply calls_app. rewrite H. simpl. symmetry. apply app_nil_r.
Qed.

(** ** The refresh guard *)

Section RefreshGuard.

Variable E : Externals.

Lemma needsRefresh_spec (c : Credentials) :
  needsRefresh E c = true <->
  exists e, expiry_date c = Num e /\ e <> 0%Z /\ (Date_now E >= e)%Z.
Proof.
  unfold needsRefresh, truthy. destruct (expiry_date c) as [| |e]; simpl.
  - split; [discriminate | intros (e & He & _); discriminate].
  - split; [discriminate | intros (e & He & _); discriminate].
  - rewrite andb_true_iff, negb_true_iff, Z.eqb_neq, Z.leb_le. split.
    + intros [H0 Hle]. exists e. repeat split; [assumption | lia].
    + intros (e' & He & H0 & Hge). injection He as <-. split; [assumption | lia].
Qed.

Lemma refreshTokenIfNeeded_skip (s : State) :
  needsRefresh E (credentials s) = false ->
  refreshTokenIfNeeded E s = (Ok tt, s).
Proof.
  intros H. unfold refreshTokenIfNeeded, bind, getCredentials.
  rewrite H. reflexivity.
Qed.

(** What the guard does once the condition holds, by the answer of the
    token endpoint. *)
Lemma refreshTokenIfNeeded_run (s : State) :
  needsRefresh E (credentials s) = true ->
  refreshTokenIfNeeded E s =
  let c := credentials s in
  match token_endpoint E c with
  | Ok c' => (Ok tt, mkState c' (events s ++ [RefreshAccessToken c]))
  | Throw error =>
      (Throw error,
       mkState c (events s ++
                  [RefreshAccessToken c;
                   ConsoleError "Token refresh failed, need re-authentication"]))
  | Hang => (Hang, mkState c (events s ++ [RefreshAccessToken c]))
  end.
Proof.
  intros H. unfold refreshTokenIfNeeded, bind, getCredentials.
  rewrite H. unfold try_catch, refreshAccessToken, bind, getCredentials, emit,
    await, setCredentials, console_error, throw. simpl.
  destruct (token_endpoint E (credentials s)); simpl; try reflexivity.
  rewrite <- app_assoc. reflexivity.
Qed.

Lemma refreshAttempts_run (s : State) :
  needsRefresh E (credentials s) = true ->
  refreshAttempts (calls (refreshTokenIfNeeded E) s) = 1.
Proof.
  intros H. pose proof (refreshTokenIfNeeded_run s H) as Hrun. simpl in Hrun.
  destruct (token_endpoint E (credentials s)) eqn:Ht;
    (erewrite calls_app; [| rewrite Hrun; reflexivity]); reflexivity.
Qed.

End RefreshGuard.

(** C7. For a credential whose [expiry_date] is set (a number other than
    [0], which is what the guard's own test [expiry_date && ...] takes for
    set), [refreshTokenIfNeeded] attempts the refresh exchange exactly when
    [Date.now() >= expiry_date]: at the boundary [Date.now() = expiry_date]
    the exchange is attempted, and while the expiry lies strictly in the
    future nothing is called and the state is left as it is. *)
Theorem refresh_entered_iff_expired (E : Externals) (s : State) (e : Z) :
  expiry_date (credentials s) = Num e ->
  e <> 0%Z ->
  (refreshAttempts (calls (refreshTokenIfNeeded E) s) = 1 <-> (Date_now E >= e)%Z) /\
  ((Date_now E = e)%Z -> refreshAttempts (calls (refreshTokenIfNeeded E) s) = 1) /\
  ((Date_now E < e)%Z ->
   refreshTokenIfNeeded E s = (Ok tt, s) /\
   refreshAttempts (calls (refreshTokenIfNeeded E) s) = 0).
Proof.
  intros He H0.
  assert (Hyes : (Date_now E >= e)%Z ->
                 refreshAttempts (calls (refreshTokenIfNeeded E) s) = 1).
  { intros Hge. apply refreshAttempts_run, needsRefresh_spec. eauto. }
  assert (Hno : (Date_now E < e)%Z ->
                refreshTokenIfNeeded E s = (Ok tt, s) /\
                refreshAttempts (calls (refreshTokenIfNeeded E) s) = 0).
  { intros Hlt.
    assert (Hs : refreshTokenIfNeeded E s = (Ok tt, s)).
    { apply refreshTokenIfNeeded_skip.
      destruct (needsRefresh E (credentials s)) eqn:Hn; [| reflexivity].
      apply needsRefresh_spec in Hn as (e' & He' & _ & Hge).
      rewrite He in He'. injection He' as <-. lia. }
    split; [exact Hs |]. rewrite (calls_unchanged _ _ _ Hs). reflexivity. }
  split; [| split].
  - split; [| exact Hyes].
    intros H1. destruct (Z_lt_ge_dec (Date_now E) e) as [Hlt | Hge]; [| exact Hge].
    destruct (Hno Hlt) as [_ H2]. rewrite H2 in H1. discriminate.
  - intros Heq. apply Hyes. lia.
  - exact Hno.
Qed.

(** C10. When [expiry_date] is absent, [null] or [0],
    [refreshTokenIfNeeded] calls nothing and returns with the state, and so
    the stored credentials, as they were, whatever the access token is; a
    refresh exchange is attempted only for a truthy [expiry_date]. *)
Theorem no_refresh_without_expiry (E : Externals) (s : State) :
  (expiry_date (credentials s) = Undefined \/
   expiry_date (credentials s) = Null \/
   expiry_date (credentials s) = Num 0 ->
   refreshTokenIfNeeded E s = (Ok tt, s) /\
   calls (refreshTokenIfNeeded E) s = []) /\
  (refreshAttempts (calls (refreshTokenIfNeeded E) s) <> 0 ->
   truthy (expiry_date (credentials s)) = true).
Proof.
  assert (Hskip : truthy (expiry_date (credentials s)) = false ->
                  refreshTokenIfNeeded E s = (Ok tt, s)).
  { intros Hf. apply refreshTokenIfNeeded_skip. unfold needsRefresh.
    rewrite Hf. reflexivity. }
  split.
  - intros H.
    assert (Hf : truthy (expiry_date (credentials s)) = false)
      by (destruct H as [-> | [-> | ->]]; reflexivity).
    split; [exact (Hskip Hf) |]. exact (calls_unchanged _ _ _ (Hskip Hf)).
  - intros Hn. destruct (truthy (expiry_date (credentials s))) eqn:Ht; [reflexivity |].
    rewrite (calls_unchanged _ _ _ (Hskip eq_refl)) in Hn. contradiction.
Qed.

(** ** base64url: decoding undoes encoding *)

Module Base64UrlFacts.
Import Base64Url.

Lemma index_char (i : N) : (i < 64)%N -> index (char i) = Some i.
Proof.
  intros Hi.
  destruct i as [|p]; [reflexivity|].
  do 6 (destruct p as [p|p|]; try reflexivity); exfalso; lia.
Qed.

Lemma string3_ind (P : string -> Prop) :
  P "" ->
  (forall a, P (String a "")) ->
  (forall a b, P (String a (String b ""))) ->
  (forall a b c r, P r -> P (String a (String b (String c r)))) ->
  forall s, P s.
Proof.
  intros H0 H1 H2 H3.
  fix IH 1.
  intros [|a [|b [|c r]]]; [exact H0 | apply H1 | apply H2 | apply H3; apply IH].
Qed.

Lemma bytes3_group3 (a b c : N) (r : string) :
  (a < 256)%N -> (b < 256)%N -> (c < 256)%N ->
  let n := (a * 65536 + b * 256 + c)%N in
  bytes3 (n / 262144) ((n / 4096) mod 64) ((n / 64) mod 64) (n mod 64) r =
  String (ascii_of_N a) (String (ascii_of_N b) (String (ascii_of_N c) r)).
Proof.
  intros Ha Hb Hc n. unfold bytes3.
  assert (Hn : ((((n / 262144) * 64 + (n / 4096) mod 64) * 64 + (n / 64) mod 64) * 64 + n mod 64 = n)%N).
  { subst n. zify. Z.to_euclidean_division_equations. lia. }
  rewrite Hn.
  assert (H1 : (n / 65536 = a)%N) by (subst n; zify; Z.to_euclidean_division_equations; lia).
  assert (H2 : ((n / 256) mod 256 = b)%N) by (subst n; zify; Z.to_euclidean_division_equations; lia).
  assert (H3 : (n mod 256 = c)%N) by (subst n; zify; Z.to_euclidean_division_equations; lia).
  rewrite H1, H2, H3. reflexivity.
Qed.

Lemma group3_lt (a b c : N) :
  (a < 256)%N -> (b < 256)%N -> (c < 256)%N ->
  Forall (fun i => (i < 64)%N) (group3 a b c).
Proof.
  intros Ha Hb Hc. unfold group3.
  repeat constructor; zify; Z.to_euclidean_division_equations; lia.
Qed.

Lemma bytes2_group2 (a b : N) :
  (a < 256)%N -> (b < 256)%N ->
  let n := ((a * 256 + b) * 4)%N in
  bytes2 (n / 4096) ((n / 64) mod 64) (n mod 64) =
  String (ascii_of_N a) (String (ascii_of_N b) "").
Proof.
  intros Ha Hb n. unfold bytes2.
  assert (Hn : ((((n / 4096) * 64 + (n / 64) mod 64) * 64 + n mod 64) / 4 = a * 256 + b)%N)
    by (subst n; zify; Z.to_euclidean_division_equations; lia).
  rewrite Hn.
  assert (H1 : ((a * 256 + b) / 256 = a)%N) by (zify; Z.to_euclidean_division_equations; lia).
  assert (H2 : ((a * 256 + b) mod 256 = b)%N) by (zify; Z.to_euclidean_division_equations; lia).
  rewrite H1, H2. reflexivity.
Qed.

Lemma bytes1_group1 (a : N) :
  (a < 256)%N ->
  let n := (a * 16)%N in
  bytes1 (n / 64) (n mod 64) = String (ascii_of_N a) "".
Proof.
  intros Ha n. unfold bytes1.
  assert (Hn : (((n / 64) * 64 + n mod 64) / 16 = a)%N)
    by (subst n; zify; Z.to_euclidean_division_equations; lia).
  rewrite Hn. reflexivity.
Qed.

Lemma group2_lt (a b : N) :
  (a < 256)%N -> (b < 256)%N -> Forall (fun i => (i < 64)%N) (group2 a b).
Proof.
  intros Ha Hb. unfold group2.
  repeat constructor; zify; Z.to_euclidean_division_equations; lia.
Qed.

Lemma group1_lt (a : N) :
  (a < 256)%N -> Forall (fun i => (i < 64)%N) (group1 a).
Proof.
  intros Ha. unfold group1.
  repeat constructor; zify; Z.to_euclidean_division_equations; lia.
Qed.

Theorem decode_encode (s : string) : decode (encode s) = Some s.
Proof.
  induction s as [|a|a b|a b c r IH] using string3_ind.
  - reflexivity.
  - pose proof (N_ascii_bounded a) as Ha.
    pose proof (group1_lt _ Ha) as Hg. unfold group1 in Hg.
    inversion Hg as [|? ? H1 Hg1]; subst. inversion Hg1 as [|? ? H2 _]; subst.
    cbn [encode chars group1 fold_right decode].
    rewrite (index_char _ H1), (index_char _ H2).
    rewrite (bytes1_group1 _ Ha), ascii_N_embedding. reflexivity.
  - pose proof (N_ascii_bounded a) as Ha. pose proof (N_ascii_bounded b) as Hb.
    pose proof (group2_lt _ _ Ha Hb) as Hg. unfold group2 in Hg.
    inversion Hg as [|? ? H1 Hg1]; subst. inversion Hg1 as [|? ? H2 Hg2]; subst.
    inversion Hg2 as [|? ? H3 _]; subst.
    cbn [encode chars group2 fold_right decode].
    rewrite (index_char _ H1), (index_char _ H2), (index_char _ H3).
    rewrite (bytes2_group2 _ _ Ha Hb), !ascii_N_embedding. reflexivity.
  - pose proof (N_ascii_bounded a) as Ha. pose proof (N_ascii_bounded b) as Hb.
    pose proof (N_ascii_bounded c) as Hc.
    pose proof (group3_lt _ _ _ Ha Hb Hc) as Hg. unfold group3 in Hg.
    inversion Hg as [|? ? H1 Hg1]; subst. inversion Hg1 as [|? ? H2 Hg2]; subst.
    inversion Hg2 as [|? ? H3 Hg3]; subst. inversion Hg3 as [|? ? H4 _]; subst.
    cbn [encode chars group3 fold_right decode].
    rewrite (index_char _ H1), (index_char _ H2), (index_char _ H3), (index_char _ H4).
    rewrite IH.
    rewrite (bytes3_group3 _ _ _ r Ha Hb Hc), !ascii_N_embedding. reflexivity.
Qed.
End Base64UrlFacts.

(** ** extractHeader *)

Section ExtractHeader.

Variable E : Externals.

Lemma orElse_empty (v : option string) : orElse v "" = default "" v.
Proof. destruct v as [[|c r]|]; reflexivity. Qed.

Lemma find_first_match (headerName : string) (pre post : list GmailHeader)
    (h : GmailHeader) :
  Forall (fun h' => ~ matches E headerName h') pre ->
  matches E headerName h ->
  find (fun h => String.eqb (toLowerCase E (name h)) (toLowerCase E headerName))
       (pre ++ h :: post) = Some h.
Proof.
  intros Hpre Hh. induction Hpre as [|h' pre Hh' _ IH]; simpl.
  - unfold matches in Hh. rewrite Hh, String.eqb_refl. reflexivity.
  - destruct (String.eqb_spec (toLowerCase E (name h')) (toLowerCase E headerName))
      as [Heq | _]; [contradiction | exact IH].
Qed.

Lemma find_no_match (headerName : string) (hs : list GmailHeader) :
  Forall (fun h' => ~ matches E headerName h') hs ->
  find (fun h => String.eqb (toLowerCase E (name h)) (toLowerCase E headerName)) hs
  = None.
Proof.
  induction 1 as [|h' hs Hh' _ IH]; simpl; [reflexivity |].
  destruct (String.eqb_spec (toLowerCase E (name h')) (toLowerCase E headerName))
    as [Heq | _]; [contradiction | exact IH].
Qed.

End ExtractHeader.

(** C8. [extractHeader] is a total function to strings: it returns for
    every message and header name.  When the header list is
    [pre ++ h :: post], no header of [pre] has the requested name up to
    case and [h] has it, the result is the value of [h], or the empty
    string when [h] has no value.  When the payload is absent, the header
    list is absent, or no header has the requested name up to case, the
    result is the empty string. *)
Theorem extractHeader_first_match (E : Externals) (message : GmailMessageData)
    (headerName : string) :
  (forall p pre h post,
     payload message = Some p ->
     headers p = Some (pre ++ h :: post) ->
     Forall (fun h' => ~ matches E headerName h') pre ->
     matches E headerName h ->
     extractHeader E message headerName =
       match value h with Some v => v | None => "" end) /\
  (payload message = None -> extractHeader E message headerName = "") /\
  (forall p, payload message = Some p -> headers p = None ->
     extractHeader E message headerName = "") /\
  (forall p hs, payload message = Some p -> headers p = Some hs ->
     Forall (fun h' => ~ matches E headerName h') hs ->
     extractHeader E message headerName = "").
Proof.
  unfold extractHeader. repeat split.
  - intros p pre h post Hp Hhs Hpre Hh. rewrite Hp, Hhs.
    rewrite (find_first_match E headerName pre post h Hpre Hh).
    rewrite orElse_empty. destruct (value h); reflexivity.
  - intros Hp. rewrite Hp. reflexivity.
  - intros p Hp Hhs. rewrite Hp, Hhs. reflexivity.
  - intros p hs Hp Hhs Hno. rewrite Hp, Hhs.
    rewrite (find_no_match E headerName hs Hno). reflexivity.
Qed.

(** ** Sending *)

Lemma append_assoc (a b c : string) : (a +:+ b) +:+ c = a +:+ b +:+ c.
Proof. induction a as [|x a IH]; simpl; [reflexivity | rewrite IH; reflexivity]. Qed.

Lemma append_empty_r (a : string) : a +:+ "" = a.
Proof. induction a as [|x a IH]; simpl; [reflexivity | rewrite IH; reflexivity]. Qed.

(** Both sides are the same pieces in the same order. *)
Ltac same_pieces :=
  cbn [join String.concat mimePart app];
  rewrite ?append_assoc, ?append_empty_r; cbn [String.append];
  reflexivity.

Section Sending.

Variable E : Externals.

Lemma gmail_users_messages_send_run (raw : string) (s : State) :
  gmail_users_messages_send E raw s =
  (users_messages_send E (credentials s) raw,
   mkState (credentials s) (events s ++ [MessagesSend (credentials s) raw])).
Proof. reflexivity. Qed.

Lemma sendEmail_run (params : SendEmailParams) (s : State) :
  sendEmail E params s =
  (users_messages_send E (credentials s) (Base64Url.encode (sendEmail_email params)),
   mkState (credentials s)
     (events s ++
      [MessagesSend (credentials s) (Base64Url.encode (sendEmail_email params))])).
Proof. reflexivity. Qed.

Lemma sendEmail_calls (params : SendEmailParams) (s : State) :
  calls (sendEmail E params) s =
  [MessagesSend (credentials s) (Base64Url.encode (sendEmail_email params))].
Proof. apply calls_app. reflexivity. Qed.

Lemma getMessage_run (messageId : string) (s : State) :
  getMessage E messageId s =
  (users_messages_get E (credentials s) messageId,
   mkState (credentials s) (events s ++ [MessagesGet (credentials s) messageId])).
Proof. reflexivity. Qed.

Lemma send_html_email_calls (to : list string) (subject htmlBody : string)
    (plainText : option string) (s : State) :
  calls (send_html_email E to subject htmlBody plainText) s =
  [MessagesSend (credentials s)
     (Base64Url.encode (send_html_email_email E to subject htmlBody plainText))].
Proof.
  apply calls_app. unfold send_html_email, bind.
  rewrite gmail_users_messages_send_run.
  destruct (users_messages_send E _ _); reflexivity.
Qed.

End Sending.

(** The message of a send without Cc and Bcc: three header lines, an empty
    line, the body. *)
Lemma sendEmail_email_plain (params : SendEmailParams) :
  hasLength (cc params) = false -> hasLength (bcc params) = false ->
  sendEmail_email params =
  join CRLF [ "To: " +:+ join ", " (to params);
              "Subject: " +:+ subject params;
              "Content-Type: text/plain; charset=utf-8" ]
  +:+ CRLF +:+ CRLF +:+ body params.
Proof.
  intros Hcc Hbcc. unfold sendEmail_email. rewrite Hcc, Hbcc. same_pieces.
Qed.

(** C4. For a send with at least one recipient and neither Cc nor Bcc,
    [sendEmail] makes one call, [messages.send], whose [raw] decodes
    (base64url) to the message it composed: a header block holding the line
    [To: ] followed by the recipients joined by [", "], the line
    [Subject: ] followed by the subject and the content type line, then an
    empty line, then the body, which is the given string and ends the
    message.  Recipients, subject and body are copied as they are given. *)
Theorem sendEmail_plain_message (E : Externals) (s : State)
    (params : SendEmailParams) :
  to params <> [] ->
  hasLength (cc params) = false ->
  hasLength (bcc params) = false ->
  exists raw,
    calls (sendEmail E params) s = [MessagesSend (credentials s) raw] /\
    Base64Url.decode raw =
      Some (join CRLF [ "To: " +:+ join ", " (to params);
                        "Subject: " +:+ subject params;
                        "Content-Type: text/plain; charset=utf-8" ]
            +:+ CRLF +:+ CRLF +:+ body params).
Proof.
  intros _ Hcc Hbcc. eexists. split; [apply sendEmail_calls |].
  rewrite Base64UrlFacts.decode_encode, (sendEmail_email_plain params Hcc Hbcc). reflexivity.
Qed.

(** C9. The [send_html_email] handler makes one call, [messages.send],
    whose [raw] decodes to one multipart/alternative message: the header
    block names the boundary [boundary_] followed by the clock reading in
    decimal; after the empty line come, in this order, the line
    [--boundary], the text/plain part, the line [--boundary], the text/html
    part and the closing line [--boundary--], all with that one boundary.
    The plain part holds [plainText] when it is supplied and not empty. *)
Theorem send_html_email_two_parts (E : Externals) (s : State)
    (to : list string) (subject htmlBody : string) (plainText : option string) :
  let boundary := "boundary_" +:+ decimal (Date_now E) in
  exists raw,
    calls (send_html_email E to subject htmlBody plainText) s
      = [MessagesSend (credentials s) raw] /\
    Base64Url.decode raw =
      Some (join CRLF
              [ "To: " +:+ join ", " to;
                "Subject: " +:+ subject;
                "Content-Type: multipart/alternative; boundary="
                  +:+ dquote +:+ boundary +:+ dquote ]
            +:+ CRLF +:+ CRLF +:+
            join CRLF
              [ "--" +:+ boundary;
                mimePart "text/plain"
                  (orElse plainText "This email requires HTML support");
                "--" +:+ boundary;
                mimePart "text/html" htmlBody;
                "--" +:+ boundary +:+ "--" ]) /\
    (forall p, plainText = Some p -> p <> "" ->
       orElse plainText "This email requires HTML support" = p).
Proof.
  intros boundary. eexists. split; [apply send_html_email_calls |]. split.
  - rewrite Base64UrlFacts.decode_encode. f_equal. unfold send_html_email_email.
    fold boundary. same_pieces.
  - intros p -> Hp. destruct p; [contradiction | reflexivity].
Qed.

(** ** Promise.all *)

Section PromiseAllFacts.

Import PromiseAll.
Context {A : Type}.

Lemma fill_slot (values : list (option A)) :
  forall (outcomes : list (Outcome A)) (i : nat) (v : A),
  Forall2 slot_ok values outcomes ->
  values !! i = Some None -> outcomes !! i = Some (Ok v) ->
  Forall2 slot_ok (<[i := Some v]> values) outcomes /\
  pendingCount values = S (pendingCount (<[i := Some v]> values)).
Proof.
  induction values as [|slot values IH]; intros outcomes i v Hall Hi Hv.
  - discriminate.
  - inversion Hall as [|? o ? outcomes' Hslot Hrest]; subst.
    destruct i as [|i]; simpl in *.
    + injection Hi as ->. injection Hv as ->. split.
      * constructor; [right; exists v; split; reflexivity | exact Hrest].
      * reflexivity.
    + destruct (IH outcomes' i v Hrest Hi Hv) as [H1 H2]. split.
      * constructor; assumption.
      * destruct slot; simpl; rewrite H2; reflexivity.
Qed.

Lemma collect_filled (values : list (option A)) :
  forall outcomes, Forall2 slot_ok values outcomes ->
  pendingCount values = 0 ->
  outcomes = Ok <$> collect values.
Proof.
  induction values as [|slot values IH]; intros outcomes Hall Hc;
    inversion Hall as [|? o ? outcomes' Hslot Hrest]; subst.
  - reflexivity.
  - destruct slot as [a|]; [| discriminate].
    destruct Hslot as [Hs | (v & Hs & ->)]; [discriminate |].
    injection Hs as ->.
    unfold collect in *. simpl. f_equal. apply IH; assumption.
Qed.

Lemma pendingCount_settled (values : list (option A)) :
  (forall k, k < length values -> values !! k <> Some None) ->
  pendingCount values = 0.
Proof.
  induction values as [|slot values IH]; intros H; [reflexivity |].
  destruct slot as [a|].
  - simpl. apply IH. intros k Hk. apply (H (S k)). simpl. lia.
  - exfalso. apply (H 0); [simpl; lia | reflexivity].
Qed.

Section Outcomes.

Variable outcomes : list (Outcome A).

Lemma settle_inv (st : t A) (i : nat) :
  all_inv outcomes st -> all_inv outcomes (settle outcomes st i).
Proof.
  destruct st as [values remaining | values | e]; simpl; try tauto.
  intros (Hall & Hrem & Hpos).
  destruct (values !! i) as [[a|]|] eqn:Hi; simpl; try tauto.
  destruct (outcomes !! i) as [[v | e |]|] eqn:Hv; simpl; try tauto.
  - destruct (fill_slot values outcomes i v Hall Hi Hv) as [Hall' Hc].
    destruct remaining as [|[|r]]; [lia | |].
    + apply collect_filled; [exact Hall' | lia].
    + simpl. repeat split; [exact Hall' | lia | lia].
  - exists i. exact Hv.
Qed.

Lemma fold_settle_inv (order : list nat) :
  forall st, all_inv outcomes st ->
  all_inv outcomes (fold_left (settle outcomes) order st).
Proof.
  induction order as [|i order IH]; intros st Hst; simpl; [exact Hst |].
  apply IH, settle_inv, Hst.
Qed.

Lemma start_inv : all_inv outcomes (start (length outcomes)).
Proof.
  assert (Hgen : forall l : list (Outcome A),
            Forall2 slot_ok (replicate (length l) None) l /\
            length l = pendingCount (replicate (length l) (@None A))).
  { induction l as [|x l [IH1 IH2]]; simpl; split; auto.
    constructor; [left; reflexivity | exact IH1]. }
  destruct (Hgen outcomes) as [H1 H2].
  destruct outcomes as [|o os] eqn:Ho; [reflexivity |].
  simpl in *. repeat split; [exact H1 | exact H2 | lia].
Qed.

(** The combined promise is fulfilled only with the values of all the
    promises, in index order. *)
Lemma run_Ok (order : list nat) (vs : list A) :
  run outcomes order = Ok vs -> outcomes = Ok <$> vs.
Proof.
  unfold run. intros Hrun.
  pose proof (fold_settle_inv (order ++ seq 0 (length outcomes)) _ start_inv)
    as Hinv.
  destruct (fold_left (settle outcomes) (order ++ seq 0 (length outcomes))
              (start (length outcomes))) as [values remaining | values | e];
    try discriminate.
  injection Hrun as <-. exact Hinv.
Qed.

End Outcomes.

Section Fulfilled.

Variable vs : list A.

Lemma settle_settledBelow (st : t A) (j : nat) :
  all_inv (Ok <$> vs) st -> settledBelow j st ->
  settledBelow (S j) (settle (Ok <$> vs) st j).
Proof.
  destruct st as [values remaining | values | e]; simpl; try tauto.
  intros (Hall & Hrem & Hpos) Hbelow.
  assert (Hkeep : values !! j <> Some None ->
                  forall k, k < S j -> values !! k <> Some None).
  { intros Hj k Hk. destruct (decide (k = j)) as [-> | Hne]; [exact Hj |].
    apply Hbelow. lia. }
  destruct (values !! j) as [[a|]|] eqn:Hi; simpl;
    try (apply Hkeep; congruence).
  rewrite list_lookup_fmap.
  destruct (vs !! j) as [v|] eqn:Hv; simpl.
  - destruct remaining as [|[|r]]; simpl; try exact I.
    + intros k Hk. lia.
    + intros k Hk. destruct (decide (k = j)) as [-> | Hne].
      * rewrite list_lookup_insert_eq; [congruence |].
        apply lookup_lt_Some in Hi. exact Hi.
      * rewrite list_lookup_insert_ne by congruence. apply Hbelow. lia.
  - apply lookup_lt_Some in Hi. apply lookup_ge_None in Hv.
    apply Forall2_length in Hall. rewrite length_fmap in Hall. lia.
Qed.

Lemma fold_seq_settled (j : nat) :
  forall st, all_inv (Ok <$> vs) st ->
  settledBelow j (fold_left (settle (Ok <$> vs)) (seq 0 j) st).
Proof.
  induction j as [|j IH]; intros st Hst.
  - simpl. destruct st; simpl; [intros k Hk; lia | exact I | exact I].
  - rewrite seq_S, fold_left_app. simpl.
    apply settle_settledBelow; [apply fold_settle_inv, Hst | apply IH, Hst].
Qed.

Lemma Ok_fmap_inj (ws : list A) : Ok <$> vs = Ok <$> ws -> vs = ws.
Proof.
  revert ws. induction vs as [|v l IH]; intros [|w ws] H; try discriminate.
  - reflexivity.
  - injection H as -> H. f_equal. apply IH, H.
Qed.

(** Whatever the order in which the promises are fulfilled, the combined
    promise is fulfilled with the values in index order. *)
Lemma run_fulfilled (order : list nat) : run (Ok <$> vs) order = Ok vs.
Proof.
  unfold run. rewrite length_fmap, fold_left_app.
  set (st := fold_left (settle (Ok <$> vs)) order (start (length vs))).
  assert (Hst : all_inv (Ok <$> vs) st).
  { apply fold_settle_inv. rewrite <- (length_fmap Ok vs). apply start_inv. }
  pose proof (fold_settle_inv (Ok <$> vs) (seq 0 (length vs)) st Hst) as Hinv.
  pose proof (fold_seq_settled (length vs) st Hst) as Hbelow.
  destruct (fold_left (settle (Ok <$> vs)) (seq 0 (length vs)) st)
    as [values remaining | values | e]; simpl in *.
  - destruct Hinv as (Hall & Hrem & Hpos).
    rewrite (pendingCount_settled values) in Hrem.
    + lia.
    + intros k Hk. apply Hbelow. apply Forall2_length in Hall.
      rewrite length_fmap in Hall. lia.
  - rewrite (Ok_fmap_inj values Hinv). reflexivity.
  - destruct Hinv as [i Hi]. rewrite list_lookup_fmap in Hi.
    destruct (vs !! i); discriminate.
Qed.

End Fulfilled.

End PromiseAllFacts.

(** ** searchEmails *)

Section SearchEmails.

Variable E : Externals.

(** The requests [Array.map] issues, in the order of the listed messages;
    the promise of each callback settles as its detail fetch does. *)
Lemma startAll_run (listed : list Listed.t) :
  forall s,
  startAll E listed s =
  (Ok (map (fun msg =>
              shaped E msg (users_messages_get E (credentials s) (Listed.id msg)))
           listed),
   mkState (credentials s)
     (events s ++
      map (fun msg => MessagesGet (credentials s) (Listed.id msg)) listed)).
Proof.
  induction listed as [|msg listed IH]; intros s.
  - simpl. unfold ret. rewrite app_nil_r. destruct s; reflexivity.
  - cbn [startAll]. unfold bind at 1.
    unfold getMessage_request, bind, getCredentials, emit, ret. simpl.
    rewrite (IH (mkState (credentials s)
                         (events s ++ [MessagesGet (credentials s) (Listed.id msg)]))).
    simpl. rewrite <- app_assoc. reflexivity.
Qed.

Lemma shaped_all_Ok (c : Credentials) (listed : list Listed.t) :
  Forall (fun msg => exists d, users_messages_get E c (Listed.id msg) = Ok d)
         listed ->
  exists ms,
    map (fun msg => shaped E msg (users_messages_get E c (Listed.id msg))) listed
    = Ok <$> ms.
Proof.
  induction 1 as [|msg listed [d Hd] _ [ms IH]]; simpl.
  - exists []. reflexivity.
  - exists (shape E msg d :: ms). rewrite Hd, IH. reflexivity.
Qed.

Lemma shaped_Ok_inv (c : Credentials) (listed : list Listed.t) :
  forall ms,
  map (fun msg => shaped E msg (users_messages_get E c (Listed.id msg))) listed
  = Ok <$> ms ->
  Forall2 (fun msg m =>
             exists d, users_messages_get E c (Listed.id msg) = Ok d /\
                       m = shape E msg d) listed ms.
Proof.
  induction listed as [|msg listed IH]; intros [|m ms] H; try discriminate.
  - constructor.
  - simpl in H. injection H as Hm Hrest. constructor; [| apply IH, Hrest].
    destruct (users_messages_get E c (Listed.id msg)) as [d | e |];
      try discriminate.
    exists d. split; [reflexivity |]. simpl in Hm. congruence.
Qed.

(** How [searchEmails] ends once the list call has answered: as the
    [Promise.all] over the callbacks' promises does. *)
Lemma searchEmails_outcome (order : list nat) (query : string)
    (maxResults : option Z) (s : State) (res : ListResponse.t) :
  users_messages_list E (credentials s) query (default 10%Z maxResults) = Ok res ->
  (searchEmails E order query maxResults s).1 =
  match PromiseAll.run
          (map (fun msg =>
                  shaped E msg
                    (users_messages_get E (credentials s) (Listed.id msg)))
               (default [] (ListResponse.messages res))) order with
  | Ok messages =>
      Ok {| SearchEmailsResult.messages := messages;
            SearchEmailsResult.resultSizeEstimate :=
              ListResponse.resultSizeEstimate res;
            SearchEmailsResult.nextPageToken := ListResponse.nextPageToken res |}
  | Throw e => Throw e
  | Hang => Hang
  end.
Proof.
  intros Hlist. unfold searchEmails, bind at 1.
  unfold gmail_users_messages_list, bind, getCredentials, emit, await. simpl.
  rewrite Hlist, startAll_run. simpl.
  destruct (PromiseAll.run _ order); reflexivity.
Qed.

(** What [searchEmails] calls: the list call, then one detail request per
    listed message, in the order of the list. *)
Lemma searchEmails_events (order : list nat) (query : string)
    (maxResults : option Z) (s : State) :
  let c := credentials s in
  let n := default 10%Z maxResults in
  events (searchEmails E order query maxResults s).2 =
  events s ++
  MessagesList c query n ::
  match users_messages_list E c query n with
  | Ok res =>
      map (fun msg => MessagesGet c (Listed.id msg))
          (default [] (ListResponse.messages res))
  | _ => []
  end.
Proof.
  simpl. unfold searchEmails, bind at 1.
  unfold gmail_users_messages_list, bind, getCredentials, emit, await. simpl.
  destruct (users_messages_list E (credentials s) query (default 10%Z maxResults))
    as [res | e |]; simpl; try reflexivity.
  rewrite startAll_run. simpl. unfold await, ret.
  rewrite <- app_assoc. simpl.
  destruct (PromiseAll.run _ order); reflexivity.
Qed.

End SearchEmails.

(** C3. Let the list call answer with [res].  Whatever [searchEmails]
    returns, for every completion order [order] of the detail fetches, holds
    one shaped result per listed message, in the order of the list call: the
    k-th result is built from the k-th listed message and the answer to its
    detail fetch, and carries its id.  And [searchEmails] does return when
    every detail fetch is answered. *)
Theorem searchEmails_keeps_list_order (E : Externals) (s : State)
    (order : list nat) (query : string) (maxResults : option Z)
    (res : ListResponse.t) :
  let c := credentials s in
  let listed := default [] (ListResponse.messages res) in
  users_messages_list E c query (default 10%Z maxResults) = Ok res ->
  (Forall (fun msg => exists d, users_messages_get E c (Listed.id msg) = Ok d)
          listed ->
   exists r, (searchEmails E order query maxResults s).1 = Ok r) /\
  (forall r, (searchEmails E order query maxResults s).1 = Ok r ->
     Forall2 (fun msg m =>
                exists d, users_messages_get E c (Listed.id msg) = Ok d /\
                          m = shape E msg d)
             listed (SearchEmailsResult.messages r) /\
     map EmailMessage.id (SearchEmailsResult.messages r) = map Listed.id listed).
Proof.
  intros c listed Hlist.
  rewrite (searchEmails_outcome E order query maxResults s res Hlist).
  fold c listed. split.
  - intros Hget. destruct (shaped_all_Ok E c listed Hget) as [ms ->].
    rewrite run_fulfilled. eexists. reflexivity.
  - intros r Hr.
    destruct (PromiseAll.run _ order) as [ms | e |] eqn:Hrun; try discriminate.
    injection Hr as <-. simpl.
    apply run_Ok, shaped_Ok_inv in Hrun. split; [exact Hrun |].
    clear -Hrun. induction Hrun as [|msg m listed ms (d & _ & ->) _ IH]; simpl.
    + reflexivity.
    + rewrite IH. reflexivity.
Qed.

(** C2, as the code has it.  [sendEmail] does not look at the recipient
    list: with an empty [to] it composes the message all the same, with
    the header line [To: ] left empty, and submits it in one
    [messages.send] call; it ends as that call ends. *)
Theorem sendEmail_empty_to_is_submitted (E : Externals) (s : State)
    (params : SendEmailParams) :
  to params = [] ->
  exists raw rest,
    calls (sendEmail E params) s = [MessagesSend (credentials s) raw] /\
    (sendEmail E params s).1 = users_messages_send E (credentials s) raw /\
    Base64Url.decode raw =
      Some ("To: " +:+ CRLF +:+ "Subject: " +:+ subject params +:+ CRLF +:+ rest).
Proof.
  intros Hto. eexists.
  assert (Hrest : exists rest, sendEmail_email params =
            "To: " +:+ CRLF +:+ "Subject: " +:+ subject params +:+ CRLF +:+ rest).
  { unfold sendEmail_email. rewrite Hto.
    set (tail := "Content-Type: text/plain; charset=utf-8" +:+ CRLF +:+ CRLF
                 +:+ body params).
    set (ccLine := "Cc: " +:+ join ", " (default [] (cc params)) +:+ CRLF).
    set (bccLine := "Bcc: " +:+ join ", " (default [] (bcc params)) +:+ CRLF).
    destruct (hasLength (cc params)), (hasLength (bcc params));
      [ exists (ccLine +:+ bccLine +:+ tail) | exists (ccLine +:+ tail)
      | exists (bccLine +:+ tail) | exists tail ];
      subst tail ccLine bccLine; same_pieces. }
  destruct Hrest as [rest Hrest]. exists rest.
  split; [apply sendEmail_calls |]. split; [reflexivity |].
  rewrite Base64UrlFacts.decode_encode, Hrest. reflexivity.
Qed.

(** C2 fails as stated: a send with no recipient is not rejected; the
    message with the empty [To: ] line is submitted and the call returns
    the id the mail API answers. *)
Lemma sendEmail_empty_to_not_rejected :
  let E := Demo.externals 2000 in
  let s := Demo.client (Num 5000) in
  (sendEmail E (Demo.hello []) s).1 = Ok "18c2f0a1" /\
  calls (sendEmail E (Demo.hello [])) s =
    [MessagesSend (credentials s) "VG86IA0KU3ViamVjdDogSGkNCkNvbnRlbnQtVHlwZTogdGV4dC9wbGFpbjsgY2hhcnNldD11dGYtOA0KDQpIZWxsbw"] /\
  ~ (exists error, (sendEmail E (Demo.hello []) s).1 = Throw error /\
                   calls (sendEmail E (Demo.hello [])) s = []).
Proof.
  intros E s. split; [reflexivity |]. split; [reflexivity |].
  intros (error & H & _). discriminate H.
Qed.

(** ** The tool handlers *)

Section Handlers.

Variable E : Externals.

(** A [try]/[catch] whose handler returns does not throw. *)
Lemma try_catch_returns {A} (m : M A) (h : JsError -> M A) (s : State) :
  (forall e s', exists a, (h e s').1 = Ok a) ->
  forall error, (try_catch m h s).1 <> Throw error.
Proof.
  intros Hh error. unfold try_catch.
  destruct (m s) as [[a | e |] s'] eqn:Hm; simpl; try discriminate.
  destruct (Hh e s') as [a Ha]. rewrite Ha. discriminate.
Qed.

(** The three handlers of the entry point that wrap their call in
    [try]/[catch] answer a failed call with an error payload. *)
Lemma wrapped_handlers_do_not_throw (s : State) (error : JsError) :
  (forall params, (send_email E params s).1 <> Throw error) /\
  (forall order query maxResults,
     (search_emails E order query maxResults s).1 <> Throw error) /\
  (forall messageId, (read_email E messageId s).1 <> Throw error).
Proof.
  repeat split; intros; apply try_catch_returns; intros; eexists; reflexivity.
Qed.

Lemma send_email_error_payload (params : SendEmailParams) (s : State)
    (error : JsError) :
  users_messages_send E (credentials s)
    (Base64Url.encode (sendEmail_email params)) = Throw error ->
  (send_email E params s).1 =
  Ok {| text := "Error: " +:+ message error; isError := true |}.
Proof.
  intros H. unfold send_email, try_catch, bind. rewrite sendEmail_run, H.
  reflexivity.
Qed.

(** [manage_labels] has no [try]/[catch]: a failed modify call leaves the
    handler as a thrown error. *)
Lemma manage_labels_propagates (messageId : string)
    (addLabels removeLabels : option (list string)) (s : State)
    (error : JsError) :
  users_messages_modify E (credentials s) messageId addLabels removeLabels
    = Throw error ->
  (manage_labels E messageId addLabels removeLabels s).1 = Throw error.
Proof.
  intros H. unfold manage_labels, gmail_users_messages_modify, bind,
    getCredentials, emit, await. simpl. rewrite H. reflexivity.
Qed.

Lemma send_html_email_propagates (to : list string) (subject htmlBody : string)
    (plainText : option string) (s : State) (error : JsError) :
  users_messages_send E (credentials s)
    (Base64Url.encode (send_html_email_email E to subject htmlBody plainText))
    = Throw error ->
  (send_html_email E to subject htmlBody plainText s).1 = Throw error.
Proof.
  intros H. unfold send_html_email, bind.
  rewrite gmail_users_messages_send_run, H. reflexivity.
Qed.

End Handlers.

(** ** The tool boundary *)

Lemma tool_run (m : M ToolResult) (s : State) :
  McpServer.tool m s =
  match (m s).1 with
  | Throw e => (Ok {| text := message e; isError := true |}, (m s).2)
  | _ => m s
  end.
Proof.
  unfold McpServer.tool, try_catch. destruct (m s) as [[r | e |] s']; reflexivity.
Qed.

(** C5. No tool call throws past the tool boundary.  Every call of a
    registered tool ([send_email], [search_emails], [read_email],
    [send_html_email], [manage_labels]), for all arguments and in every
    state, is answered with a payload whenever its callback ends: with what
    the callback returned, and with an error payload (the message of the
    error, [isError] set) when the callback threw.  So a failed modify call
    behind [manage_labels], or a failed send behind [send_html_email], whose
    callbacks have no [try]/[catch], is answered with an error payload, as a
    failed send behind [send_email] is by the callback itself.  The same
    holds of any callback registered with [server.tool], which covers the
    tools whose callbacks the sources do not list. *)
Theorem tool_calls_return_payloads (E : Externals) (order : list nat)
    (s : State) :
  (forall call,
     (forall e, (callTool E order call s).1 <> Throw e) /\
     (forall r, (callback E order call s).1 = Ok r ->
        (callTool E order call s).1 = Ok r) /\
     (forall e, (callback E order call s).1 = Throw e ->
        (callTool E order call s).1 =
        Ok {| text := message e; isError := true |})) /\
  (forall messageId addLabels removeLabels e,
     users_messages_modify E (credentials s) messageId addLabels removeLabels
       = Throw e ->
     (callTool E order (Manage_labels messageId addLabels removeLabels) s).1 =
     Ok {| text := message e; isError := true |}) /\
  (forall to subject htmlBody plainText e,
     users_messages_send E (credentials s)
       (Base64Url.encode (send_html_email_email E to subject htmlBody plainText))
       = Throw e ->
     (callTool E order (Send_html_email to subject htmlBody plainText) s).1 =
     Ok {| text := message e; isError := true |}) /\
  (forall params e,
     users_messages_send E (credentials s)
       (Base64Url.encode (sendEmail_email params)) = Throw e ->
     (callTool E order (Send_email params) s).1 =
     Ok {| text := "Error: " +:+ message e; isError := true |}) /\
  (forall (registered : M ToolResult) e,
     (McpServer.tool registered s).1 <> Throw e).
Proof.
  assert (Hno : forall (m : M ToolResult) e, (McpServer.tool m s).1 <> Throw e).
  { intros m e. rewrite tool_run. destruct (m s).1 eqn:Hm; simpl;
      [rewrite Hm | | rewrite Hm]; discriminate. }
  assert (Hthrow : forall (m : M ToolResult) e, (m s).1 = Throw e ->
            (McpServer.tool m s).1 = Ok {| text := message e; isError := true |})
    by (intros m e Hm; rewrite tool_run, Hm; reflexivity).
  split; [| split; [| split; [| split]]].
  - intros call. split; [apply Hno |]. split; [| apply Hthrow].
    intros r Hr. unfold callTool. rewrite tool_run, Hr. exact Hr.
  - intros messageId addLabels removeLabels e He. apply Hthrow.
    apply manage_labels_propagates, He.
  - intros to subject htmlBody plainText e He. apply Hthrow.
    apply send_html_email_propagates, He.
  - intros params e He. unfold callTool. rewrite tool_run. cbn [callback].
    rewrite (send_email_error_payload E params s e He).
    apply send_email_error_payload, He.
  - exact Hno.
Qed.

(** The mailbox knows no message [no-such-message]: the modify call is
    rejected, the [manage_labels] callback throws, and the tool call is
    answered with an error payload. *)
Example manage_labels_error_payload :
  (manage_labels (Demo.externals 2000) "no-such-message" (Some ["STARRED"]) None
     (Demo.client (Num 5000))).1
  = Throw (mkError "Requested entity was not found.") /\
  (callTool (Demo.externals 2000) []
     (Manage_labels "no-such-message" (Some ["STARRED"]) None)
     (Demo.client (Num 5000))).1
  = Ok {| text := "Requested entity was not found."; isError := true |}.
Proof. split; reflexivity. Qed.

(** ** The theorems at concrete inputs *)

Lemma searchEmails_keeps_list_order_witness :
  exists r,
    (searchEmails (Demo.externals 2000) [2; 0; 1] "is:unread" None
       (Demo.client (Num 5000))).1 = Ok r /\
    map EmailMessage.id (SearchEmailsResult.messages r) = ["m3"; "m1"; "m2"].
Proof.
  assert (Hget : Forall (fun msg => exists d,
            users_messages_get (Demo.externals 2000)
              (credentials (Demo.client (Num 5000))) (Listed.id msg) = Ok d)
            Demo.listed)
    by (repeat constructor; eexists; reflexivity).
  destruct (searchEmails_keeps_list_order (Demo.externals 2000)
              (Demo.client (Num 5000)) [2; 0; 1] "is:unread" None
              (ListResponse.mk (Some Demo.listed) (Some 3%Z) None) eq_refl)
    as [Hreturns Horder].
  destruct (Hreturns Hget) as [r Hr].
  exists r. split; [exact Hr | exact (proj2 (Horder r Hr))].
Defined.

Lemma sendEmail_plain_message_witness :
  exists raw,
    calls (sendEmail (Demo.externals 2000) (Demo.hello ["a@x.com"; "b@y.com"]))
          (Demo.client (Num 5000))
      = [MessagesSend (credentials (Demo.client (Num 5000))) raw] /\
    Base64Url.decode raw =
      Some ("To: a@x.com, b@y.com" +:+ CRLF +:+ "Subject: Hi" +:+ CRLF +:+
            "Content-Type: text/plain; charset=utf-8" +:+ CRLF +:+ CRLF +:+
            "Hello").
Proof.
  apply (sendEmail_plain_message (Demo.externals 2000) (Demo.client (Num 5000))
           (Demo.hello ["a@x.com"; "b@y.com"]));
    [discriminate | reflexivity | reflexivity].
Defined.

Lemma refresh_entered_iff_expired_witness :
  refreshAttempts
    (calls (refreshTokenIfNeeded (Demo.externals 1000)) (Demo.client (Num 1000)))
    = 1 /\
  refreshTokenIfNeeded (Demo.externals 999) (Demo.client (Num 1000))
    = (Ok tt, Demo.client (Num 1000)).
Proof.
  split.
  - apply (proj1 (proj2 (refresh_entered_iff_expired (Demo.externals 1000)
                           (Demo.client (Num 1000)) 1000 eq_refl
                           ltac:(discriminate)))).
    reflexivity.
  - apply (proj2 (proj2 (refresh_entered_iff_expired (Demo.externals 999)
                           (Demo.client (Num 1000)) 1000 eq_refl
                           ltac:(discriminate)))).
    reflexivity.
Defined.

Lemma no_refresh_without_expiry_witness :
  refreshTokenIfNeeded (Demo.externals 2000) (Demo.client (Num 0))
    = (Ok tt, Demo.client (Num 0)) /\
  refreshTokenIfNeeded (Demo.externals 2000) (Demo.client Null)
    = (Ok tt, Demo.client Null) /\
  refreshTokenIfNeeded (Demo.externals 2000) (Demo.client Undefined)
    = (Ok tt, Demo.client Undefined).
Proof.
  split; [| split].
  - apply (proj1 (no_refresh_without_expiry (Demo.externals 2000)
                    (Demo.client (Num 0)))).
    right. right. reflexivity.
  - apply (proj1 (no_refresh_without_expiry (Demo.externals 2000)
                    (Demo.client Null))).
    right. left. reflexivity.
  - apply (proj1 (no_refresh_without_expiry (Demo.externals 2000)
                    (Demo.client Undefined))).
    left. reflexivity.
Defined.

Lemma extractHeader_first_match_witness :
  extractHeader (Demo.externals 2000) (Demo.details "m3") "SUBJECT" = "About m3" /\
  extractHeader (Demo.externals 2000) (Demo.details "m3") "date" = "" /\
  extractHeader (Demo.externals 2000) (Demo.details "m3") "Cc" = "".
Proof.
  pose proof (extractHeader_first_match (Demo.externals 2000) (Demo.details "m3"))
    as H.
  split; [| split].
  - apply (proj1 (H "SUBJECT")) with
      (p := {| headers := Some
         [ {| name := "From"; value := Some "a@x.com" |};
           {| name := "subject"; value := Some "About m3" |};
           {| name := "Subject"; value := Some "second" |};
           {| name := "Date"; value := None |} ] |})
      (pre := [ {| name := "From"; value := Some "a@x.com" |} ])
      (h := {| name := "subject"; value := Some "About m3" |})
      (post := [ {| name := "Subject"; value := Some "second" |};
                 {| name := "Date"; value := None |} ]);
      [reflexivity | reflexivity | repeat constructor; discriminate | reflexivity].
  - apply (proj1 (H "date")) with
      (p := {| headers := Some
         [ {| name := "From"; value := Some "a@x.com" |};
           {| name := "subject"; value := Some "About m3" |};
           {| name := "Subject"; value := Some "second" |};
           {| name := "Date"; value := None |} ] |})
      (pre := [ {| name := "From"; value := Some "a@x.com" |};
                {| name := "subject"; value := Some "About m3" |};
                {| name := "Subject"; value := Some "second" |} ])
      (h := {| name := "Date"; value := None |})
      (post := []);
      [reflexivity | reflexivity | repeat constructor; discriminate | reflexivity].
  - apply (proj2 (proj2 (proj2 (H "Cc")))) with
      (p := {| headers := Some
         [ {| name := "From"; value := Some "a@x.com" |};
           {| name := "subject"; value := Some "About m3" |};
           {| name := "Subject"; value := Some "second" |};
           {| name := "Date"; value := None |} ] |})
      (hs := [ {| name := "From"; value := Some "a@x.com" |};
               {| name := "subject"; value := Some "About m3" |};
               {| name := "Subject"; value := Some "second" |};
               {| name := "Date"; value := None |} ]);
      [reflexivity | reflexivity | repeat constructor; discriminate].
Defined.

Lemma send_html_email_two_parts_witness :
  exists raw,
    calls (send_html_email (Demo.externals 1730000000000) ["a@x.com"] "Hi"
             "<b>Hello</b>" (Some "Hello")) (Demo.client (Num 5000))
      = [MessagesSend (credentials (Demo.client (Num 5000))) raw] /\
    Base64Url.decode raw =
      Some ("To: a@x.com" +:+ CRLF +:+ "Subject: Hi" +:+ CRLF +:+
            "Content-Type: multipart/alternative; boundary=" +:+ dquote +:+
              "boundary_1730000000000" +:+ dquote +:+ CRLF +:+
            CRLF +:+
            "--boundary_1730000000000" +:+ CRLF +:+
            "Content-Type: text/plain; charset=utf-8" +:+ CRLF +:+
            CRLF +:+
            "Hello" +:+ CRLF +:+
            CRLF +:+
            "--boundary_1730000000000" +:+ CRLF +:+
            "Content-Type: text/html; charset=utf-8" +:+ CRLF +:+
            CRLF +:+
            "<b>Hello</b>" +:+ CRLF +:+
            CRLF +:+
            "--boundary_1730000000000--").
Proof.
  destruct (send_html_email_two_parts (Demo.externals 1730000000000)
              (Demo.client (Num 5000)) ["a@x.com"] "Hi" "<b>Hello</b>"
              (Some "Hello")) as (raw & Hcalls & Hraw & _).
  exists raw. split; [exact Hcalls | exact Hraw].
Defined.

Lemma sendEmail_empty_to_is_submitted_witness :
  exists raw rest,
    calls (sendEmail (Demo.externals 2000) (Demo.hello []))
          (Demo.client (Num 5000))
      = [MessagesSend (credentials (Demo.client (Num 5000))) raw] /\
    (sendEmail (Demo.externals 2000) (Demo.hello []) (Demo.client (Num 5000))).1
      = Ok "18c2f0a1" /\
    Base64Url.decode raw =
      Some ("To: " +:+ CRLF +:+ "Subject: Hi" +:+ CRLF +:+ rest).
Proof.
  apply (sendEmail_empty_to_is_submitted (Demo.externals 2000)
           (Demo.client (Num 5000)) (Demo.hello []) eq_refl).
Defined.

(** ** Examples *)

Example encode_Hi : Base64Url.encode "Hi" = "SGk".
Proof. reflexivity. Qed.

Example encode_url_safe :
  Base64Url.encode (String "251" (String "255" (String "190" ""))) = "-_--".
Proof. reflexivity. Qed.

Example decode_Hello : Base64Url.decode "SGVsbG8" = Some "Hello".
Proof. reflexivity. Qed.

Example join_two : join ", " ["a@x.com"; "b@y.com"] = "a@x.com, b@y.com".
Proof. reflexivity. Qed.

Example join_none : join ", " [] = "".
Proof. reflexivity. Qed.

(** Promise 2 settles first, then 0, then 1: the values keep their index. *)
Example promise_all_order :
  PromiseAll.run [Ok "a"; Ok "b"; Ok "c"] [2; 0; 1] = Ok ["a"; "b"; "c"].
Proof. reflexivity. Qed.

(** The rejection that comes first in completion order wins. *)
Example promise_all_first_rejection :
  PromiseAll.run [Throw (mkError "x"); Ok "b"; Throw (mkError "z")] [2; 0; 1]
  = Throw (mkError "z").
Proof. reflexivity. Qed.

Example read_email_reports_failure :
  let E := Demo.externals 2000 in
  (read_email
     {| Date_now := 2000; toLowerCase := toLowerCase E;
        stringify_result := stringify_result E;
        stringify_message := stringify_message E;
        token_endpoint := token_endpoint E;
        users_messages_send := users_messages_send E;
        users_messages_list := users_messages_list E;
        users_messages_get := fun _ _ => Throw (mkError "Not Found");
        users_messages_modify := users_messages_modify E |}
     "m9" (Demo.client (Num 5000))).1
  = Ok {| text := "Error: Not Found"; isError := true |}.
Proof. reflexivity. Qed.

(** A refresh that succeeds replaces the stored credentials. *)
Example refresh_replaces_credentials :
  credentials (refreshTokenIfNeeded (Demo.renewing 2000) (Demo.client (Num 2000))).2
  = {| access_token := Some "ya29.new";
       refresh_token := Some "1//0g";
       expiry_date := Num 3602000 |}.
Proof. reflexivity. Qed.

Example manage_labels_calls_modify :
  calls (manage_labels (Demo.externals 2000) "no-such-message"
           (Some ["STARRED"]) None) (Demo.client (Num 5000))
  = [ MessagesModify (credentials (Demo.client (Num 5000))) "no-such-message"
        (Some ["STARRED"]) None ].
Proof. reflexivity. Qed.

(** * Further properties of the code *)

(** ** retryWithBackoff *)

Section RetryFacts.

Import Retry.
Context {T : Type}.
Variable fn : nat -> Outcome T.
Variable maxRetries : Z.

Lemma attempts_failedRounds (i n : nat) (rest : list Step) :
  attempts (failedRounds i n ++ rest) = n + attempts rest.
Proof.
  revert i. induction n as [|n IH]; intros i; simpl; [reflexivity |].
  rewrite IH. reflexivity.
Qed.

Lemma waited_failedRounds (i n : nat) (rest : list Step) :
  waited (failedRounds i n ++ rest) =
  (1000 * (2 ^ Z.of_nat (i + n) - 2 ^ Z.of_nat i) + waited rest)%Z.
Proof.
  revert i. induction n as [|n IH]; intros i; simpl.
  - rewrite Nat.add_0_r. lia.
  - rewrite IH. replace (i + S n) with (S i + n) by lia.
    rewrite (Nat2Z.inj_succ i), Z.pow_succ_r by lia. lia.
Qed.

(** The rounds before the first success. *)
Lemma loop_first_success (k : nat) (v : T) :
  (Z.of_nat k <= maxRetries)%Z ->
  fn k = Ok v ->
  forall n i fuel,
  i + n = k -> n < fuel ->
  (forall j, i <= j < k -> exists e, fn j = Throw e) ->
  loop fn maxRetries fuel i = (Ok v, failedRounds i n ++ [Call k]).
Proof.
  intros Hk Hv. induction n as [|n IH]; intros i fuel Hi Hfuel Hfail;
    destruct fuel as [|fuel]; try lia; simpl.
  - assert (i = k) as -> by lia.
    destruct (Z.leb_spec (Z.of_nat k) maxRetries); [| lia]. rewrite Hv. reflexivity.
  - destruct (Z.leb_spec (Z.of_nat i) maxRetries); [| lia].
    destruct (Hfail i ltac:(lia)) as [e ->].
    destruct (Z.eqb_spec (Z.of_nat i) maxRetries); [lia |].
    rewrite (IH (S i) fuel); [reflexivity | lia | lia |].
    intros j Hj. apply Hfail. lia.
Qed.

(** The rounds when every allowed call fails. *)
Lemma loop_exhausted (m : nat) (error : JsError) :
  maxRetries = Z.of_nat m ->
  fn m = Throw error ->
  forall n i fuel,
  i + n = m -> n < fuel ->
  (forall j, i <= j < m -> exists e, fn j = Throw e) ->
  loop fn maxRetries fuel i = (Throw error, failedRounds i n ++ [Call m]).
Proof.
  intros Hm Herr. induction n as [|n IH]; intros i fuel Hi Hfuel Hfail;
    destruct fuel as [|fuel]; try lia; simpl.
  - assert (i = m) as -> by lia.
    destruct (Z.leb_spec (Z.of_nat m) maxRetries); [| lia]. rewrite Herr.
    destruct (Z.eqb_spec (Z.of_nat m) maxRetries); [reflexivity | lia].
  - destruct (Z.leb_spec (Z.of_nat i) maxRetries); [| lia].
    destruct (Hfail i ltac:(lia)) as [e ->].
    destruct (Z.eqb_spec (Z.of_nat i) maxRetries); [lia |].
    rewrite (IH (S i) fuel); [reflexivity | lia | lia |].
    intros j Hj. apply Hfail. lia.
Qed.

End RetryFacts.

(** X1. When the first [k] calls of [fn] fail and call [k] succeeds, with
    [k <= maxRetries], [retryWithBackoff] returns the value of call [k]
    after [k + 1] calls; before each retry it waits twice as long as
    before, from one second on, [2 ^ k - 1] seconds in all. *)
Theorem retry_returns_first_success {T} (fn : nat -> Outcome T)
    (maxRetries : option Z) (k : nat) (v : T) :
  (Z.of_nat k <= default 3 maxRetries)%Z ->
  (forall j, j < k -> exists e, fn j = Throw e) ->
  fn k = Ok v ->
  Retry.retryWithBackoff fn maxRetries
    = (Ok v, Retry.failedRounds 0 k ++ [Retry.Call k]) /\
  Retry.attempts (Retry.retryWithBackoff fn maxRetries).2 = S k /\
  Retry.waited (Retry.retryWithBackoff fn maxRetries).2
    = (1000 * (2 ^ Z.of_nat k - 1))%Z.
Proof.
  intros Hk Hfail Hv.
  assert (Hrun : Retry.retryWithBackoff fn maxRetries
                 = (Ok v, Retry.failedRounds 0 k ++ [Retry.Call k])).
  { unfold Retry.retryWithBackoff.
    apply (loop_first_success fn _ k v Hk Hv k 0); [lia | lia |].
    intros j Hj. apply Hfail. lia. }
  rewrite Hrun. simpl. split; [reflexivity |].
  rewrite attempts_failedRounds, waited_failedRounds. simpl. split; lia.
Qed.

(** X2. When [maxRetries] is [m >= 0] and all of the calls [0 .. m] fail,
    [retryWithBackoff] gives up after [m + 1] calls with the error of the
    last call (the earlier errors are dropped); it has waited [2 ^ m - 1]
    seconds in all and does not wait after the last failure. *)
Theorem retry_gives_up_with_last_error {T} (fn : nat -> Outcome T)
    (maxRetries : option Z) (m : nat) (error : JsError) :
  default 3%Z maxRetries = Z.of_nat m ->
  (forall j, j < m -> exists e, fn j = Throw e) ->
  fn m = Throw error ->
  Retry.retryWithBackoff fn maxRetries
    = (Throw error, Retry.failedRounds 0 m ++ [Retry.Call m]) /\
  Retry.attempts (Retry.retryWithBackoff fn maxRetries).2 = S m /\
  Retry.waited (Retry.retryWithBackoff fn maxRetries).2
    = (1000 * (2 ^ Z.of_nat m - 1))%Z.
Proof.
  intros Hm Hfail Herr.
  assert (Hrun : Retry.retryWithBackoff fn maxRetries
                 = (Throw error, Retry.failedRounds 0 m ++ [Retry.Call m])).
  { unfold Retry.retryWithBackoff.
    apply (loop_exhausted fn _ m error Hm Herr m 0); [lia | lia |].
    intros j Hj. apply Hfail. lia. }
  rewrite Hrun. simpl. split; [reflexivity |].
  rewrite attempts_failedRounds, waited_failedRounds. simpl. split; lia.
Qed.

Lemma retry_returns_first_success_witness :
  Retry.retryWithBackoff (Retry.flaky 2) None
  = (Ok "done",
     [ Retry.Call 0; Retry.Sleep 1000; Retry.Call 1; Retry.Sleep 2000;
       Retry.Call 2 ]).
Proof.
  apply (retry_returns_first_success (Retry.flaky 2) None 2 "done").
  - simpl. lia.
  - intros [|[|j]] Hj; [eexists; reflexivity | eexists; reflexivity | lia].
  - reflexivity.
Defined.

Lemma retry_gives_up_with_last_error_witness :
  Retry.retryWithBackoff (Retry.flaky 9) (Some 2%Z)
  = (Throw (mkError "429 #2"),
     [ Retry.Call 0; Retry.Sleep 1000; Retry.Call 1; Retry.Sleep 2000;
       Retry.Call 2 ]).
Proof.
  apply (retry_gives_up_with_last_error (Retry.flaky 9) (Some 2%Z) 2
           (mkError "429 #2")).
  - reflexivity.
  - intros [|[|j]] Hj; [eexists; reflexivity | eexists; reflexivity | lia].
  - reflexivity.
Defined.

(** ** retryWithBackoff, for every number *)

Section RetryNumberFacts.

Import RetryNumber.
Context {T : Type}.
Variable fn : nat -> Outcome T.

Lemma counter_le_floor (i : nat) (q : Q) :
  JsNumber.counter_le i (JsNumber.Finite q) = (Z.of_nat i <=? Qfloor q)%Z.
Proof.
  simpl. apply eq_true_iff_eq. rewrite Qle_bool_iff, Z.leb_le. split.
  - intros H. apply Z.lt_succ_r. rewrite Zlt_Qlt.
    eapply Qle_lt_trans; [exact H |]. apply Qlt_floor.
  - intros H. eapply Qle_trans; [| apply Qfloor_le]. rewrite <- Zle_Qle. exact H.
Qed.

Lemma counter_eq_floor (i : nat) (q : Q) :
  JsNumber.counter_eq i (JsNumber.Finite q) =
  JsNumber.isInteger q && (Z.of_nat i =? Qfloor q)%Z.
Proof.
  simpl. unfold JsNumber.isInteger. apply eq_true_iff_eq.
  rewrite andb_true_iff, !Qeq_bool_iff, Z.eqb_eq. split.
  - intros H.
    assert (Hf : Qfloor q = Z.of_nat i)
      by (rewrite <- H; apply Qfloor_Z).
    rewrite Hf. split; [exact H | reflexivity].
  - intros [H1 H2]. rewrite H2. exact H1.
Qed.

Lemma attempts_failed (i n : nat) (rest : list Step) :
  attempts (failedRounds i n ++ rest) = n + attempts rest.
Proof.
  revert i. induction n as [|n IH]; intros i; simpl; [reflexivity |].
  rewrite IH. reflexivity.
Qed.

Lemma waits_failed (i n : nat) (rest : list Step) :
  waits (failedRounds i n ++ rest) = n + waits rest.
Proof.
  revert i. induction n as [|n IH]; intros i; simpl; [reflexivity |].
  rewrite IH. reflexivity.
Qed.

(** How the loop ends, from round [i], for a finite [maxRetries] whose
    integer part is [N]. *)
Lemma loop_finite (q : Q) :
  let N := Qfloor q in
  forall fuel i,
  (Z.of_nat i <= N + 1)%Z ->
  Z.to_nat (N + 1) - i < fuel ->
  let (o, steps) := loop fn (JsNumber.Finite q) fuel i in
  (forall v, o = Ok v ->
     exists k, i <= k /\ (Z.of_nat k <= N)%Z /\ fn k = Ok v /\
               (forall j, i <= j < k -> exists e, fn j = Throw e) /\
               steps = failedRounds i (k - i) ++ [Call k]) /\
  (o = Hang ->
     exists k, i <= k /\ (Z.of_nat k <= N)%Z /\ fn k = Hang /\
               steps = failedRounds i (k - i) ++ [Call k]) /\
  (forall e, o = Throw e ->
     (forall j, i <= j -> (Z.of_nat j <= N)%Z -> exists e', fn j = Throw e') /\
     (JsNumber.isInteger q = true -> (Z.of_nat i <= N)%Z ->
      fn (Z.to_nat N) = Throw e /\
      steps = failedRounds i (Z.to_nat N - i) ++ [Call (Z.to_nat N)]) /\
     (JsNumber.isInteger q = false \/ (N < Z.of_nat i)%Z ->
      e = mkError "Max retries exceeded" /\
      steps = failedRounds i (Z.to_nat (N + 1) - i))).
Proof.
  intros N. induction fuel as [|fuel IH]; intros i Hi Hfuel; [lia |].
  cbn [loop]. rewrite counter_le_floor, counter_eq_floor. fold N.
  destruct (Z.leb_spec (Z.of_nat i) N) as [Hle | Hgt].
  - destruct (fn i) as [v | e |] eqn:Hfn.
    + split; [| split]; [| discriminate | discriminate].
      intros v' [= <-]. exists i. rewrite Nat.sub_diag.
      repeat split; [lia | lia | exact Hfn | intros j Hj; lia].
    + destruct (JsNumber.isInteger q) eqn:Hint; cbn [andb].
      * destruct (Z.eqb_spec (Z.of_nat i) N) as [Heq | Hne].
        -- split; [| split]; [discriminate | discriminate |].
           intros e' [= <-].
           assert (Hi' : Z.to_nat N = i) by lia.
           split; [| split].
           ++ intros j Hj1 Hj2. assert (j = i) as -> by lia. eauto.
           ++ intros _ _. rewrite Hi', Nat.sub_diag. split; [exact Hfn | reflexivity].
           ++ intros [H | H]; [discriminate | lia].
        -- specialize (IH (S i) ltac:(lia) ltac:(lia)).
           destruct (loop fn (JsNumber.Finite q) fuel (S i)) as [o steps].
           destruct IH as (Hok & Hhang & Hthrow).
           split; [| split].
           ++ intros v Hv. destruct (Hok v Hv) as (k & Hk1 & Hk2 & Hk3 & Hk4 & ->).
              exists k. repeat split; [lia | lia | exact Hk3 | |].
              ** intros j Hj. destruct (Nat.eq_dec j i) as [-> | Hji]; [eauto |].
                 apply Hk4. lia.
              ** replace (k - i) with (S (k - S i)) by lia. reflexivity.
           ++ intros Ho. destruct (Hhang Ho) as (k & Hk1 & Hk2 & Hk3 & ->).
              exists k. repeat split; [lia | lia | exact Hk3 |].
              replace (k - i) with (S (k - S i)) by lia. reflexivity.
           ++ intros e' He'. destruct (Hthrow e' He') as (Hall & Hlast & Hmax).
              split; [| split].
              ** intros j Hj1 Hj2.
                 destruct (Nat.eq_dec j i) as [-> | Hji]; [eauto |].
                 apply Hall; lia.
              ** intros _ _. destruct (Hlast eq_refl ltac:(lia)) as [H1 ->].
                 split; [exact H1 |].
                 replace (Z.to_nat N - i) with (S (Z.to_nat N - S i)) by lia.
                 reflexivity.
              ** intros [H | H]; [discriminate | lia].
      * specialize (IH (S i) ltac:(lia) ltac:(lia)).
        destruct (loop fn (JsNumber.Finite q) fuel (S i)) as [o steps].
        destruct IH as (Hok & Hhang & Hthrow).
        split; [| split].
        -- intros v Hv. destruct (Hok v Hv) as (k & Hk1 & Hk2 & Hk3 & Hk4 & ->).
           exists k. repeat split; [lia | lia | exact Hk3 | |].
           ++ intros j Hj. destruct (Nat.eq_dec j i) as [-> | Hji]; [eauto |].
              apply Hk4. lia.
           ++ replace (k - i) with (S (k - S i)) by lia. reflexivity.
        -- intros Ho. destruct (Hhang Ho) as (k & Hk1 & Hk2 & Hk3 & ->).
           exists k. repeat split; [lia | lia | exact Hk3 |].
           replace (k - i) with (S (k - S i)) by lia. reflexivity.
        -- intros e' He'. destruct (Hthrow e' He') as (Hall & Hlast & Hmax).
           split; [| split].
           ++ intros j Hj1 Hj2.
              destruct (Nat.eq_dec j i) as [-> | Hji]; [eauto |].
              apply Hall; lia.
           ++ discriminate.
           ++ intros _. destruct (Hmax (or_introl eq_refl)) as [-> ->].
              split; [reflexivity |].
              replace (Z.to_nat (N + 1) - i) with (S (Z.to_nat (N + 1) - S i))
                by lia.
              reflexivity.
    + split; [| split]; [discriminate | | discriminate].
      intros _. exists i. rewrite Nat.sub_diag.
      repeat split; [lia | lia | exact Hfn].
  - split; [| split]; [discriminate | discriminate |].
    intros e [= <-]. split; [| split].
    + intros j Hj1 Hj2. lia.
    + intros _ H. lia.
    + intros _. replace (Z.to_nat (N + 1) - i) with 0 by lia.
      split; reflexivity.
Qed.

(** For an integer [maxRetries] the loop is the one of [Retry]. *)
Lemma loop_integer (z : Z) (fuel i : nat) :
  Retry.loop fn z fuel i =
  let r := loop fn (JsNumber.ofZ z) fuel i in (r.1, map toRetry r.2).
Proof.
  revert i. induction fuel as [|fuel IH]; intros i; [reflexivity |].
  unfold JsNumber.ofZ in *. cbn [loop Retry.loop].
  rewrite counter_le_floor, counter_eq_floor, Qfloor_Z.
  assert (Hint : JsNumber.isInteger (inject_Z z) = true).
  { unfold JsNumber.isInteger. rewrite Qfloor_Z. apply Qeq_bool_iff. reflexivity. }
  rewrite Hint. cbn [andb].
  destruct (Z.of_nat i <=? z)%Z; [| reflexivity].
  destruct (fn i) as [v | e |]; try reflexivity.
  destruct (Z.of_nat i =? z)%Z; [reflexivity |].
  rewrite IH. cbn zeta.
  destruct (loop fn (JsNumber.Finite (inject_Z z)) fuel (S i)) as [o steps].
  reflexivity.
Qed.

End RetryNumberFacts.

(** [Retry] is the helper at an integer [maxRetries]. *)
Lemma retryWithBackoff_integer {T} (fn : nat -> Outcome T)
    (maxRetries : option Z) :
  Retry.retryWithBackoff fn maxRetries =
  let r := RetryNumber.retryWithBackoff
             (S (Z.to_nat (default 3%Z maxRetries + 1))) fn
             (JsNumber.ofZ <$> maxRetries) in
  (r.1, map RetryNumber.toRetry r.2).
Proof.
  unfold Retry.retryWithBackoff, RetryNumber.retryWithBackoff.
  rewrite loop_integer. destruct maxRetries; reflexivity.
Qed.

Lemma Qfloor_negative (q : Q) : (q < 0)%Q -> (Qfloor q < 0)%Z.
Proof.
  intros H. rewrite Zlt_Qlt. eapply Qle_lt_trans; [apply Qfloor_le | exact H].
Qed.

Lemma Qfloor_nonnegative (q : Q) : (0 <= q)%Q -> (0 <= Qfloor q)%Z.
Proof.
  intros H. change 0%Z with (Qfloor (inject_Z 0)). apply Qfloor_resp_le, H.
Qed.

(** The loop is not entered when the condition fails at once. *)
Lemma retry_not_entered {T} (fn : nat -> Outcome T) (m : JsNumber.t)
    (fuel : nat) :
  0 < fuel ->
  JsNumber.counter_le 0 m = false ->
  RetryNumber.loop fn m fuel 0 = (Throw (mkError "Max retries exceeded"), []).
Proof.
  intros Hfuel Hle. destruct fuel as [|fuel]; [lia |]. simpl. rewrite Hle.
  reflexivity.
Qed.

(** X3. For a finite [maxRetries] (3 when it is left out)
    [retryWithBackoff] ends within [floor maxRetries + 1] rounds: it calls
    [fn] at most that many times, waits at most that many times, and not at
    all for a negative [maxRetries].  A value it returns is the value of the
    first call of [fn] that succeeded, all the calls before it having
    failed, and it stays pending only if a call of [fn] does. *)
Theorem retry_is_bounded {T} (fn : nat -> Outcome T)
    (maxRetries : option JsNumber.t) (q : Q) (fuel : nat) :
  default (JsNumber.ofZ 3) maxRetries = JsNumber.Finite q ->
  (q < inject_Z (2 ^ 53))%Q ->
  RetryNumber.rounds q < fuel ->
  let r := RetryNumber.retryWithBackoff fuel fn maxRetries in
  RetryNumber.attempts r.2 <= RetryNumber.rounds q /\
  RetryNumber.waits r.2 <= RetryNumber.rounds q /\
  (forall v, r.1 = Ok v ->
     exists k, k < RetryNumber.rounds q /\ fn k = Ok v /\
               (forall j, j < k -> exists e, fn j = Throw e) /\
               r.2 = RetryNumber.failedRounds 0 k ++ [RetryNumber.Call k]) /\
  (r.1 = Hang -> exists k, k < RetryNumber.rounds q /\ fn k = Hang) /\
  ((q < 0)%Q -> r = (Throw (mkError "Max retries exceeded"), [])).
Proof.
  intros Hm _ Hfuel r. subst r. unfold RetryNumber.retryWithBackoff.
  rewrite Hm. unfold RetryNumber.rounds in *.
  destruct (Z.ltb_spec (Qfloor q) 0) as [Hneg | Hpos].
  - rewrite retry_not_entered;
      [| lia | rewrite counter_le_floor; apply Z.leb_gt; exact Hneg].
    simpl. repeat split; try lia; discriminate.
  - pose proof (loop_finite fn q fuel 0 ltac:(lia) ltac:(lia)) as H.
    destruct (RetryNumber.loop fn (JsNumber.Finite q) fuel 0) as [o steps].
    destruct H as (Hok & Hhang & Hthrow). cbn [fst snd].
    assert (Hcount : RetryNumber.attempts steps <= Z.to_nat (Qfloor q + 1) /\
                     RetryNumber.waits steps <= Z.to_nat (Qfloor q + 1)).
    { destruct o as [v | e |].
      - destruct (Hok v eq_refl) as (k & _ & Hk & _ & _ & ->).
        rewrite attempts_failed, waits_failed. simpl. lia.
      - destruct (Hthrow e eq_refl) as (_ & Hlast & Hmax).
        destruct (JsNumber.isInteger q).
        + destruct (Hlast eq_refl Hpos) as [_ ->].
          rewrite attempts_failed, waits_failed. simpl. lia.
        + destruct (Hmax (or_introl eq_refl)) as [_ ->].
          rewrite <- (app_nil_r (RetryNumber.failedRounds _ _)).
          rewrite attempts_failed, waits_failed. simpl. lia.
      - destruct (Hhang eq_refl) as (k & _ & Hk & _ & ->).
        rewrite attempts_failed, waits_failed. simpl. lia. }
    split; [apply Hcount |]. split; [apply Hcount |]. split; [| split].
    + intros v Hv. destruct (Hok v Hv) as (k & _ & Hk & Hfn & Hfail & Hsteps).
      exists k. rewrite Nat.sub_0_r in Hsteps.
      repeat split; [lia | exact Hfn | | exact Hsteps].
      intros j Hj. apply Hfail. lia.
    + intros Ho. destruct (Hhang Ho) as (k & _ & Hk & Hfn & _).
      exists k. split; [lia | exact Hfn].
    + intros Hq. pose proof (Qfloor_negative q Hq). lia.
Qed.

(** X4. What [retryWithBackoff] throws.  When [maxRetries] is [NaN],
    [-Infinity] or negative, it throws [Max retries exceeded] without
    calling [fn].  When [maxRetries] is an integer that is not negative,
    whatever it throws is the error of call number [maxRetries] of [fn],
    thrown right after that call.  When [maxRetries] is not negative and not
    an integer, the test [i === maxRetries] never holds: if the calls
    [0 .. floor maxRetries] all fail, it waits after the last of them too
    and throws [Max retries exceeded], and the errors of the calls are
    lost. *)
Theorem retry_max_retries_exceeded {T} (fn : nat -> Outcome T)
    (maxRetries : option JsNumber.t) (fuel : nat) :
  0 < fuel ->
  let m := default (JsNumber.ofZ 3) maxRetries in
  let r := RetryNumber.retryWithBackoff fuel fn maxRetries in
  (m = JsNumber.NaN \/ m = JsNumber.NegInfinity \/
   (exists q, m = JsNumber.Finite q /\ (q < 0)%Q) ->
   r = (Throw (mkError "Max retries exceeded"), [])) /\
  (forall q,
     m = JsNumber.Finite q -> (0 <= q)%Q -> (q < inject_Z (2 ^ 53))%Q ->
     RetryNumber.rounds q < fuel ->
     (JsNumber.isInteger q = true ->
      forall e, r.1 = Throw e ->
        fn (Z.to_nat (Qfloor q)) = Throw e /\
        r.2 = RetryNumber.failedRounds 0 (Z.to_nat (Qfloor q)) ++
              [RetryNumber.Call (Z.to_nat (Qfloor q))]) /\
     (JsNumber.isInteger q = false ->
      (forall j, j < RetryNumber.rounds q -> exists e, fn j = Throw e) ->
      r = (Throw (mkError "Max retries exceeded"),
           RetryNumber.failedRounds 0 (RetryNumber.rounds q)) /\
      RetryNumber.attempts r.2 = RetryNumber.rounds q /\
      RetryNumber.waits r.2 = RetryNumber.rounds q)).
Proof.
  intros Hfuel m r. subst r. unfold RetryNumber.retryWithBackoff. fold m.
  split.
  - intros Hm. apply retry_not_entered; [exact Hfuel |].
    destruct Hm as [-> | [-> | (q & -> & Hq)]]; try reflexivity.
    rewrite counter_le_floor. apply Z.leb_gt, Qfloor_negative, Hq.
  - intros q -> Hq _ Hrounds. unfold RetryNumber.rounds in *.
    pose proof (Qfloor_nonnegative q Hq) as Hpos.
    pose proof (loop_finite fn q fuel 0 ltac:(lia) ltac:(lia)) as H.
    destruct (RetryNumber.loop fn (JsNumber.Finite q) fuel 0) as [o steps].
    destruct H as (Hok & Hhang & Hthrow). cbn [fst snd]. split.
    + intros Hint e ->. destruct (Hthrow e eq_refl) as (_ & Hlast & _).
      destruct (Hlast Hint Hpos) as [Hfn ->]. rewrite Nat.sub_0_r.
      split; [exact Hfn | reflexivity].
    + intros Hint Hfail.
      assert (Ho : exists e, o = Throw e).
      { destruct o as [v | e |]; [| eauto |].
        - destruct (Hok v eq_refl) as (k & _ & Hk & Hfn & _).
          destruct (Hfail k ltac:(lia)) as [e He]. congruence.
        - destruct (Hhang eq_refl) as (k & _ & Hk & Hfn & _).
          destruct (Hfail k ltac:(lia)) as [e He]. congruence. }
      destruct Ho as [e ->].
      destruct (Hthrow e eq_refl) as (_ & _ & Hmax).
      destruct (Hmax (or_introl Hint)) as [-> ->]. rewrite Nat.sub_0_r.
      split; [reflexivity |].
      rewrite <- (app_nil_r (RetryNumber.failedRounds _ _)).
      rewrite attempts_failed, waits_failed. simpl. lia.
Qed.

Lemma retry_is_bounded_witness :
  RetryNumber.attempts
    (RetryNumber.retryWithBackoff 5 (Retry.flaky 9) None).2 <= 4 /\
  RetryNumber.waits
    (RetryNumber.retryWithBackoff 5 (Retry.flaky 9) None).2 <= 4.
Proof.
  assert (Hq : (inject_Z 3 < inject_Z (2 ^ 53))%Q) by reflexivity.
  assert (Hfuel : RetryNumber.rounds (inject_Z 3) < 5)
    by (vm_compute; lia).
  destruct (retry_is_bounded (Retry.flaky 9) None (inject_Z 3) 5 eq_refl Hq Hfuel)
    as (Ha & Hw & _).
  split; [exact Ha | exact Hw].
Defined.

Lemma retry_max_retries_exceeded_witness :
  RetryNumber.retryWithBackoff 5 (Retry.flaky 9)
    (Some (JsNumber.Finite (3 # 2)))
  = (Throw (mkError "Max retries exceeded"),
     [ RetryNumber.Call 0; RetryNumber.Wait 0;
       RetryNumber.Call 1; RetryNumber.Wait 1 ]).
Proof.
  assert (Hfuel : 0 < 5) by lia.
  assert (Hq0 : (0 <= 3 # 2)%Q) by discriminate.
  assert (Hq : (3 # 2 < inject_Z (2 ^ 53))%Q) by reflexivity.
  assert (Hrounds : RetryNumber.rounds (3 # 2) < 5)
    by (vm_compute; lia).
  destruct (retry_max_retries_exceeded (Retry.flaky 9)
              (Some (JsNumber.Finite (3 # 2))) 5 Hfuel) as [_ H].
  destruct (H (3 # 2) eq_refl Hq0 Hq Hrounds) as [_ Hfrac].
  destruct (Hfrac eq_refl) as [Hr _].
  - intros [|[|j]] Hj; [eexists; reflexivity | eexists; reflexivity |].
    vm_compute in Hj. lia.
  - exact Hr.
Defined.

(** ** What sendEmail submits *)

Lemma urlSafeChar_char (i : N) : urlSafeChar (Base64Url.char i) = true.
Proof.
  destruct (N.ltb_spec i 64) as [Hi | Hi].
  - destruct i as [|p]; [reflexivity |].
    do 6 (destruct p as [p|p|]; try reflexivity); exfalso; lia.
  - unfold Base64Url.char.
    destruct (N.ltb_spec i 26); [lia |]. destruct (N.ltb_spec i 52); [lia |].
    destruct (N.ltb_spec i 62); [lia |]. destruct (N.eqb_spec i 62); [lia |].
    reflexivity.
Qed.

Lemma urlSafe_chars (sextets : list N) (rest : string) :
  urlSafe rest = true -> urlSafe (Base64Url.chars sextets rest) = true.
Proof.
  intros Hrest. induction sextets as [|i sextets IH]; simpl; [exact Hrest |].
  rewrite urlSafeChar_char, IH. reflexivity.
Qed.

Lemma urlSafe_encode (s : string) : urlSafe (Base64Url.encode s) = true.
Proof.
  induction s as [|a|a b|a b c r IH] using Base64UrlFacts.string3_ind;
    cbn [Base64Url.encode]; try reflexivity; apply urlSafe_chars;
    try reflexivity; exact IH.
Qed.

Lemma length_chars (sextets : list N) (rest : string) :
  String.length (Base64Url.chars sextets rest)
  = length sextets + String.length rest.
Proof.
  induction sextets as [|i sextets IH]; simpl; [reflexivity |].
  rewrite IH. reflexivity.
Qed.

(** No padding: [n] bytes give [ceil (4 n / 3)] characters. *)
Lemma length_encode (s : string) :
  String.length (Base64Url.encode s) = (4 * String.length s + 2) / 3.
Proof.
  induction s as [|a|a b|a b c r IH] using Base64UrlFacts.string3_ind;
    cbn [Base64Url.encode]; try reflexivity.
  rewrite length_chars, IH. cbn [String.length Base64Url.group3 length].
  replace (4 * S (S (S (String.length r))) + 2)
    with (4 * 3 + (4 * String.length r + 2)) by lia.
  rewrite (Nat.div_add_l 4 3) by lia. reflexivity.
Qed.

Lemma sendEmail_email_lines (params : SendEmailParams) :
  sendEmail_email params =
  join CRLF ([ "To: " +:+ join ", " (to params);
               "Subject: " +:+ subject params ]
             ++ optionalHeader "Cc: " (cc params)
             ++ optionalHeader "Bcc: " (bcc params)
             ++ [ "Content-Type: text/plain; charset=utf-8" ])
  +:+ CRLF +:+ CRLF +:+ body params.
Proof.
  unfold sendEmail_email, optionalHeader.
  destruct (cc params) as [[|c1 cs]|], (bcc params) as [[|b1 bs]|];
    cbn [hasLength from_option id]; same_pieces.
Qed.

(** X5. Whatever the parameters, [sendEmail] submits one message whose
    header lines are, in this order, [To], [Subject], [Cc] if the [cc] list
    is present and not empty, [Bcc] if the [bcc] list is present and not
    empty, and the content type, followed by an empty line and the body.
    An empty [cc] or [bcc] array gives the same message as an absent one. *)
Theorem sendEmail_header_lines (E : Externals) (s : State)
    (params : SendEmailParams) :
  (exists raw,
     calls (sendEmail E params) s = [MessagesSend (credentials s) raw] /\
     Base64Url.decode raw =
       Some (join CRLF ([ "To: " +:+ join ", " (to params);
                          "Subject: " +:+ subject params ]
                        ++ optionalHeader "Cc: " (cc params)
                        ++ optionalHeader "Bcc: " (bcc params)
                        ++ [ "Content-Type: text/plain; charset=utf-8" ])
             +:+ CRLF +:+ CRLF +:+ body params)) /\
  sendEmail_email
    {| to := to params; subject := subject params; body := body params;
       cc := Some []; bcc := bcc params |}
  = sendEmail_email
      {| to := to params; subject := subject params; body := body params;
         cc := None; bcc := bcc params |} /\
  sendEmail_email
    {| to := to params; subject := subject params; body := body params;
       cc := cc params; bcc := Some [] |}
  = sendEmail_email
      {| to := to params; subject := subject params; body := body params;
         cc := cc params; bcc := None |}.
Proof.
  split; [| split; reflexivity].
  eexists. split; [apply sendEmail_calls |].
  rewrite Base64UrlFacts.decode_encode, sendEmail_email_lines. reflexivity.
Qed.

Lemma sendEmail_header_lines_witness :
  exists raw,
    calls (sendEmail (Demo.externals 2000)
             {| to := ["a@x.com"]; subject := "Hi"; body := "Hello";
                cc := Some ["c@z.com"; "d@z.com"]; bcc := Some [] |})
          (Demo.client (Num 5000))
      = [MessagesSend (credentials (Demo.client (Num 5000))) raw] /\
    Base64Url.decode raw =
      Some ("To: a@x.com" +:+ CRLF +:+ "Subject: Hi" +:+ CRLF +:+
            "Cc: c@z.com, d@z.com" +:+ CRLF +:+
            "Content-Type: text/plain; charset=utf-8" +:+ CRLF +:+ CRLF +:+
            "Hello").
Proof.
  destruct (sendEmail_header_lines (Demo.externals 2000)
              (Demo.client (Num 5000))
              {| to := ["a@x.com"]; subject := "Hi"; body := "Hello";
                 cc := Some ["c@z.com"; "d@z.com"]; bcc := Some [] |})
    as [(raw & Hcalls & Hraw) _].
  exists raw. split; [exact Hcalls | exact Hraw].
Defined.

(** X6. What [sendEmail] and the [send_html_email] handler hand to
    [messages.send] as [raw] is unpadded base64url: only letters, digits,
    [-] and [_], [ceil (4 n / 3)] characters for a message of [n] bytes,
    and it decodes to the message composed. *)
Theorem raw_is_base64url (E : Externals) (s : State) :
  (forall params, exists raw,
     calls (sendEmail E params) s = [MessagesSend (credentials s) raw] /\
     urlSafe raw = true /\
     String.length raw = (4 * String.length (sendEmail_email params) + 2) / 3 /\
     Base64Url.decode raw = Some (sendEmail_email params)) /\
  (forall to subject htmlBody plainText, exists raw,
     calls (send_html_email E to subject htmlBody plainText) s
       = [MessagesSend (credentials s) raw] /\
     urlSafe raw = true /\
     String.length raw =
       (4 * String.length
              (send_html_email_email E to subject htmlBody plainText) + 2) / 3 /\
     Base64Url.decode raw =
       Some (send_html_email_email E to subject htmlBody plainText)).
Proof.
  split; intros; eexists.
  - split; [apply sendEmail_calls |].
    split; [apply urlSafe_encode |]. split; [apply length_encode |].
    apply Base64UrlFacts.decode_encode.
  - split; [apply send_html_email_calls |].
    split; [apply urlSafe_encode |]. split; [apply length_encode |].
    apply Base64UrlFacts.decode_encode.
Qed.

(** ** Promise.all: rejection *)

Section PromiseAllRejection.

Import PromiseAll.
Context {A : Type}.
Variable outcomes : list (Outcome A).

Lemma fold_settle_Rejected (l : list nat) (e : JsError) :
  fold_left (settle outcomes) l (Rejected e) = Rejected e.
Proof. induction l as [|i l IH]; simpl; [reflexivity | exact IH]. Qed.

Lemma settle_stays_unrejected (st : t A) (i : nat) :
  not_rejected outcomes i ->
  (forall e, st <> Rejected e) ->
  forall e, settle outcomes st i <> Rejected e.
Proof.
  intros Hi Hst e. destruct st as [values remaining | values | e']; simpl;
    try discriminate; [| apply Hst].
  destruct (values !! i) as [[a|]|]; try discriminate.
  destruct (outcomes !! i) as [[v | e' |]|] eqn:Ho; try discriminate.
  - destruct remaining as [|[|r]]; discriminate.
  - destruct (Hi e'). exact Ho.
Qed.

Lemma fold_stays_unrejected (l : list nat) :
  Forall (not_rejected outcomes) l ->
  forall st, (forall e, st <> Rejected e) ->
  forall e, fold_left (settle outcomes) l st <> Rejected e.
Proof.
  induction 1 as [|i l Hi _ IH]; intros st Hst; simpl; [exact Hst |].
  apply IH. apply settle_stays_unrejected; assumption.
Qed.

(** A promise that is rejected while the combined promise is pending
    rejects it. *)
Lemma settle_rejects (st : t A) (j : nat) (e : JsError) :
  all_inv outcomes st ->
  (forall e', st <> Rejected e') ->
  outcomes !! j = Some (Throw e) ->
  settle outcomes st j = Rejected e.
Proof.
  intros Hinv Hst Hj. destruct st as [values remaining | values | e']; simpl.
  - destruct Hinv as (Hall & _ & _).
    destruct (Forall2_lookup_r _ _ _ _ _ Hall Hj) as (slot & Hslot & Hok).
    rewrite Hslot, Hj.
    destruct Hok as [-> | (v & _ & Hv)]; [reflexivity | discriminate].
  - simpl in Hinv. rewrite Hinv, list_lookup_fmap in Hj.
    destruct (values !! j); discriminate.
  - destruct (Hst e'). reflexivity.
Qed.

(** The combined promise is rejected with the error of the promise that
    is rejected first. *)
Lemma run_first_rejected (order l1 l2 : list nat) (j : nat) (e : JsError) :
  order ++ seq 0 (length outcomes) = l1 ++ j :: l2 ->
  Forall (not_rejected outcomes) l1 ->
  outcomes !! j = Some (Throw e) ->
  run outcomes order = Throw e.
Proof.
  intros Hl Hl1 Hj. unfold run. rewrite Hl, fold_left_app. simpl.
  set (st := fold_left (settle outcomes) l1 (start (length outcomes))).
  assert (Hinv : all_inv outcomes st) by apply fold_settle_inv, start_inv.
  assert (Hst : forall e', st <> Rejected e').
  { apply fold_stays_unrejected; [exact Hl1 |].
    intros e'. unfold start. destruct (length outcomes); discriminate. }
  rewrite (settle_rejects st j e Hinv Hst Hj), fold_settle_Rejected.
  reflexivity.
Qed.

Lemma not_rejected_dec (i : nat) :
  not_rejected outcomes i \/ exists e, outcomes !! i = Some (Throw e).
Proof.
  unfold not_rejected. destruct (outcomes !! i) as [[v | e |]|].
  - left. discriminate.
  - right. exists e. reflexivity.
  - left. discriminate.
  - left. discriminate.
Qed.

Lemma first_rejected (l : list nat) (j : nat) (e : JsError) :
  In j l -> outcomes !! j = Some (Throw e) ->
  exists l1 j' l2 e',
    l = l1 ++ j' :: l2 /\ Forall (not_rejected outcomes) l1 /\
    outcomes !! j' = Some (Throw e').
Proof.
  induction l as [|i l IH]; intros Hin Hj; [destruct Hin |].
  destruct (not_rejected_dec i) as [Hi | [e' He']].
  - destruct Hin as [-> | Hin]; [destruct (Hi e Hj) |].
    destruct (IH Hin Hj) as (l1 & j' & l2 & e' & -> & Hl1 & Hj').
    exists (i :: l1), j', l2, e'. repeat split; [constructor; assumption | exact Hj'].
  - exists [], i, l, e'. repeat split; [constructor | exact He'].
Qed.

(** One rejected promise is enough: the combined promise is rejected, with
    the error of one of the rejected promises. *)
Lemma run_some_rejected (order : list nat) (j : nat) (e : JsError) :
  outcomes !! j = Some (Throw e) ->
  exists j' e', outcomes !! j' = Some (Throw e') /\ run outcomes order = Throw e'.
Proof.
  intros Hj.
  assert (Hin : In j (order ++ seq 0 (length outcomes))).
  { apply in_or_app. right. apply in_seq. apply lookup_lt_Some in Hj. lia. }
  destruct (first_rejected _ j e Hin Hj) as (l1 & j' & l2 & e' & Hl & Hl1 & Hj').
  exists j', e'. split; [exact Hj' |].
  exact (run_first_rejected order l1 l2 j' e' Hl Hl1 Hj').
Qed.

End PromiseAllRejection.

(** ** searchEmails: requests, failures, empty results *)

Section SearchMore.

Variable E : Externals.

Lemma searchEmails_state (order : list nat) (query : string)
    (maxResults : option Z) (s : State) :
  let c := credentials s in
  let n := default 10%Z maxResults in
  (searchEmails E order query maxResults s).2 =
  mkState c
    (events s ++
     MessagesList c query n ::
     match users_messages_list E c query n with
     | Ok res =>
         map (fun msg => MessagesGet c (Listed.id msg))
             (default [] (ListResponse.messages res))
     | _ => []
     end).
Proof.
  simpl. unfold searchEmails, bind at 1.
  unfold gmail_users_messages_list, bind, getCredentials, emit, await. simpl.
  destruct (users_messages_list E (credentials s) query (default 10%Z maxResults))
    as [res | e |]; simpl; try reflexivity.
  rewrite startAll_run. simpl. unfold await, ret.
  rewrite <- app_assoc. simpl.
  destruct (PromiseAll.run _ order); reflexivity.
Qed.

Lemma shaped_lookup_Throw (c : Credentials) (listed : list Listed.t)
    (j : nat) (msg : Listed.t) (e : JsError) :
  listed !! j = Some msg ->
  users_messages_get E c (Listed.id msg) = Throw e ->
  map (fun msg => shaped E msg (users_messages_get E c (Listed.id msg))) listed
    !! j = Some (Throw e).
Proof.
  intros Hj He.
  change (map ?f listed) with (f <$> listed).
  rewrite list_lookup_fmap, Hj. simpl. rewrite He. reflexivity.
Qed.

Lemma shaped_lookup_Throw_inv (c : Credentials) (listed : list Listed.t)
    (j : nat) (e : JsError) :
  map (fun msg => shaped E msg (users_messages_get E c (Listed.id msg))) listed
    !! j = Some (Throw e) ->
  exists msg, listed !! j = Some msg /\
              users_messages_get E c (Listed.id msg) = Throw e.
Proof.
  change (map ?f listed) with (f <$> listed).
  rewrite list_lookup_fmap. destruct (listed !! j) as [msg|]; [| discriminate].
  simpl. intros H. exists msg. split; [reflexivity |].
  destruct (users_messages_get E c (Listed.id msg)); simpl in H; congruence.
Qed.

End SearchMore.

(** X7. [searchEmails] calls the list method of the client, with the
    query and [maxResults] (10 when it is left out), and then the get method
    once per listed message, in the order of the list: the same method calls
    whatever the order in which the fetches complete and whether or not they
    fail.  When the list call fails no get call is made and [searchEmails]
    fails with the error of the list call. *)
Theorem searchEmails_requests (E : Externals) (s : State) (order : list nat)
    (query : string) (maxResults : option Z) :
  let c := credentials s in
  let n := default 10%Z maxResults in
  methodCalls (calls (searchEmails E order query maxResults) s) =
    ListCall query n ::
    match users_messages_list E c query n with
    | Ok res =>
        map (fun msg => GetCall (Listed.id msg))
            (default [] (ListResponse.messages res))
    | _ => []
    end /\
  (forall e, users_messages_list E c query n = Throw e ->
     (searchEmails E order query maxResults s).1 = Throw e /\
     methodCalls (calls (searchEmails E order query maxResults) s)
       = [ListCall query n]).
Proof.
  intros c n.
  pose proof (searchEmails_state E order query maxResults s) as Hst.
  simpl in Hst. fold c n in Hst.
  assert (Hcalls : calls (searchEmails E order query maxResults) s =
    MessagesList c query n ::
    match users_messages_list E c query n with
    | Ok res =>
        map (fun msg => MessagesGet c (Listed.id msg))
            (default [] (ListResponse.messages res))
    | _ => []
    end) by (apply calls_app; rewrite Hst; reflexivity).
  assert (Hgets : forall listed : list Listed.t,
            methodCalls (map (fun msg => MessagesGet c (Listed.id msg)) listed)
            = map (fun msg => GetCall (Listed.id msg)) listed).
  { induction listed as [|msg listed IH]; [reflexivity |].
    simpl. f_equal. exact IH. }
  split.
  - rewrite Hcalls.
    change (ListCall query n ::
            methodCalls
              match users_messages_list E c query n with
              | Ok res =>
                  map (fun msg => MessagesGet c (Listed.id msg))
                      (default [] (ListResponse.messages res))
              | _ => []
              end = ListCall query n ::
            match users_messages_list E c query n with
            | Ok res =>
                map (fun msg => GetCall (Listed.id msg))
                    (default [] (ListResponse.messages res))
            | _ => []
            end).
    f_equal.
    destruct (users_messages_list E c query n); try reflexivity. apply Hgets.
  - intros e He. split; [| rewrite Hcalls, He; reflexivity].
    unfold searchEmails, bind at 1.
    unfold gmail_users_messages_list, bind, getCredentials, emit, await. simpl.
    fold c n. rewrite He. reflexivity.
Qed.

(** X8. [searchEmails] gives all the results or none: when the list call
    has answered and the detail fetch of one listed message fails,
    [searchEmails] fails, with the error of a failed detail fetch, whatever
    the other fetches answer; when the failed fetch is the first to
    complete, it is its error. *)
Theorem searchEmails_all_or_nothing (E : Externals) (s : State)
    (order : list nat) (query : string) (maxResults : option Z)
    (res : ListResponse.t) (j : nat) (msg : Listed.t) (e : JsError) :
  let c := credentials s in
  let listed := default [] (ListResponse.messages res) in
  users_messages_list E c query (default 10%Z maxResults) = Ok res ->
  listed !! j = Some msg ->
  users_messages_get E c (Listed.id msg) = Throw e ->
  (exists j' msg' e',
     listed !! j' = Some msg' /\
     users_messages_get E c (Listed.id msg') = Throw e' /\
     (searchEmails E order query maxResults s).1 = Throw e') /\
  (forall rest, order = j :: rest ->
     (searchEmails E order query maxResults s).1 = Throw e).
Proof.
  intros c listed Hlist Hj He.
  rewrite (searchEmails_outcome E order query maxResults s res Hlist).
  fold c listed.
  pose proof (shaped_lookup_Throw E c listed j msg e Hj He) as Ho.
  split.
  - destruct (run_some_rejected _ order j e Ho) as (j' & e' & Hj' & Hrun).
    destruct (shaped_lookup_Throw_inv E c listed j' e' Hj') as (msg' & Hm & Hg).
    exists j', msg', e'. rewrite Hrun. repeat split; assumption.
  - intros rest ->.
    rewrite (run_first_rejected _ (j :: rest) [] (rest ++ seq 0 (length
               (map (fun msg => shaped E msg
                       (users_messages_get E c (Listed.id msg))) listed)))
               j e); [reflexivity | reflexivity | constructor | exact Ho].
Qed.

(** X9. When the list call answers without a [messages] field, or with an
    empty one, [searchEmails] returns an empty list of messages together
    with the estimate and the page token of the answer, after the list call
    alone. *)
Theorem searchEmails_no_messages (E : Externals) (s : State)
    (order : list nat) (query : string) (maxResults : option Z)
    (res : ListResponse.t) :
  let c := credentials s in
  users_messages_list E c query (default 10%Z maxResults) = Ok res ->
  ListResponse.messages res = None \/ ListResponse.messages res = Some [] ->
  (searchEmails E order query maxResults s).1 =
    Ok {| SearchEmailsResult.messages := [];
          SearchEmailsResult.resultSizeEstimate :=
            ListResponse.resultSizeEstimate res;
          SearchEmailsResult.nextPageToken := ListResponse.nextPageToken res |} /\
  calls (searchEmails E order query maxResults) s =
    [MessagesList c query (default 10%Z maxResults)].
Proof.
  intros c Hlist Hnone.
  assert (Hl : default [] (ListResponse.messages res) = [])
    by (destruct Hnone as [-> | ->]; reflexivity).
  split.
  - rewrite (searchEmails_outcome E order query maxResults s res Hlist), Hl.
    simpl. unfold PromiseAll.run. simpl. rewrite app_nil_r.
    induction order as [|i order IH]; simpl; [reflexivity | exact IH].
  - apply calls_app. rewrite searchEmails_state. simpl. fold c.
    rewrite Hlist, Hl. reflexivity.
Qed.

(** ** The refresh guard: success, repetition, frame *)

(** X10. When the guard's condition holds and the exchange succeeds,
    [refreshTokenIfNeeded] makes the one exchange, logs nothing and stores
    the credentials the exchange returned.  A second call then does
    nothing when the new credentials are not expired (or carry no expiry),
    and exchanges again, from the new credentials, when they are. *)
Theorem refresh_success_then_repeat (E : Externals) (s : State)
    (c' : Credentials) :
  let c := credentials s in
  let s' := mkState c' (events s ++ [RefreshAccessToken c]) in
  needsRefresh E c = true ->
  token_endpoint E c = Ok c' ->
  refreshTokenIfNeeded E s = (Ok tt, s') /\
  (needsRefresh E c' = false ->
   (refreshTokenIfNeeded E ;;; refreshTokenIfNeeded E) s = (Ok tt, s')) /\
  (needsRefresh E c' = true ->
   calls (refreshTokenIfNeeded E ;;; refreshTokenIfNeeded E) s
   = RefreshAccessToken c :: calls (refreshTokenIfNeeded E) s' /\
   refreshAttempts (calls (refreshTokenIfNeeded E ;;; refreshTokenIfNeeded E) s)
   = 2).
Proof.
  intros c s' Hn Ht.
  assert (Hrun : refreshTokenIfNeeded E s = (Ok tt, s')).
  { rewrite (refreshTokenIfNeeded_run E s Hn). simpl. fold c. rewrite Ht.
    reflexivity. }
  assert (Hseq : (refreshTokenIfNeeded E ;;; refreshTokenIfNeeded E) s
                 = refreshTokenIfNeeded E s')
    by (unfold bind at 1; rewrite Hrun; reflexivity).
  split; [exact Hrun |]. split.
  - intros Hfresh. rewrite Hseq. apply refreshTokenIfNeeded_skip. exact Hfresh.
  - intros Hstale.
    pose proof (refreshTokenIfNeeded_run E s' Hstale) as Hrun'. simpl in Hrun'.
    assert (Hcalls' : exists evs,
              events (refreshTokenIfNeeded E s').2 = events s' ++ evs /\
              refreshAttempts evs = 1).
    { rewrite Hrun'. destruct (token_endpoint E c'); simpl; eexists;
        (split; [reflexivity | reflexivity]). }
    destruct Hcalls' as (evs & Hevs & Hone).
    assert (Hc1 : calls (refreshTokenIfNeeded E) s' = evs)
      by (apply calls_app; exact Hevs).
    assert (Hc2 : calls (refreshTokenIfNeeded E ;;; refreshTokenIfNeeded E) s
                  = RefreshAccessToken c :: evs).
    { apply calls_app. rewrite Hseq, Hevs. subst s'. simpl.
      rewrite <- app_assoc. reflexivity. }
    rewrite Hc1, Hc2. split; [reflexivity |].
    change (refreshAttempts (RefreshAccessToken c :: evs))
      with (S (refreshAttempts evs)). rewrite Hone. reflexivity.
Qed.

(** X11. Whatever the state and the token endpoint,
    [refreshTokenIfNeeded] makes at most one exchange and no mail API call,
    keeps the calls recorded before it, and changes the stored credentials
    only by storing what a successful exchange returned. *)
Theorem refreshTokenIfNeeded_frame (E : Externals) (s : State) :
  let r := refreshTokenIfNeeded E s in
  refreshAttempts (calls (refreshTokenIfNeeded E) s) <= 1 /\
  Forall (fun e => isMailApiCall e = false) (calls (refreshTokenIfNeeded E) s) /\
  events r.2 = events s ++ calls (refreshTokenIfNeeded E) s /\
  (credentials r.2 = credentials s \/
   r.1 = Ok tt /\ token_endpoint E (credentials s) = Ok (credentials r.2)).
Proof.
  intros r. subst r.
  destruct (needsRefresh E (credentials s)) eqn:Hn.
  - pose proof (refreshTokenIfNeeded_run E s Hn) as Hrun. simpl in Hrun.
    destruct (token_endpoint E (credentials s)) as [c' | e |] eqn:Ht;
      (erewrite calls_app; [| rewrite Hrun; reflexivity]); rewrite Hrun; simpl.
    + repeat split; [unfold refreshAttempts; simpl; lia | repeat constructor |].
      right. split; reflexivity.
    + repeat split; [unfold refreshAttempts; simpl; lia | repeat constructor |].
      left. reflexivity.
    + repeat split; [unfold refreshAttempts; simpl; lia | repeat constructor |].
      left. reflexivity.
  - pose proof (refreshTokenIfNeeded_skip E s Hn) as Hskip.
    rewrite (calls_unchanged _ _ _ Hskip), Hskip. simpl.
    repeat split; [unfold refreshAttempts; simpl; lia | constructor
                  | symmetry; apply app_nil_r |].
    left. reflexivity.
Qed.

Lemma refresh_success_then_repeat_witness :
  (refreshTokenIfNeeded (Demo.renewing 2000) ;;;
   refreshTokenIfNeeded (Demo.renewing 2000)) (Demo.client (Num 1000))
  = (Ok tt,
     {| credentials :=
          {| access_token := Some "ya29.new";
             refresh_token := Some "1//0g";
             expiry_date := Num 3602000 |};
        events :=
          [RefreshAccessToken (credentials (Demo.client (Num 1000)))] |}).
Proof.
  apply (proj1 (proj2 (refresh_success_then_repeat (Demo.renewing 2000)
                         (Demo.client (Num 1000))
                         {| access_token := Some "ya29.new";
                            refresh_token := Some "1//0g";
                            expiry_date := Num 3602000 |}
                         eq_refl eq_refl))).
  reflexivity.
Defined.

(** ** The tool handlers: what they return *)

(** X12. The [send_email] and [read_email] handlers make their one mail
    API call and never throw: when the call succeeds they return the success
    text (the message id, the message as JSON) without [isError]; when it
    fails they return [Error: ] followed by the message of the error, with
    [isError] set. *)
Theorem wrapped_handlers_payload (E : Externals) (s : State) :
  (forall params,
     let raw := Base64Url.encode (sendEmail_email params) in
     calls (send_email E params) s = [MessagesSend (credentials s) raw] /\
     (forall id, users_messages_send E (credentials s) raw = Ok id ->
        (send_email E params s).1 =
        Ok {| text := "Email sent successfully. Message ID: " +:+ id;
              isError := false |}) /\
     (forall e, users_messages_send E (credentials s) raw = Throw e ->
        (send_email E params s).1 =
        Ok {| text := "Error: " +:+ message e; isError := true |}) /\
     (forall e, (send_email E params s).1 <> Throw e)) /\
  (forall messageId,
     calls (read_email E messageId) s = [MessagesGet (credentials s) messageId] /\
     (forall m, users_messages_get E (credentials s) messageId = Ok m ->
        (read_email E messageId s).1 =
        Ok {| text := stringify_message E m; isError := false |}) /\
     (forall e, users_messages_get E (credentials s) messageId = Throw e ->
        (read_email E messageId s).1 =
        Ok {| text := "Error: " +:+ message e; isError := true |}) /\
     (forall e, (read_email E messageId s).1 <> Throw e)).
Proof.
  split.
  - intros params raw.
    assert (Hrun : send_email E params s =
      (match users_messages_send E (credentials s) raw with
       | Ok id => Ok {| text := "Email sent successfully. Message ID: " +:+ id;
                        isError := false |}
       | Throw e => Ok {| text := "Error: " +:+ message e; isError := true |}
       | Hang => Hang
       end,
       mkState (credentials s) (events s ++ [MessagesSend (credentials s) raw]))).
    { unfold send_email, try_catch, bind. rewrite sendEmail_run. fold raw.
      destruct (users_messages_send E (credentials s) raw); reflexivity. }
    split; [apply calls_app; rewrite Hrun; reflexivity |].
    rewrite Hrun. simpl. repeat split.
    + intros id ->. reflexivity.
    + intros e ->. reflexivity.
    + intros e. destruct (users_messages_send E (credentials s) raw); discriminate.
  - intros messageId.
    assert (Hrun : read_email E messageId s =
      (match users_messages_get E (credentials s) messageId with
       | Ok m => Ok {| text := stringify_message E m; isError := false |}
       | Throw e => Ok {| text := "Error: " +:+ message e; isError := true |}
       | Hang => Hang
       end,
       mkState (credentials s)
         (events s ++ [MessagesGet (credentials s) messageId]))).
    { unfold read_email, try_catch, bind. rewrite getMessage_run.
      destruct (users_messages_get E (credentials s) messageId); reflexivity. }
    split; [apply calls_app; rewrite Hrun; reflexivity |].
    rewrite Hrun. simpl. repeat split.
    + intros m ->. reflexivity.
    + intros e ->. reflexivity.
    + intros e. destruct (users_messages_get E (credentials s) messageId);
        discriminate.
Qed.

Lemma search_emails_outcome (E : Externals) (s : State) (order : list nat)
    (query : string) (maxResults : option Z) :
  (search_emails E order query maxResults s).1 =
  match (searchEmails E order query (Some (default 10%Z maxResults)) s).1 with
  | Ok results => Ok {| text := stringify_result E results; isError := false |}
  | Throw e => Ok {| text := "Error: " +:+ message e; isError := true |}
  | Hang => Hang
  end.
Proof.
  unfold search_emails, try_catch, bind.
  destruct (searchEmails E order query (Some (default 10%Z maxResults)) s)
    as [[results | e |] s']; reflexivity.
Qed.

(** X13. The [search_emails] handler never throws and never returns part
    of the results.  When the list call fails, or the detail fetch of one
    listed message fails, it returns [Error: ] followed by the message of
    the failed call, with [isError] set; when all the calls are answered it
    returns the JSON text of the results, which are in the order of the
    list. *)
Theorem search_emails_payload (E : Externals) (s : State) (order : list nat)
    (query : string) (maxResults : option Z) :
  let c := credentials s in
  let n := default 10%Z maxResults in
  (forall e, (search_emails E order query maxResults s).1 <> Throw e) /\
  (forall e, users_messages_list E c query n = Throw e ->
     (search_emails E order query maxResults s).1 =
     Ok {| text := "Error: " +:+ message e; isError := true |}) /\
  (forall res j msg e,
     users_messages_list E c query n = Ok res ->
     default [] (ListResponse.messages res) !! j = Some msg ->
     users_messages_get E c (Listed.id msg) = Throw e ->
     exists j' msg' e',
       default [] (ListResponse.messages res) !! j' = Some msg' /\
       users_messages_get E c (Listed.id msg') = Throw e' /\
       (search_emails E order query maxResults s).1 =
       Ok {| text := "Error: " +:+ message e'; isError := true |}) /\
  (forall res,
     users_messages_list E c query n = Ok res ->
     Forall (fun msg => exists d, users_messages_get E c (Listed.id msg) = Ok d)
            (default [] (ListResponse.messages res)) ->
     exists results,
       (search_emails E order query maxResults s).1 =
       Ok {| text := stringify_result E results; isError := false |} /\
       map EmailMessage.id (SearchEmailsResult.messages results)
       = map Listed.id (default [] (ListResponse.messages res))).
Proof.
  intros c n. rewrite search_emails_outcome. fold n.
  split; [| split; [| split]].
  - intros e. destruct ((searchEmails E order query (Some n) s).1); discriminate.
  - intros e He.
    assert (Hs : (searchEmails E order query (Some n) s).1 = Throw e).
    { unfold searchEmails, bind at 1.
      unfold gmail_users_messages_list, bind, getCredentials, emit, await.
      simpl. fold c. rewrite He. reflexivity. }
    rewrite Hs. reflexivity.
  - intros res j msg e Hlist Hj He.
    rewrite (searchEmails_outcome E order query (Some n) s res Hlist).
    fold c.
    pose proof (shaped_lookup_Throw E c _ j msg e Hj He) as Ho.
    destruct (run_some_rejected _ order j e Ho) as (j' & e' & Hj' & Hrun).
    destruct (shaped_lookup_Throw_inv E c _ j' e' Hj') as (msg' & Hm & Hg).
    exists j', msg', e'. rewrite Hrun. repeat split; assumption.
  - intros res Hlist Hget.
    rewrite (searchEmails_outcome E order query (Some n) s res Hlist).
    fold c. destruct (shaped_all_Ok E c _ Hget) as [ms Hms].
    rewrite Hms, run_fulfilled. eexists. split; [reflexivity |]. simpl.
    apply shaped_Ok_inv in Hms. clear -Hms.
    induction Hms as [|msg m listed ms (d & _ & ->) _ IH]; simpl;
      [reflexivity | rewrite IH; reflexivity].
Qed.

(** X14. The [send_html_email] and [manage_labels] handlers have no
    [try]/[catch]: they make their one mail API call, return their success
    text when it succeeds and, when it fails, end with the error of the
    call thrown, not with an error payload. *)
Theorem unwrapped_handlers_pass_errors (E : Externals) (s : State) :
  (forall to subject htmlBody plainText,
     let raw := Base64Url.encode
                  (send_html_email_email E to subject htmlBody plainText) in
     calls (send_html_email E to subject htmlBody plainText) s
       = [MessagesSend (credentials s) raw] /\
     (forall id, users_messages_send E (credentials s) raw = Ok id ->
        (send_html_email E to subject htmlBody plainText s).1 =
        Ok {| text := "HTML email sent: " +:+ id; isError := false |}) /\
     (forall e, users_messages_send E (credentials s) raw = Throw e ->
        (send_html_email E to subject htmlBody plainText s).1 = Throw e)) /\
  (forall messageId addLabels removeLabels,
     calls (manage_labels E messageId addLabels removeLabels) s
       = [MessagesModify (credentials s) messageId addLabels removeLabels] /\
     (users_messages_modify E (credentials s) messageId addLabels removeLabels
        = Ok tt ->
      (manage_labels E messageId addLabels removeLabels s).1 =
      Ok {| text := "Labels updated successfully"; isError := false |}) /\
     (forall e,
        users_messages_modify E (credentials s) messageId addLabels removeLabels
          = Throw e ->
        (manage_labels E messageId addLabels removeLabels s).1 = Throw e)).
Proof.
  split.
  - intros to subject htmlBody plainText raw.
    split; [apply send_html_email_calls |]. split.
    + intros id Hid. unfold send_html_email, bind.
      rewrite gmail_users_messages_send_run. fold raw. rewrite Hid. reflexivity.
    + intros e He. unfold send_html_email, bind.
      rewrite gmail_users_messages_send_run. fold raw. rewrite He. reflexivity.
  - intros messageId addLabels removeLabels.
    assert (Hrun : manage_labels E messageId addLabels removeLabels s =
      (match users_messages_modify E (credentials s) messageId addLabels
               removeLabels with
       | Ok _ => Ok {| text := "Labels updated successfully"; isError := false |}
       | Throw e => Throw e
       | Hang => Hang
       end,
       mkState (credentials s)
         (events s ++
          [MessagesModify (credentials s) messageId addLabels removeLabels]))).
    { unfold manage_labels, gmail_users_messages_modify, bind, getCredentials,
        emit, await. simpl.
      destruct (users_messages_modify E (credentials s) messageId addLabels
                  removeLabels); reflexivity. }
    split; [apply calls_app; rewrite Hrun; reflexivity |].
    rewrite Hrun. simpl. split.
    + intros ->. reflexivity.
    + intros e ->. reflexivity.
Qed.

(** ** The guide's client: token file and consent *)

Section GuideFacts.

Import Guide.
Variable E : Externals.
Variable L : Libs.

Lemma loadSavedCredentials_run (w : World) :
  loadSavedCredentials L w =
  (match token_file w with
   | Some content =>
       match fromJSON L content with
       | Ok c => Ok (Some c)
       | Throw _ => Ok None
       | Hang => Hang
       end
   | None => Ok None
   end,
   after w [ReadFile TOKEN_PATH]).
Proof.
  unfold loadSavedCredentials, readFile, writeFile, try_catch, await, ret, log,
    after. unfold bind. simpl.
  destruct (token_file w) as [content|]; [| reflexivity].
  destruct (fromJSON L content); reflexivity.
Qed.

Lemma saveCredentials_run (client : Credentials) (w : World) :
  saveCredentials L client w =
  match credentials_file w with
  | Some content =>
      match parseKeys L content with
      | Ok keys =>
          match orKey (installed keys) (web keys) with
          | Some key =>
              (Ok tt,
               mkWorld (auth w) (Some (payload L key client)) (credentials_file w)
                 (steps w ++ [ReadFile CREDENTIALS_PATH;
                              WriteFile TOKEN_PATH (payload L key client)]))
          | None =>
              (Throw (mkError
                 "Cannot read properties of undefined (reading 'client_id')"),
               after w [ReadFile CREDENTIALS_PATH])
          end
      | Throw e => (Throw e, after w [ReadFile CREDENTIALS_PATH])
      | Hang => (Hang, after w [ReadFile CREDENTIALS_PATH])
      end
  | None =>
      (Throw (mkError "ENOENT: no such file or directory"),
       after w [ReadFile CREDENTIALS_PATH])
  end.
Proof.
  unfold saveCredentials, readFile, writeFile, log, await, throw, after,
    payload. unfold bind. simpl.
  destruct (credentials_file w) as [content|] eqn:Hc; [| reflexivity].
  destruct (parseKeys L content) as [keys | e |]; try reflexivity.
  destruct (orKey (installed keys) (web keys)); simpl; [| reflexivity].
  rewrite <- app_assoc. reflexivity.
Qed.

Lemma authenticate_run (w : World) :
  authenticate L w =
  let w1 := after w [ReadFile TOKEN_PATH] in
  match (loadSavedCredentials L w).1 with
  | Ok (Some c) =>
      (Ok tt, mkWorld (Some c) (token_file w1) (credentials_file w1) (steps w1))
  | Ok None =>
      let w2 := after w1 [ConsentFlow] in
      match consent L with
      | Ok c =>
          match saveCredentials L c w2 with
          | (Ok _, w3) =>
              (Ok tt,
               mkWorld (Some c) (token_file w3) (credentials_file w3) (steps w3))
          | (Throw e, w3) => (Throw e, w3)
          | (Hang, w3) => (Hang, w3)
          end
      | Throw e => (Throw e, w2)
      | Hang => (Hang, w2)
      end
  | Throw e => (Throw e, w1)
  | Hang => (Hang, w1)
  end.
Proof.
  unfold authenticate, consentFlow, setAuth, log, await, ret. unfold bind.
  rewrite loadSavedCredentials_run. cbn [fst].
  destruct (match token_file w with
            | Some content => _
            | None => _
            end) as [[c|] | e |]; try reflexivity.
  simpl. destruct (consent L) as [c | e |]; try reflexivity.
  unfold after. simpl.
  destruct (saveCredentials L c _) as [[[] | e |] w3]; reflexivity.
Qed.

Lemma load_unloadable (w : World) :
  unloadable L w -> (loadSavedCredentials L w).1 = Ok None.
Proof.
  intros Hun. rewrite loadSavedCredentials_run. simpl. unfold unloadable in Hun.
  destruct (token_file w) as [content|]; [| reflexivity].
  destruct Hun as [e ->]. reflexivity.
Qed.

Lemma load_loadable (w : World) (content : string) (c : Credentials) :
  token_file w = Some content -> fromJSON L content = Ok c ->
  (loadSavedCredentials L w).1 = Ok (Some c).
Proof.
  intros Ht Hc. rewrite loadSavedCredentials_run. simpl. rewrite Ht, Hc.
  reflexivity.
Qed.

Lemma authenticate_saved (w : World) (content : string) (c : Credentials) :
  token_file w = Some content -> fromJSON L content = Ok c ->
  authenticate L w =
  (Ok tt,
   mkWorld (Some c) (token_file w) (credentials_file w)
     (steps w ++ [ReadFile TOKEN_PATH])).
Proof.
  intros Ht Hc. rewrite authenticate_run, (load_loadable w content c Ht Hc).
  reflexivity.
Qed.

Lemma authenticate_fresh (w : World) (c : Credentials) (content : string)
    (keys : Keys) (key : Key) :
  unloadable L w ->
  consent L = Ok c ->
  credentials_file w = Some content ->
  parseKeys L content = Ok keys ->
  orKey (installed keys) (web keys) = Some key ->
  authenticate L w =
  (Ok tt,
   mkWorld (Some c) (Some (payload L key c)) (credentials_file w)
     (steps w ++
      [ ReadFile TOKEN_PATH; ConsentFlow; ReadFile CREDENTIALS_PATH;
        WriteFile TOKEN_PATH (payload L key c) ])).
Proof.
  intros Hun Hc Hfile Hkeys Hkey.
  rewrite authenticate_run, (load_unloadable w Hun). cbn zeta.
  rewrite Hc, saveCredentials_run. simpl.
  rewrite Hfile, Hkeys, Hkey. simpl. rewrite <- !app_assoc. reflexivity.
Qed.

Lemma saveCredentials_run_after (c : Credentials) (w : World) (l : list Step) :
  saveCredentials L c (after w l) =
  match credentials_file w with
  | Some content =>
      match parseKeys L content with
      | Ok keys =>
          match orKey (installed keys) (web keys) with
          | Some key =>
              (Ok tt,
               mkWorld (auth w) (Some (payload L key c)) (credentials_file w)
                 ((steps w ++ l) ++
                  [ReadFile CREDENTIALS_PATH;
                   WriteFile TOKEN_PATH (payload L key c)]))
          | None =>
              (Throw (mkError
                 "Cannot read properties of undefined (reading 'client_id')"),
               after (after w l) [ReadFile CREDENTIALS_PATH])
          end
      | Throw e => (Throw e, after (after w l) [ReadFile CREDENTIALS_PATH])
      | Hang => (Hang, after (after w l) [ReadFile CREDENTIALS_PATH])
      end
  | None =>
      (Throw (mkError "ENOENT: no such file or directory"),
       after (after w l) [ReadFile CREDENTIALS_PATH])
  end.
Proof. rewrite saveCredentials_run. reflexivity. Qed.

End GuideFacts.

(** X15. [loadSavedCredentials] never throws: it reads the token file and
    nothing else, writes nothing, and returns the client built from the
    file, or [null] when the file is missing or its content is rejected. *)
Theorem loadSavedCredentials_never_throws (L : Guide.Libs) (w : Guide.World) :
  let r := Guide.loadSavedCredentials L w in
  (forall e, r.1 <> Throw e) /\
  r.2 = Guide.after w [Guide.ReadFile Guide.TOKEN_PATH] /\
  (Guide.unloadable L w -> r.1 = Ok None) /\
  (forall content c,
     Guide.token_file w = Some content -> Guide.fromJSON L content = Ok c ->
     r.1 = Ok (Some c)).
Proof.
  intros r. subst r. rewrite loadSavedCredentials_run. simpl.
  unfold Guide.unloadable. repeat split.
  - intros e. destruct (Guide.token_file w) as [content|]; [| discriminate].
    destruct (Guide.fromJSON L content); discriminate.
  - destruct (Guide.token_file w) as [content|]; [| reflexivity].
    intros [e ->]. reflexivity.
  - intros content c -> ->. reflexivity.
Qed.

(** X16. With a token file that loads, [authenticate] uses the client built
    from it: it reads the token file and does nothing else, starting no
    consent flow and writing nothing. *)
Theorem authenticate_with_saved_token (L : Guide.Libs) (w : Guide.World)
    (content : string) (c : Credentials) :
  Guide.token_file w = Some content ->
  Guide.fromJSON L content = Ok c ->
  Guide.authenticate L w =
  (Ok tt,
   Guide.mkWorld (Some c) (Guide.token_file w) (Guide.credentials_file w)
     (Guide.steps w ++ [Guide.ReadFile Guide.TOKEN_PATH])).
Proof.
  intros Ht Hc. exact (authenticate_saved L w content c Ht Hc).
Qed.

(** X17. Without a token file that loads, [authenticate] starts the consent
    flow once and, when consent is given and the key file holds an
    [installed] or else a [web] key, writes the token file with the type
    [authorized_user], the id and secret of that key and the refresh token
    obtained, and keeps the client. *)
Theorem authenticate_first_time (L : Guide.Libs) (w : Guide.World)
    (c : Credentials) (content : string) (keys : Guide.Keys) (key : Guide.Key) :
  Guide.unloadable L w ->
  Guide.consent L = Ok c ->
  Guide.credentials_file w = Some content ->
  Guide.parseKeys L content = Ok keys ->
  Guide.orKey (Guide.installed keys) (Guide.web keys) = Some key ->
  Guide.authenticate L w =
  (Ok tt,
   Guide.mkWorld (Some c) (Some (Guide.payload L key c))
     (Guide.credentials_file w)
     (Guide.steps w ++
      [ Guide.ReadFile Guide.TOKEN_PATH; Guide.ConsentFlow;
        Guide.ReadFile Guide.CREDENTIALS_PATH;
        Guide.WriteFile Guide.TOKEN_PATH (Guide.payload L key c) ])) /\
  (forall k, Guide.installed keys = Some k -> key = k).
Proof.
  intros Hun Hc Hfile Hkeys Hkey. split.
  - exact (authenticate_fresh L w c content keys key Hun Hc Hfile Hkeys Hkey).
  - intros k Hk. rewrite Hk in Hkey. simpl in Hkey. congruence.
Qed.

(** X18. [authenticate] keeps no client that it could not save.  Without
    a token file that loads it starts the consent flow; when consent fails,
    it fails with that error.  When consent is given but the key file is
    missing, or is not JSON, or holds neither an [installed] nor a [web]
    key, it fails before it writes anything: the client just obtained is not
    kept, and the token file is as it was. *)
Theorem authenticate_keeps_no_unsaved_client (L : Guide.Libs)
    (w : Guide.World) :
  Guide.unloadable L w ->
  (forall e, Guide.consent L = Throw e ->
     Guide.authenticate L w =
     (Throw e,
      Guide.after w [Guide.ReadFile Guide.TOKEN_PATH; Guide.ConsentFlow])) /\
  (forall c, Guide.consent L = Ok c ->
     Guide.credentials_file w = None \/
     (exists content, Guide.credentials_file w = Some content /\
        ((exists e, Guide.parseKeys L content = Throw e) \/
         (exists keys, Guide.parseKeys L content = Ok keys /\
            Guide.orKey (Guide.installed keys) (Guide.web keys) = None))) ->
     exists e,
       Guide.authenticate L w =
       (Throw e,
        Guide.after w [ Guide.ReadFile Guide.TOKEN_PATH; Guide.ConsentFlow;
                        Guide.ReadFile Guide.CREDENTIALS_PATH ])).
Proof.
  intros Hun. split.
  - intros e He.
    rewrite authenticate_run, (load_unloadable L w Hun). cbn zeta.
    rewrite He. unfold Guide.after. simpl. rewrite <- app_assoc. reflexivity.
  - intros c Hc Hkeys.
    rewrite authenticate_run, (load_unloadable L w Hun). cbn zeta.
    rewrite Hc, saveCredentials_run. unfold Guide.after. simpl.
    destruct Hkeys as [Hfile | (content & Hfile & [[e He] | (keys & Hk & Hnone)])];
      rewrite Hfile; [| rewrite He | rewrite Hk, Hnone];
      eexists; rewrite <- !app_assoc; reflexivity.
Qed.

(** X19. Consent is asked once: after a first [authenticate] that had to
    start the consent flow and wrote the token file, a second
    [authenticate] loads the client from that file, when the library
    accepts what was written, and starts no consent flow. *)
Theorem consent_asked_once (L : Guide.Libs) (w : Guide.World)
    (c c2 : Credentials) (content : string) (keys : Guide.Keys)
    (key : Guide.Key) :
  Guide.unloadable L w ->
  Guide.consent L = Ok c ->
  Guide.credentials_file w = Some content ->
  Guide.parseKeys L content = Ok keys ->
  Guide.orKey (Guide.installed keys) (Guide.web keys) = Some key ->
  Guide.fromJSON L (Guide.payload L key c) = Ok c2 ->
  Guide.bind (Guide.authenticate L) (fun _ => Guide.authenticate L) w =
  (Ok tt,
   Guide.mkWorld (Some c2) (Some (Guide.payload L key c))
     (Guide.credentials_file w)
     (Guide.steps w ++
      [ Guide.ReadFile Guide.TOKEN_PATH; Guide.ConsentFlow;
        Guide.ReadFile Guide.CREDENTIALS_PATH;
        Guide.WriteFile Guide.TOKEN_PATH (Guide.payload L key c);
        Guide.ReadFile Guide.TOKEN_PATH ])).
Proof.
  intros Hun Hc Hfile Hkeys Hkey Hload. unfold Guide.bind.
  rewrite (authenticate_fresh L w c content keys key Hun Hc Hfile Hkeys Hkey).
  set (w1 := Guide.mkWorld (Some c) (Some (Guide.payload L key c))
               (Guide.credentials_file w) _).
  rewrite (authenticate_saved L w1 (Guide.payload L key c) c2 eq_refl Hload).
  subst w1. simpl. rewrite <- app_assoc. reflexivity.
Qed.

Section GuideRefresh.

Import Guide.
Variable E : Externals.
Variable L : Libs.

Lemma guide_refresh_failed (w : World) (c : Credentials) (e : JsError) :
  auth w = Some c ->
  needsRefresh E c = true ->
  token_endpoint E c = Throw e ->
  Guide.refreshTokenIfNeeded E L w =
  authenticate L
    (after w [ Refresh c;
               LogError "Token refresh failed, need re-authentication" ]).
Proof.
  intros Ha Hn Ht. unfold Guide.refreshTokenIfNeeded. rewrite Ha, Hn.
  unfold Guide.try_catch, Guide.refreshAccessToken, log, Guide.await.
  unfold Guide.bind at 1 2 3 4. simpl. rewrite Ht. simpl.
  unfold Guide.bind. simpl. unfold after. simpl.
  rewrite <- app_assoc. reflexivity.
Qed.

Lemma guide_refresh_ok (w : World) (c c' : Credentials) :
  auth w = Some c ->
  needsRefresh E c = true ->
  token_endpoint E c = Ok c' ->
  Guide.refreshTokenIfNeeded E L w =
  let w1 := mkWorld (Some c') (token_file w) (credentials_file w)
              (steps w ++ [Refresh c]) in
  match saveCredentials L c' w1 with
  | (Throw _, w2) =>
      authenticate L
        (after w2 [LogError "Token refresh failed, need re-authentication"])
  | r => r
  end.
Proof.
  intros Ha Hn Ht. unfold Guide.refreshTokenIfNeeded. rewrite Ha, Hn.
  unfold Guide.try_catch, Guide.refreshAccessToken, setAuth, log, Guide.await,
    Guide.ret.
  unfold Guide.bind at 1 2 3 4 5. simpl. rewrite Ht. simpl.
  destruct (saveCredentials L c' _) as [[[] | e |] w2]; try reflexivity.
Qed.

End GuideRefresh.

Section GuideRefreshMore.

Import Guide.
Variable L : Libs.

(** Without a token file that loads, [authenticate] starts the consent
    flow right after it has tried the token file. *)
Lemma authenticate_unloadable_steps (w : World) :
  unloadable L w ->
  exists rest,
    steps (authenticate L w).2 =
    steps w ++ [ReadFile TOKEN_PATH; ConsentFlow] ++ rest.
Proof.
  intros Hun. rewrite authenticate_run, (load_unloadable L w Hun). cbn zeta.
  destruct (consent L) as [c | e |].
  - rewrite saveCredentials_run. unfold after. simpl.
    destruct (credentials_file w) as [k|];
      [destruct (parseKeys L k) as [keys | e |];
       [destruct (orKey (installed keys) (web keys)) |..] |];
      simpl; rewrite <- !app_assoc; eexists; reflexivity.
  - exists []. unfold after. simpl. rewrite <- app_assoc. reflexivity.
  - exists []. unfold after. simpl. rewrite <- app_assoc. reflexivity.
Qed.

End GuideRefreshMore.

(** X20. In the guide's client, when the refresh exchange fails,
    [refreshTokenIfNeeded] logs the failure and runs [authenticate]; the
    error of the exchange is dropped.  With a token file that loads it
    returns normally, with the client built from that file; without one it
    starts the consent flow. *)
Theorem guide_refresh_failure_reauthenticates (E : Externals) (L : Guide.Libs)
    (w : Guide.World) (c : Credentials) (e : JsError) :
  let failed :=
    [ Guide.Refresh c;
      Guide.LogError "Token refresh failed, need re-authentication" ] in
  Guide.auth w = Some c ->
  needsRefresh E c = true ->
  token_endpoint E c = Throw e ->
  Guide.refreshTokenIfNeeded E L w = Guide.authenticate L (Guide.after w failed) /\
  (forall content c2,
     Guide.token_file w = Some content -> Guide.fromJSON L content = Ok c2 ->
     Guide.refreshTokenIfNeeded E L w =
     (Ok tt,
      Guide.mkWorld (Some c2) (Guide.token_file w) (Guide.credentials_file w)
        (Guide.steps w ++ failed ++ [Guide.ReadFile Guide.TOKEN_PATH]))) /\
  (Guide.unloadable L w ->
   exists rest,
     Guide.steps (Guide.refreshTokenIfNeeded E L w).2 =
     Guide.steps w ++ failed ++
     [Guide.ReadFile Guide.TOKEN_PATH; Guide.ConsentFlow] ++ rest).
Proof.
  intros failed Ha Hn Ht.
  pose proof (guide_refresh_failed E L w c e Ha Hn Ht) as Hrun. fold failed in Hrun.
  split; [exact Hrun |]. rewrite Hrun. split.
  - intros content c2 Hfile Hload.
    rewrite (authenticate_saved L (Guide.after w failed) content c2 Hfile Hload).
    simpl. rewrite <- app_assoc. reflexivity.
  - intros Hun.
    destruct (authenticate_unloadable_steps L (Guide.after w failed) Hun)
      as [rest Hrest].
    exists rest. rewrite Hrest. simpl. rewrite <- app_assoc. reflexivity.
Qed.

(** X21. In the guide's client, when the refresh exchange succeeds and the
    key file holds a key, [refreshTokenIfNeeded] keeps the new credentials
    and rewrites the token file with their refresh token, logging nothing
    and starting no consent flow. *)
Theorem guide_refresh_success_saves (E : Externals) (L : Guide.Libs)
    (w : Guide.World) (c c' : Credentials) (content : string)
    (keys : Guide.Keys) (key : Guide.Key) :
  Guide.auth w = Some c ->
  needsRefresh E c = true ->
  token_endpoint E c = Ok c' ->
  Guide.credentials_file w = Some content ->
  Guide.parseKeys L content = Ok keys ->
  Guide.orKey (Guide.installed keys) (Guide.web keys) = Some key ->
  Guide.refreshTokenIfNeeded E L w =
  (Ok tt,
   Guide.mkWorld (Some c') (Some (Guide.payload L key c'))
     (Guide.credentials_file w)
     (Guide.steps w ++
      [ Guide.Refresh c; Guide.ReadFile Guide.CREDENTIALS_PATH;
        Guide.WriteFile Guide.TOKEN_PATH (Guide.payload L key c') ])).
Proof.
  intros Ha Hn Ht Hfile Hkeys Hkey.
  rewrite (guide_refresh_ok E L w c c' Ha Hn Ht). cbn zeta.
  rewrite saveCredentials_run. simpl. rewrite Hfile, Hkeys, Hkey.
  rewrite <- app_assoc. reflexivity.
Qed.

(** X22. In the guide's client, a refresh that succeeds but cannot be
    saved (the key file is missing) is handled as a failed refresh: the
    failure is logged and [authenticate] runs; with a token file that loads,
    the client built from that file replaces the credentials just
    obtained. *)
Theorem guide_refresh_save_failure (E : Externals) (L : Guide.Libs)
    (w : Guide.World) (c c' c2 : Credentials) (content : string) :
  Guide.auth w = Some c ->
  needsRefresh E c = true ->
  token_endpoint E c = Ok c' ->
  Guide.credentials_file w = None ->
  Guide.token_file w = Some content ->
  Guide.fromJSON L content = Ok c2 ->
  Guide.refreshTokenIfNeeded E L w =
  (Ok tt,
   Guide.mkWorld (Some c2) (Guide.token_file w) None
     (Guide.steps w ++
      [ Guide.Refresh c; Guide.ReadFile Guide.CREDENTIALS_PATH;
        Guide.LogError "Token refresh failed, need re-authentication";
        Guide.ReadFile Guide.TOKEN_PATH ])).
Proof.
  intros Ha Hn Ht Hfile Htoken Hload.
  rewrite (guide_refresh_ok E L w c c' Ha Hn Ht). cbn zeta.
  rewrite saveCredentials_run. simpl. rewrite Hfile.
  unfold Guide.after. simpl.
  rewrite (authenticate_saved L _ content c2); [| exact Htoken | exact Hload].
  simpl. rewrite <- !app_assoc. reflexivity.
Qed.

(** ** The further properties at concrete inputs *)

Lemma searchEmails_all_or_nothing_witness :
  (searchEmails Scenario.m1Fails [1; 0; 2] "is:unread" None
     (Demo.client (Num 5000))).1 = Throw (mkError "Not Found").
Proof.
  apply (proj2 (searchEmails_all_or_nothing Scenario.m1Fails
                  (Demo.client (Num 5000)) [1; 0; 2] "is:unread" None
                  (ListResponse.mk (Some Demo.listed) (Some 3%Z) None)
                  1 (Listed.mk "m1" (Some "t1")) (mkError "Not Found")
                  eq_refl eq_refl eq_refl)) with (rest := [0; 2]).
  reflexivity.
Defined.

Lemma searchEmails_no_messages_witness :
  (searchEmails Scenario.noMessages [] "from:nobody" (Some 5%Z)
     (Demo.client (Num 5000))).1 =
  Ok {| SearchEmailsResult.messages := [];
        SearchEmailsResult.resultSizeEstimate := Some 0%Z;
        SearchEmailsResult.nextPageToken := None |}.
Proof.
  apply (proj1 (searchEmails_no_messages Scenario.noMessages
                  (Demo.client (Num 5000)) [] "from:nobody" (Some 5%Z)
                  (ListResponse.mk None (Some 0%Z) None) eq_refl
                  (or_introl eq_refl))).
Defined.

Lemma authenticate_with_saved_token_witness :
  Guide.authenticate Scenario.libs (Scenario.world None (Some "token:1//0g")) =
  (Ok tt,
   {| Guide.auth := Some {| access_token := None;
                            refresh_token := Some "1//0g";
                            expiry_date := Undefined |};
      Guide.token_file := Some "token:1//0g";
      Guide.credentials_file := Some "keys";
      Guide.steps := [Guide.ReadFile Guide.TOKEN_PATH] |}).
Proof.
  apply (authenticate_with_saved_token Scenario.libs
           (Scenario.world None (Some "token:1//0g")) "token:1//0g"
           {| access_token := None; refresh_token := Some "1//0g";
              expiry_date := Undefined |} eq_refl eq_refl).
Defined.

Lemma authenticate_first_time_witness :
  Guide.authenticate Scenario.libs (Scenario.world None None) =
  (Ok tt,
   {| Guide.auth := Some {| access_token := Some "ya29.first";
                            refresh_token := Some "1//0g";
                            expiry_date := Num 3600000 |};
      Guide.token_file := Some "token:1//0g";
      Guide.credentials_file := Some "keys";
      Guide.steps :=
        [ Guide.ReadFile Guide.TOKEN_PATH; Guide.ConsentFlow;
          Guide.ReadFile Guide.CREDENTIALS_PATH;
          Guide.WriteFile Guide.TOKEN_PATH "token:1//0g" ] |}).
Proof.
  apply (proj1 (authenticate_first_time Scenario.libs (Scenario.world None None)
                  {| access_token := Some "ya29.first";
                     refresh_token := Some "1//0g";
                     expiry_date := Num 3600000 |}
                  "keys"
                  {| Guide.installed := Some Scenario.installedKey;
                     Guide.web := None |}
                  Scenario.installedKey I eq_refl eq_refl eq_refl eq_refl)).
Defined.

Lemma consent_asked_once_witness :
  Guide.consents
    (Guide.steps
       (Guide.bind (Guide.authenticate Scenario.libs)
          (fun _ => Guide.authenticate Scenario.libs)
          (Scenario.world None None)).2) = 1.
Proof.
  rewrite (consent_asked_once Scenario.libs (Scenario.world None None)
             {| access_token := Some "ya29.first";
                refresh_token := Some "1//0g";
                expiry_date := Num 3600000 |}
             {| access_token := None; refresh_token := Some "1//0g";
                expiry_date := Undefined |}
             "keys"
             {| Guide.installed := Some Scenario.installedKey;
                Guide.web := None |}
             Scenario.installedKey I eq_refl eq_refl eq_refl eq_refl eq_refl).
  reflexivity.
Defined.

Lemma guide_refresh_failure_reauthenticates_witness :
  Guide.refreshTokenIfNeeded (Demo.externals 2000) Scenario.libs
    (Scenario.world (Some (credentials (Demo.client (Num 1000))))
                    (Some "token:1//0g")) =
  (Ok tt,
   {| Guide.auth := Some {| access_token := None;
                            refresh_token := Some "1//0g";
                            expiry_date := Undefined |};
      Guide.token_file := Some "token:1//0g";
      Guide.credentials_file := Some "keys";
      Guide.steps :=
        [ Guide.Refresh (credentials (Demo.client (Num 1000)));
          Guide.LogError "Token refresh failed, need re-authentication";
          Guide.ReadFile Guide.TOKEN_PATH ] |}).
Proof.
  apply (proj1 (proj2 (guide_refresh_failure_reauthenticates
                         (Demo.externals 2000) Scenario.libs
                         (Scenario.world
                            (Some (credentials (Demo.client (Num 1000))))
                            (Some "token:1//0g"))
                         (credentials (Demo.client (Num 1000)))
                         (mkError "invalid_grant") eq_refl eq_refl eq_refl))
           "token:1//0g"
           {| access_token := None; refresh_token := Some "1//0g";
              expiry_date := Undefined |} eq_refl eq_refl).
Defined.

Lemma guide_refresh_success_saves_witness :
  Guide.refreshTokenIfNeeded (Demo.renewing 2000) Scenario.libs
    (Scenario.world (Some (credentials (Demo.client (Num 1000)))) None) =
  (Ok tt,
   {| Guide.auth := Some {| access_token := Some "ya29.new";
                            refresh_token := Some "1//0g";
                            expiry_date := Num 3602000 |};
      Guide.token_file := Some "token:1//0g";
      Guide.credentials_file := Some "keys";
      Guide.steps :=
        [ Guide.Refresh (credentials (Demo.client (Num 1000)));
          Guide.ReadFile Guide.CREDENTIALS_PATH;
          Guide.WriteFile Guide.TOKEN_PATH "token:1//0g" ] |}).
Proof.
  apply (guide_refresh_success_saves (Demo.renewing 2000) Scenario.libs
           (Scenario.world (Some (credentials (Demo.client (Num 1000)))) None)
           (credentials (Demo.client (Num 1000)))
           {| access_token := Some "ya29.new"; refresh_token := Some "1//0g";
              expiry_date := Num 3602000 |}
           "keys"
           {| Guide.installed := Some Scenario.installedKey;
              Guide.web := None |}
           Scenario.installedKey eq_refl eq_refl eq_refl eq_refl eq_refl eq_refl).
Defined.

Lemma guide_refresh_save_failure_witness :
  Guide.refreshTokenIfNeeded (Demo.renewing 2000) Scenario.libs
    {| Guide.auth := Some (credentials (Demo.client (Num 1000)));
       Guide.token_file := Some "token:1//0g";
       Guide.credentials_file := None;
       Guide.steps := [] |} =
  (Ok tt,
   {| Guide.auth := Some {| access_token := None;
                            refresh_token := Some "1//0g";
                            expiry_date := Undefined |};
      Guide.token_file := Some "token:1//0g";
      Guide.credentials_file := None;
      Guide.steps :=
        [ Guide.Refresh (credentials (Demo.client (Num 1000)));
          Guide.ReadFile Guide.CREDENTIALS_PATH;
          Guide.LogError "Token refresh failed, need re-authentication";
          Guide.ReadFile Guide.TOKEN_PATH ] |}).
Proof.
  apply (guide_refresh_save_failure (Demo.renewing 2000) Scenario.libs
           {| Guide.auth := Some (credentials (Demo.client (Num 1000)));
              Guide.token_file := Some "token:1//0g";
              Guide.credentials_file := None;
              Guide.steps := [] |}
           (credentials (Demo.client (Num 1000)))
           {| access_token := Some "ya29.new"; refresh_token := Some "1//0g";
              expiry_date := Num 3602000 |}
           {| access_token := None; refresh_token := Some "1//0g";
              expiry_date := Undefined |}
           "token:1//0g" eq_refl eq_refl eq_refl eq_refl eq_refl eq_refl).
Defined.

Lemma authenticate_keeps_no_unsaved_client_witness :
  exists e,
    Guide.authenticate Scenario.libs
      {| Guide.auth := None; Guide.token_file := None;
         Guide.credentials_file := Some "not json"; Guide.steps := [] |} =
    (Throw e,
     {| Guide.auth := None; Guide.token_file := None;
        Guide.credentials_file := Some "not json";
        Guide.steps := [ Guide.ReadFile Guide.TOKEN_PATH; Guide.ConsentFlow;
                         Guide.ReadFile Guide.CREDENTIALS_PATH ] |}).
Proof.
  apply (proj2 (authenticate_keeps_no_unsaved_client Scenario.libs
                  {| Guide.auth := None; Guide.token_file := None;
                     Guide.credentials_file := Some "not json";
                     Guide.steps := [] |} I)
           {| access_token := Some "ya29.first"; refresh_token := Some "1//0g";
              expiry_date := Num 3600000 |} eq_refl).
  right. exists "not json". split; [reflexivity |].
  left. exists (mkError "Unexpected token"). reflexivity.
Defined.

(** ** A failed exchange, in the two guards *)

Lemma consents_app (l1 l2 : list Guide.Step) :
  Guide.consents (l1 ++ l2) = Guide.consents l1 + Guide.consents l2.
Proof.
  induction l1 as [|[] l1 IH]; simpl; rewrite ?IH; reflexivity.
Qed.

Lemma refreshes_app (l1 l2 : list Guide.Step) :
  Guide.refreshes (l1 ++ l2) = Guide.refreshes l1 + Guide.refreshes l2.
Proof.
  induction l1 as [|[] l1 IH]; simpl; rewrite ?IH; reflexivity.
Qed.

(** [authenticate] asks the token endpoint for nothing; it starts the
    consent flow once when the token file does not load, and not at all
    when it does. *)
Lemma authenticate_steps (L : Guide.Libs) (w : Guide.World) :
  exists l,
    Guide.steps (Guide.authenticate L w).2 = Guide.steps w ++ l /\
    Guide.refreshes l = 0 /\
    (Guide.unloadable L w -> Guide.consents l = 1) /\
    ((exists content c, Guide.token_file w = Some content /\
                        Guide.fromJSON L content = Ok c) ->
     Guide.consents l = 0).
Proof.
  rewrite authenticate_run, loadSavedCredentials_run. cbn zeta. cbn [fst].
  destruct (Guide.token_file w) as [content|] eqn:Hfile.
  - destruct (Guide.fromJSON L content) as [c | e |] eqn:Hload.
    + exists [Guide.ReadFile Guide.TOKEN_PATH]. simpl.
      repeat split; try reflexivity.
      unfold Guide.unloadable. rewrite Hfile, Hload. intros [e He]. discriminate.
    + destruct (Guide.consent L) as [c | e' |].
      * rewrite saveCredentials_run. unfold Guide.after. simpl.
        destruct (Guide.credentials_file w) as [k|];
          [destruct (Guide.parseKeys L k) as [keys | e2 |];
           [destruct (Guide.orKey (Guide.installed keys) (Guide.web keys)) |..] |];
          simpl; rewrite <- !app_assoc; eexists; (split; [reflexivity |]);
          (split; [reflexivity |]);
          (split; [reflexivity | intros (? & ? & [= <-] & ?); congruence]).
      * eexists. unfold Guide.after. simpl. rewrite <- app_assoc.
        split; [reflexivity |]. split; [reflexivity |].
        split; [reflexivity | intros (? & ? & [= <-] & ?); congruence].
      * eexists. unfold Guide.after. simpl. rewrite <- app_assoc.
        split; [reflexivity |]. split; [reflexivity |].
        split; [reflexivity | intros (? & ? & [= <-] & ?); congruence].
    + exists [Guide.ReadFile Guide.TOKEN_PATH]. simpl.
      repeat split; try reflexivity.
      unfold Guide.unloadable. rewrite Hfile, Hload. intros [e He]. discriminate.
  - destruct (Guide.consent L) as [c | e' |].
    + rewrite saveCredentials_run. unfold Guide.after. simpl.
      destruct (Guide.credentials_file w) as [k|];
        [destruct (Guide.parseKeys L k) as [keys | e2 |];
         [destruct (Guide.orKey (Guide.installed keys) (Guide.web keys)) |..] |];
        simpl; rewrite <- !app_assoc; eexists; (split; [reflexivity |]);
        (split; [reflexivity |]);
        (split; [reflexivity | intros (? & ? & [=] & ?)]).
    + eexists. unfold Guide.after. simpl. rewrite <- app_assoc.
      split; [reflexivity |]. split; [reflexivity |].
      split; [reflexivity | intros (? & ? & [=] & ?)].
    + eexists. unfold Guide.after. simpl. rewrite <- app_assoc.
      split; [reflexivity |]. split; [reflexivity |].
      split; [reflexivity | intros (? & ? & [=] & ?)].
Qed.

(** C6, as the code has it.  The code has no error classes and does not
    look at the kind of the failure: what follows holds for every error the
    exchange fails with, [invalid_grant] included.

    [AuthManager.refreshTokenIfNeeded] logs that re-authentication is
    needed and rejects with the error of the exchange itself: one exchange,
    no retry, no consent flow, the stored credentials left as they were.

    The guide's [refreshTokenIfNeeded] does not surface the error.  It makes
    the one exchange, logs the failure, drops the error and runs
    [authenticate]: it ends as [authenticate] ends, and when the token file
    does not load it starts the interactive consent flow itself. *)
Theorem refresh_failure_by_guard (E : Externals) (L : Guide.Libs)
    (error : JsError) :
  (forall s,
     needsRefresh E (credentials s) = true ->
     token_endpoint E (credentials s) = Throw error ->
     (refreshTokenIfNeeded E s).1 = Throw error /\
     calls (refreshTokenIfNeeded E) s =
       [ RefreshAccessToken (credentials s);
         ConsoleError "Token refresh failed, need re-authentication" ] /\
     credentials (refreshTokenIfNeeded E s).2 = credentials s) /\
  (forall w c,
     Guide.auth w = Some c ->
     needsRefresh E c = true ->
     token_endpoint E c = Throw error ->
     let failed :=
       [ Guide.Refresh c;
         Guide.LogError "Token refresh failed, need re-authentication" ] in
     let r := Guide.refreshTokenIfNeeded E L w in
     r = Guide.authenticate L (Guide.after w failed) /\
     Guide.refreshes (Guide.steps r.2)
       = S (Guide.refreshes (Guide.steps w)) /\
     (Guide.unloadable L w ->
      Guide.consents (Guide.steps r.2) = S (Guide.consents (Guide.steps w))) /\
     (forall content c2,
        Guide.token_file w = Some content ->
        Guide.fromJSON L content = Ok c2 ->
        r.1 = Ok tt /\ Guide.auth r.2 = Some c2 /\
        Guide.consents (Guide.steps r.2) = Guide.consents (Guide.steps w))).
Proof.
  split.
  - intros s Hn Ht. pose proof (refreshTokenIfNeeded_run E s Hn) as Hrun.
    simpl in Hrun. rewrite Ht in Hrun.
    assert (Hc : calls (refreshTokenIfNeeded E) s =
      [ RefreshAccessToken (credentials s);
        ConsoleError "Token refresh failed, need re-authentication" ])
      by (apply calls_app; rewrite Hrun; reflexivity).
    rewrite Hc, Hrun. repeat split.
  - intros w c Ha Hn Ht failed r.
    pose proof (guide_refresh_failed E L w c error Ha Hn Ht) as Hrun.
    fold failed in Hrun. fold r in Hrun.
    destruct (authenticate_steps L (Guide.after w failed))
      as (l & Hsteps & Hno & Hun & Hload).
    rewrite <- Hrun in Hsteps. simpl in Hsteps.
    split; [exact Hrun |]. split; [| split].
    + rewrite Hsteps, !refreshes_app, Hno. simpl. lia.
    + intros H. rewrite Hsteps, !consents_app, (Hun H). simpl. lia.
    + intros content c2 Hfile Hc2.
      rewrite Hsteps, !consents_app, Hload by (exists content, c2; auto).
      rewrite Hrun,
        (authenticate_saved L (Guide.after w failed) content c2 Hfile Hc2).
      simpl. repeat split. lia.
Qed.

(** C6 fails as stated: the exchange fails with [invalid_grant] and there
    is no token file; the guide's [refreshTokenIfNeeded] returns normally,
    so no error reaches the caller, after starting the consent flow
    itself. *)
Lemma guide_guard_relaunches_consent :
  let E := Demo.externals 2000 in
  let c := credentials (Demo.client (Num 1000)) in
  let w := Scenario.world (Some c) None in
  needsRefresh E c = true /\
  token_endpoint E c = Throw (mkError "invalid_grant") /\
  Guide.refreshTokenIfNeeded E Scenario.libs w =
  (Ok tt,
   {| Guide.auth := Some {| access_token := Some "ya29.first";
                            refresh_token := Some "1//0g";
                            expiry_date := Num 3600000 |};
      Guide.token_file := Some "token:1//0g";
      Guide.credentials_file := Some "keys";
      Guide.steps :=
        [ Guide.Refresh c;
          Guide.LogError "Token refresh failed, need re-authentication";
          Guide.ReadFile Guide.TOKEN_PATH; Guide.ConsentFlow;
          Guide.ReadFile Guide.CREDENTIALS_PATH;
          Guide.WriteFile Guide.TOKEN_PATH "token:1//0g" ] |}).
Proof. repeat split. Qed.

Lemma refresh_failure_by_guard_witness :
  (refreshTokenIfNeeded (Demo.externals 2000) (Demo.client (Num 1000))).1
    = Throw (mkError "invalid_grant") /\
  Guide.consents
    (Guide.steps
       (Guide.refreshTokenIfNeeded (Demo.externals 2000) Scenario.libs
          (Scenario.world (Some (credentials (Demo.client (Num 1000)))) None)).2)
  = 1.
Proof.
  destruct (refresh_failure_by_guard (Demo.externals 2000) Scenario.libs
              (mkError "invalid_grant")) as [Hmanager Hguide].
  split.
  - exact (proj1 (Hmanager (Demo.client (Num 1000)) eq_refl eq_refl)).
  - exact (proj1 (proj2 (proj2
             (Hguide (Scenario.world
                        (Some (credentials (Demo.client (Num 1000)))) None)
                     (credentials (Demo.client (Num 1000)))
                     eq_refl eq_refl eq_refl))) I).
Defined.

(** ** The client on the OAuth2Client *)

(** The operations of [GmailClient] are the operations over the client
    seen from the code. *)
Lemma sendEmail_direct (E : Externals) :
  sendEmail E = OnClient.sendEmail (direct E).
Proof. reflexivity. Qed.

Lemma getMessage_direct (E : Externals) :
  getMessage E = OnClient.getMessage (direct E).
Proof. reflexivity. Qed.

Lemma searchEmails_direct (E : Externals) :
  searchEmails E = OnClient.searchEmails E (direct E).
Proof. reflexivity. Qed.

Lemma exchanged_app (E : Externals) (pre more : list Event) (c : Credentials) :
  exchanged E pre c -> exchanged E (pre ++ more) c.
Proof.
  intros (c0 & Hin & Hc0). exists c0. split; [| exact Hc0].
  apply in_or_app. left. exact Hin.
Qed.

Lemma bearsExchanged_app (E : Externals) (evs1 evs2 pre : list Event) :
  bearsExchanged E pre (evs1 ++ evs2) <->
  bearsExchanged E pre evs1 /\ bearsExchanged E (pre ++ evs1) evs2.
Proof.
  revert pre. induction evs1 as [|e evs1 IH]; intros pre; simpl.
  - rewrite app_nil_r. tauto.
  - rewrite IH, <- app_assoc. simpl. tauto.
Qed.

(** When every request bears exchanged credentials, none is sent before
    the first exchange. *)
Lemma bearsExchanged_refreshPrecedesApi (E : Externals) (evs pre : list Event) :
  (forall c0, ~ In (RefreshAccessToken c0) pre) ->
  bearsExchanged E pre evs ->
  refreshPrecedesApi evs = true.
Proof.
  revert pre. induction evs as [|e evs IH]; intros pre Hpre H; [reflexivity |].
  simpl in H. destruct H as [He Hrest]. simpl.
  destruct e as [c | msg | c raw | c q n | c id | c id a r]; simpl;
    try reflexivity;
    try (destruct (He c eq_refl) as (c0 & Hin & _); destruct (Hpre c0 Hin)).
  apply (IH (pre ++ [ConsoleError msg])); [| exact Hrest].
  intros c0 Hin. apply in_app_or in Hin. destruct Hin as [Hin | [Hin | []]];
    [exact (Hpre c0 Hin) | discriminate].
Qed.

Section Authorized.

Import OAuth2Client.
Variable E : Externals.
Variable L : Library.

Lemma authorizes_ret {A} (a : A) : authorizes E (ret a).
Proof.
  intros s pre H. exists []. simpl. rewrite !app_nil_r. auto.
Qed.

Lemma authorizes_throw {A} (e : JsError) : authorizes E (throw (A := A) e).
Proof.
  intros s pre H. exists []. simpl. rewrite !app_nil_r. auto.
Qed.

Lemma authorizes_await {A} (o : Outcome A) : authorizes E (await o).
Proof.
  intros s pre H. exists []. simpl. rewrite !app_nil_r. auto.
Qed.

Lemma authorizes_getCredentials : authorizes E getCredentials.
Proof.
  intros s pre H. exists []. simpl. rewrite !app_nil_r. auto.
Qed.

Lemma authorizes_bind {A B} (m : M A) (k : A -> M B) :
  authorizes E m -> (forall a, authorizes E (k a)) -> authorizes E (bind m k).
Proof.
  intros Hm Hk s pre H. destruct (Hm s pre H) as (evs1 & He1 & Hh1 & Hb1).
  unfold bind. destruct (m s) as [[a | e |] s1]; simpl in *;
    [| exists evs1; auto | exists evs1; auto].
  destruct (Hk a s1 (pre ++ evs1) Hh1) as (evs2 & He2 & Hh2 & Hb2).
  exists (evs1 ++ evs2). rewrite He2, He1, !app_assoc.
  split; [reflexivity |]. split; [exact Hh2 |].
  apply bearsExchanged_app. auto.
Qed.

Lemma authorizes_try_catch {A} (m : M A) (h : JsError -> M A) :
  authorizes E m -> (forall e, authorizes E (h e)) -> authorizes E (try_catch m h).
Proof.
  intros Hm Hh s pre H. destruct (Hm s pre H) as (evs1 & He1 & Hh1 & Hb1).
  unfold try_catch. destruct (m s) as [[a | e |] s1]; simpl in *;
    [exists evs1; auto | | exists evs1; auto].
  destruct (Hh e s1 (pre ++ evs1) Hh1) as (evs2 & He2 & Hh2 & Hb2).
  exists (evs1 ++ evs2). rewrite He2, He1, !app_assoc.
  split; [reflexivity |]. split; [exact Hh2 |].
  apply bearsExchanged_app. auto.
Qed.

Lemma authorizes_promise {A} (m : M A) : authorizes E m -> authorizes E (promise m).
Proof. intros Hm s pre H. exact (Hm s pre H). Qed.

Lemma refreshAccessTokenAsync_run (s : State) :
  refreshAccessTokenAsync E s =
  let c := credentials s in
  let evs := events s ++ [RefreshAccessToken c] in
  match token_endpoint E c with
  | Ok tokens => (Ok tokens, mkState tokens evs)
  | Throw e => (Throw e, mkState c evs)
  | Hang => (Hang, mkState c evs)
  end.
Proof.
  unfold refreshAccessTokenAsync, bind, getCredentials, emit, await,
    setCredentials, ret. simpl.
  destruct (token_endpoint E (credentials s)); reflexivity.
Qed.

Lemma issues_authorizes (m : M Credentials) : issues E m -> authorizes E m.
Proof.
  intros Hm s pre H. destruct (Hm s pre H) as (evs & H1 & H2 & H3 & _).
  exists evs. auto.
Qed.

Lemma refreshAccessTokenAsync_issues : issues E (refreshAccessTokenAsync E).
Proof.
  intros s pre H. exists [RefreshAccessToken (credentials s)].
  rewrite refreshAccessTokenAsync_run. cbn zeta.
  destruct (token_endpoint E (credentials s)) as [tokens | e |] eqn:Ht; simpl.
  - assert (Hx : exchanged E (pre ++ [RefreshAccessToken (credentials s)]) tokens).
    { exists (credentials s). split; [| exact Ht].
      apply in_or_app. right. left. reflexivity. }
    split; [reflexivity |]. split; [intros _; exact Hx |].
    split; [split; [discriminate | exact I] |].
    intros c [= <-]. exact Hx.
  - split; [reflexivity |].
    split; [intros Hu; apply exchanged_app, H, Hu |].
    split; [split; [discriminate | exact I] | discriminate].
  - split; [reflexivity |].
    split; [intros Hu; apply exchanged_app, H, Hu |].
    split; [split; [discriminate | exact I] | discriminate].
Qed.

Lemma getRequestMetadataAsync_run (s : State) :
  getRequestMetadataAsync E L s =
  let c := credentials s in
  if negb (present (access_token c)) && negb (present (refresh_token c)) then
    (Throw (mkError
       "No access, refresh token, API key or refresh handler callback is set."),
     s)
  else if usable E c then (Ok c, s)
  else
    match refreshAccessTokenAsync E s with
    | (Throw e, s') => (Throw (couldNotRefresh L e), s')
    | r => r
    end.
Proof.
  unfold getRequestMetadataAsync, bind, getCredentials, try_catch, throw, ret.
  cbn beta iota zeta.
  destruct (negb (present (access_token (credentials s))) &&
            negb (present (refresh_token (credentials s)))); [reflexivity |].
  destruct (usable E (credentials s)); reflexivity.
Qed.

Lemma getRequestMetadataAsync_issues : issues E (getRequestMetadataAsync E L).
Proof.
  intros s pre H. rewrite getRequestMetadataAsync_run. cbn zeta.
  destruct (negb (present (access_token (credentials s))) &&
            negb (present (refresh_token (credentials s)))).
  - exists []. simpl. rewrite !app_nil_r.
    repeat split; [exact H | discriminate].
  - destruct (usable E (credentials s)) eqn:Hu.
    + exists []. simpl. rewrite !app_nil_r.
      repeat split; [exact H |]. intros c [= <-]. exact (H Hu).
    + destruct (refreshAccessTokenAsync_issues s pre H)
        as (evs & H1 & H2 & H3 & H4).
      exists evs.
      destruct (refreshAccessTokenAsync E s) as [[tokens | e |] s1];
        simpl in *; repeat split; auto; discriminate.
Qed.

Lemma transmit_run {A} (ev : Credentials -> Event)
    (answer : Credentials -> Outcome A) (s : State) :
  transmit E L ev answer s =
  match getRequestMetadataAsync E L s with
  | (Ok c, s1) => (answer c, mkState (credentials s1) (events s1 ++ [ev c]))
  | (Throw e, s1) => (Throw e, s1)
  | (Hang, s1) => (Hang, s1)
  end.
Proof.
  unfold transmit, bind, emit, await.
  destruct (getRequestMetadataAsync E L s) as [[c | e |] s1]; reflexivity.
Qed.

Lemma transmit_authorizes {A} (ev : Credentials -> Event)
    (answer : Credentials -> Outcome A) :
  (forall c, bearer (ev c) = Some c) ->
  authorizes E (transmit E L ev answer).
Proof.
  intros Hev s pre H. rewrite transmit_run.
  destruct (getRequestMetadataAsync_issues s pre H)
    as (evs & H1 & H2 & H3 & H4).
  destruct (getRequestMetadataAsync E L s) as [[c | e |] s1]; simpl in *;
    [| exists evs; auto | exists evs; auto].
  exists (evs ++ [ev c]). rewrite H1, !app_assoc.
  split; [reflexivity |].
  split; [intros Hu; apply exchanged_app, H2, Hu |].
  apply bearsExchanged_app. split; [exact H3 |]. simpl.
  split; [| exact I]. intros c' Hc'. rewrite Hev in Hc'. injection Hc' as <-.
  apply H4. reflexivity.
Qed.

(** The [catch] of [requestAsync]. *)
Lemma retry_authorizes {A} (ev : Credentials -> Event)
    (answer : Credentials -> Outcome A) (e : JsError) :
  (forall c, bearer (ev c) = Some c) ->
  authorizes E
    (c <- getCredentials ;;
     if isAuthErr L e && mayRequireRefresh c then
       refreshAccessTokenAsync E ;;; transmit E L ev answer
     else throw e).
Proof.
  intros Hev. apply authorizes_bind; [apply authorizes_getCredentials |].
  intros c. destruct (isAuthErr L e && mayRequireRefresh c);
    [| apply authorizes_throw].
  apply authorizes_bind;
    [apply issues_authorizes, refreshAccessTokenAsync_issues |].
  intros _. apply transmit_authorizes, Hev.
Qed.

Lemma requestAsync_authorizes {A} (ev : Credentials -> Event)
    (answer : Credentials -> Outcome A) :
  (forall c, bearer (ev c) = Some c) ->
  authorizes E (requestAsync E L ev answer).
Proof.
  intros Hev. unfold requestAsync.
  apply authorizes_try_catch; [apply transmit_authorizes, Hev |].
  intros e. apply retry_authorizes, Hev.
Qed.

(** The three methods of the client. *)
Lemma gmail_authorizes :
  (forall raw, authorizes E (messages_send (gmail E L) raw)) /\
  (forall q n, authorizes E (messages_list (gmail E L) q n)) /\
  (forall id, authorizes E (messages_get (gmail E L) id)).
Proof.
  repeat split; intros; simpl; try apply authorizes_promise;
    apply requestAsync_authorizes; intros c; reflexivity.
Qed.

(** The operations, over a client whose methods do. *)
Section OverClient.

Variable client : Gmail.
Hypothesis Hsend : forall raw, authorizes E (messages_send client raw).
Hypothesis Hlist : forall q n, authorizes E (messages_list client q n).
Hypothesis Hget : forall id, authorizes E (messages_get client id).

Lemma sendEmail_authorizes (params : SendEmailParams) :
  authorizes E (OnClient.sendEmail client params).
Proof. apply Hsend. Qed.

Lemma getMessage_authorizes (messageId : string) :
  authorizes E (OnClient.getMessage client messageId).
Proof.
  apply authorizes_bind; [apply Hget | intros p; apply authorizes_await].
Qed.

Lemma startAll_authorizes (listed : list Listed.t) :
  authorizes E (OnClient.startAll E client listed).
Proof.
  induction listed as [|msg listed IH]; [apply authorizes_ret |].
  simpl. apply authorizes_bind; [apply Hget |]. intros p.
  apply authorizes_bind; [exact IH |]. intros ps. apply authorizes_ret.
Qed.

Lemma searchEmails_authorizes (order : list nat) (query : string)
    (maxResults : option Z) :
  authorizes E (OnClient.searchEmails E client order query maxResults).
Proof.
  apply authorizes_bind; [apply Hlist |]. intros res.
  apply authorizes_bind; [apply startAll_authorizes |]. intros promises.
  apply authorizes_bind; [apply authorizes_await |]. intros messages.
  apply authorizes_ret.
Qed.

End OverClient.

(** A token that cannot be used as it is does not make the library
    repeat a request. *)
Lemma unusable_no_retry (c : Credentials) :
  usable E c = false ->
  negb (present (access_token c)) && negb (present (refresh_token c)) = false ->
  mayRequireRefresh c = false.
Proof.
  unfold usable, mayRequireRefresh, isTokenExpiring. intros Hu _.
  destruct (present (access_token c)); [| reflexivity].
  destruct (truthy (expiry_date c)); [| discriminate Hu].
  rewrite andb_false_r. reflexivity.
Qed.

Lemma needsRefresh_unusable (c : Credentials) :
  needsRefresh E c = true -> usable E c = false.
Proof.
  unfold needsRefresh, usable, isTokenExpiring, eagerRefreshThresholdMillis.
  intros H. apply andb_true_iff in H. destruct H as [Ht He]. rewrite Ht.
  destruct (expiry_date c) as [| | e]; try discriminate.
  apply Z.leb_le in He.
  replace (e <=? Date_now E + 5 * 60 * 1000)%Z with true
    by (symmetry; apply Z.leb_le; lia).
  apply andb_false_r.
Qed.

(** The first request on a client whose token cannot be used as it is. *)
Lemma requestAsync_first {A} (ev : Credentials -> Event)
    (answer : Credentials -> Outcome A) (s : State) :
  (forall c, bearer (ev c) = Some c) ->
  let c := credentials s in
  let m := requestAsync E L ev answer in
  usable E c = false ->
  (present (access_token c) || present (refresh_token c) = false ->
   exists e, m s = (Throw e, s)) /\
  (present (access_token c) || present (refresh_token c) = true ->
   match token_endpoint E c with
   | Ok c' =>
       exists rest,
         events (m s).2 = events s ++ RefreshAccessToken c :: ev c' :: rest
   | Throw e =>
       m s = (Throw (couldNotRefresh L e),
              mkState c (events s ++ [RefreshAccessToken c]))
   | Hang => m s = (Hang, mkState c (events s ++ [RefreshAccessToken c]))
   end).
Proof.
  intros Hev c m Hu. subst m. unfold requestAsync, try_catch.
  rewrite transmit_run, getRequestMetadataAsync_run,
    refreshAccessTokenAsync_run. cbn zeta. fold c. rewrite Hu.
  split.
  - intros Hnone. apply orb_false_iff in Hnone. destruct Hnone as [Ha Hr].
    rewrite Ha, Hr. cbn [negb andb]. unfold bind, getCredentials.
    cbn beta iota. fold c. eexists.
    replace (mayRequireRefresh c) with false
      by (unfold mayRequireRefresh; rewrite Ha; reflexivity).
    rewrite andb_false_r. reflexivity.
  - intros Hsome.
    assert (Hboth : negb (present (access_token c)) &&
                    negb (present (refresh_token c)) = false).
    { destruct (present (access_token c)), (present (refresh_token c));
        try reflexivity; discriminate. }
    rewrite Hboth.
    destruct (token_endpoint E c) as [c' | e |] eqn:Ht; cbn [credentials events].
    + destruct (answer c') as [a | e |].
      * exists []. cbn [fst snd events]. rewrite <- app_assoc. reflexivity.
      * destruct (retry_authorizes ev answer e Hev
                    (mkState c' ((events s ++ [RefreshAccessToken c]) ++ [ev c']))
                    [RefreshAccessToken c])
          as (evs & Hevs & _).
        { intros _. exists c. split; [left; reflexivity | exact Ht]. }
        exists evs. cbn [fst snd] in *. rewrite Hevs. cbn [events].
        rewrite <- !app_assoc. reflexivity.
      * exists []. cbn [fst snd events]. rewrite <- app_assoc. reflexivity.
    + unfold bind, getCredentials, throw. cbn beta iota. cbn [credentials].
      fold c. rewrite (unusable_no_retry c Hu Hboth), andb_false_r.
      reflexivity.
    + reflexivity.
Qed.

(** From what the first request does to [refreshedFirst]. *)
Lemma refreshedFirst_intro {A} (op : M A) (s : State)
    (ev : Credentials -> Event) :
  let c := credentials s in
  (forall c, bearer (ev c) = Some c) ->
  authorizes E op ->
  usable E c = false ->
  (present (access_token c) || present (refresh_token c) = false ->
   (exists e, (op s).1 = Throw e) /\ events (op s).2 = events s) ->
  (present (access_token c) || present (refresh_token c) = true ->
   match token_endpoint E c with
   | Ok c' =>
       exists rest,
         events (op s).2 = events s ++ RefreshAccessToken c :: ev c' :: rest
   | Throw e =>
       (exists e', (op s).1 = Throw e') /\
       events (op s).2 = events s ++ [RefreshAccessToken c]
   | Hang => events (op s).2 = events s ++ [RefreshAccessToken c]
   end) ->
  refreshedFirst E op s.
Proof.
  intros c Hev Hop Hu Hnone Hsome.
  destruct (Hop s []) as (evs & Hevs & _ & Hbears);
    [intros H; fold c in H; congruence |].
  pose proof (calls_app op s evs Hevs) as Hcalls.
  unfold refreshedFirst. fold c. rewrite Hcalls. clear Hcalls.
  split; [apply (bearsExchanged_refreshPrecedesApi E evs []);
          [intros c0 [] | exact Hbears] |].
  split; [exact Hbears |]. split.
  - intros Htok. specialize (Hsome Htok).
    destruct (token_endpoint E c) as [c' | e |].
    + destruct Hsome as [rest Hrest]. rewrite Hevs in Hrest.
      apply app_inv_head in Hrest. subst evs. split; [eauto |].
      intros c'' [= <-]. exists (ev c'), rest. split; [reflexivity | apply Hev].
    + destruct Hsome as [_ Hrest]. rewrite Hevs in Hrest.
      apply app_inv_head in Hrest. subst evs. split; [eauto | discriminate].
    + rewrite Hevs in Hsome. apply app_inv_head in Hsome. subst evs.
      split; [eauto | discriminate].
  - intros error Herr.
    destruct (present (access_token c) || present (refresh_token c)) eqn:Htok.
    + specialize (Hsome eq_refl). rewrite Herr in Hsome.
      destruct Hsome as [Hthrow Hrest]. rewrite Hevs in Hrest.
      apply app_inv_head in Hrest. subst evs.
      split; [repeat constructor | exact Hthrow].
    + destruct (Hnone eq_refl) as [Hthrow Hrest]. rewrite Hevs in Hrest.
      rewrite <- (app_nil_r (events s)) in Hrest at 2.
      apply app_inv_head in Hrest. subst evs.
      split; [constructor | exact Hthrow].
Qed.

Lemma requestAsync_refreshedFirst {A} (ev : Credentials -> Event)
    (answer : Credentials -> Outcome A) (s : State) :
  (forall c, bearer (ev c) = Some c) ->
  needsRefresh E (credentials s) = true ->
  refreshedFirst E (requestAsync E L ev answer) s.
Proof.
  intros Hev Hn. pose proof (needsRefresh_unusable _ Hn) as Hu.
  destruct (requestAsync_first ev answer s Hev Hu) as [Hnone Hsome].
  apply (refreshedFirst_intro _ s ev Hev (requestAsync_authorizes ev answer Hev) Hu).
  - intros Htok. destruct (Hnone Htok) as [e He]. rewrite He. eauto.
  - intros Htok. specialize (Hsome Htok).
    destruct (token_endpoint E (credentials s)); [exact Hsome | |];
      rewrite Hsome; eauto.
Qed.

(** What follows the first request does not change what it did. *)
Lemma bind_refreshedFirst {A B} (m : M A) (k : A -> M B) (s : State)
    (ev : Credentials -> Event) :
  let c := credentials s in
  (forall c, bearer (ev c) = Some c) ->
  authorizes E m -> (forall a, authorizes E (k a)) ->
  usable E c = false ->
  (present (access_token c) || present (refresh_token c) = false ->
   exists e, m s = (Throw e, s)) ->
  (present (access_token c) || present (refresh_token c) = true ->
   match token_endpoint E c with
   | Ok c' =>
       exists rest,
         events (m s).2 = events s ++ RefreshAccessToken c :: ev c' :: rest
   | Throw e =>
       exists e', m s = (Throw e', mkState c (events s ++ [RefreshAccessToken c]))
   | Hang => m s = (Hang, mkState c (events s ++ [RefreshAccessToken c]))
   end) ->
  refreshedFirst E (bind m k) s.
Proof.
  intros c Hev Hm Hk Hu Hnone Hsome.
  apply (refreshedFirst_intro _ s ev Hev (authorizes_bind m k Hm Hk) Hu).
  - intros Htok. destruct (Hnone Htok) as [e He]. unfold bind. rewrite He.
    eauto.
  - intros Htok. specialize (Hsome Htok). fold c.
    destruct (token_endpoint E c) as [c' | e |] eqn:Ht.
    + destruct Hsome as [rest Hrest].
      destruct (Hm s []) as (evs1 & _ & Hheld & _);
        [intros H; fold c in H; congruence |].
      unfold bind.
      destruct (m s) as [[a | e |] s1] eqn:Hms; simpl in Hrest; eauto.
      destruct (Hk a s1 ([] ++ evs1) Hheld) as (evs & Hevs & _).
      exists (rest ++ evs). rewrite Hevs, Hrest, <- app_assoc. reflexivity.
    + destruct Hsome as [e' He']. unfold bind. rewrite He'. eauto.
    + unfold bind. rewrite Hsome. reflexivity.
Qed.

Lemma getMessage_gmail (messageId : string) (s : State) :
  OnClient.getMessage (gmail E L) messageId s =
  requestAsync E L (fun c => MessagesGet c messageId)
    (fun c => users_messages_get E c messageId) s.
Proof.
  unfold OnClient.getMessage, bind, promise, await. simpl.
  destruct (requestAsync E L _ _ s). reflexivity.
Qed.

End Authorized.

(** C1. On the client that [GmailClient] builds in its constructor, every
    mail operation (send, read, search) begun with credentials whose
    [expiry_date] is set and at or before [Date.now()] attempts a token
    refresh before any request to the mail API: no request is sent before a
    refresh exchange, and every request bears credentials that an exchange
    returned, never the expired ones as stored.  With an access token or a
    refresh token to go by, the exchange from the stored credentials is the
    first thing done; when it fails no request is sent at all and the
    operation fails, and when it succeeds the request follows with the new
    credentials. *)
Theorem expired_token_is_refreshed_first (E : Externals)
    (L : OAuth2Client.Library) (s : State) :
  needsRefresh E (credentials s) = true ->
  let gmail := OAuth2Client.gmail E L in
  (forall params, refreshedFirst E (OnClient.sendEmail gmail params) s) /\
  (forall messageId, refreshedFirst E (OnClient.getMessage gmail messageId) s) /\
  (forall order query maxResults,
     refreshedFirst E (OnClient.searchEmails E gmail order query maxResults) s).
Proof.
  intros Hn gmail. pose proof (needsRefresh_unusable E _ Hn) as Hu.
  destruct (gmail_authorizes E L) as (Hsend & Hlist & Hget).
  split; [| split].
  - intros params. apply requestAsync_refreshedFirst;
      [intros c; reflexivity | exact Hn].
  - intros messageId.
    pose proof (requestAsync_refreshedFirst E L
                  (fun c => MessagesGet c messageId)
                  (fun c => users_messages_get E c messageId) s
                  (fun c => eq_refl) Hn) as H.
    unfold refreshedFirst, calls in *. subst gmail.
    rewrite getMessage_gmail. exact H.
  - intros order query maxResults.
    destruct (requestAsync_first E L
                (fun c => MessagesList c query (default 10%Z maxResults))
                (fun c => users_messages_list E c query (default 10%Z maxResults))
                s (fun c => eq_refl) Hu) as [Hnone Hsome].
    apply (bind_refreshedFirst E _ _ s
             (fun c => MessagesList c query (default 10%Z maxResults)));
      [intros c; reflexivity | apply Hlist | | exact Hu | exact Hnone |].
    + intros res. apply authorizes_bind;
        [apply (startAll_authorizes E _ Hget) |]. intros promises.
      apply authorizes_bind; [apply authorizes_await |]. intros messages.
      apply authorizes_ret.
    + intros Htok. specialize (Hsome Htok).
      destruct (token_endpoint E (credentials s)); eauto.
Qed.

Lemma bind_ext_at {A B} (m m' : M A) (k k' : A -> M B) (s : State) :
  m s = m' s ->
  (forall a s1, m' s = (Ok a, s1) -> k a s1 = k' a s1) ->
  bind m k s = bind m' k' s.
Proof.
  intros Hm Hk. unfold bind. rewrite Hm.
  destruct (m' s) as [[a | e |] s1]; try reflexivity. apply Hk. reflexivity.
Qed.

Section Fresh.

Import OAuth2Client.
Variable E : Externals.
Variable L : Library.

(** A request on a client whose access token is not expiring and has an
    expiry date: it is sent as it is, once. *)
Lemma requestAsync_usable {A} (ev : Credentials -> Event)
    (answer : Credentials -> Outcome A) (s : State) :
  usable E (credentials s) = true ->
  truthy (expiry_date (credentials s)) = true ->
  requestAsync E L ev answer s =
  (answer (credentials s),
   mkState (credentials s) (events s ++ [ev (credentials s)])).
Proof.
  intros Hu Ht. unfold requestAsync, try_catch.
  rewrite transmit_run, getRequestMetadataAsync_run. cbn zeta. rewrite Hu.
  assert (Hp : present (access_token (credentials s)) = true)
    by (unfold usable in Hu; apply andb_true_iff in Hu; apply Hu).
  rewrite Hp. cbn [negb andb].
  destruct (answer (credentials s)) as [a | e |]; try reflexivity.
  unfold bind, getCredentials, throw. cbn beta iota. cbn [credentials].
  unfold mayRequireRefresh. rewrite Ht. cbn [negb]. rewrite !andb_false_r.
  reflexivity.
Qed.

Lemma startAll_usable (listed : list Listed.t) (s : State) :
  usable E (credentials s) = true ->
  truthy (expiry_date (credentials s)) = true ->
  OnClient.startAll E (gmail E L) listed s = startAll E listed s.
Proof.
  revert s. induction listed as [|msg listed IH]; intros s Hu Ht;
    [reflexivity |].
  cbn [OnClient.startAll startAll]. unfold bind at 1 3.
  cbn [messages_get gmail]. unfold promise.
  rewrite requestAsync_usable by assumption. cbn [fst snd].
  unfold getMessage_request at 1, bind at 3 4, getCredentials, emit, ret.
  cbn beta iota. cbn [credentials events].
  unfold bind. rewrite IH by assumption. reflexivity.
Qed.

Lemma messages_list_usable (q : string) (n : Z) (s : State) :
  usable E (credentials s) = true ->
  truthy (expiry_date (credentials s)) = true ->
  messages_list (gmail E L) q n s = gmail_users_messages_list E q n s.
Proof.
  intros Hu Ht. cbn [messages_list gmail].
  rewrite requestAsync_usable by assumption. reflexivity.
Qed.

End Fresh.

(** X23. With an access token that has an expiry date and is not expiring
    (the date is more than five minutes ahead), the library sends each
    request as it is and stores nothing: on the client that [GmailClient]
    builds, [sendEmail], [getMessage] and [searchEmails] make the calls and
    end as they do on the client seen from the code. *)
Theorem fresh_token_is_used_as_it_is (E : Externals)
    (L : OAuth2Client.Library) (s : State) :
  OAuth2Client.usable E (credentials s) = true ->
  truthy (expiry_date (credentials s)) = true ->
  let gmail := OAuth2Client.gmail E L in
  (forall params, OnClient.sendEmail gmail params s = sendEmail E params s) /\
  (forall messageId,
     OnClient.getMessage gmail messageId s = getMessage E messageId s) /\
  (forall order query maxResults,
     OnClient.searchEmails E gmail order query maxResults s =
     searchEmails E order query maxResults s).
Proof.
  intros Hu Ht gmail. split; [| split].
  - intros params. unfold OnClient.sendEmail, sendEmail. subst gmail.
    cbn [messages_send OAuth2Client.gmail].
    rewrite requestAsync_usable by assumption.
    rewrite gmail_users_messages_send_run. reflexivity.
  - intros messageId. subst gmail. rewrite getMessage_gmail.
    rewrite requestAsync_usable by assumption. reflexivity.
  - intros order query maxResults. subst gmail.
    unfold OnClient.searchEmails, searchEmails.
    apply bind_ext_at; [apply messages_list_usable; assumption |].
    intros res s1 Hs1.
    assert (Hc : credentials s1 = credentials s).
    { unfold gmail_users_messages_list, bind, getCredentials, emit, await in Hs1.
      simpl in Hs1. injection Hs1 as _ <-. reflexivity. }
    apply bind_ext_at; [| reflexivity].
    apply startAll_usable; rewrite Hc; assumption.
Qed.

Lemma expired_token_is_refreshed_first_witness :
  refreshPrecedesApi
    (calls (OnClient.sendEmail
              (OAuth2Client.gmail (Demo.externals 2000) Scenario.library)
              (Demo.hello ["a@x.com"]))
           (Demo.client (Num 1000))) = true /\
  exists rest,
    calls (OnClient.searchEmails (Demo.externals 2000)
             (OAuth2Client.gmail (Demo.externals 2000) Scenario.library)
             [] "is:unread" None)
          (Demo.client (Num 1000))
    = RefreshAccessToken (credentials (Demo.client (Num 1000))) :: rest.
Proof.
  destruct (expired_token_is_refreshed_first (Demo.externals 2000)
              Scenario.library (Demo.client (Num 1000)) eq_refl)
    as (Hsend & _ & Hsearch).
  split.
  - exact (proj1 (Hsend (Demo.hello ["a@x.com"]))).
  - exact (proj1 (proj1 (proj2 (proj2 (Hsearch [] "is:unread" None))) eq_refl)).
Defined.

(** The client's token expired at 1000 and the clock reads 2000.  When the
    token endpoint answers [invalid_grant], [sendEmail] asks it for a token,
    sends nothing and fails with that error. *)
Example sendEmail_expired_refresh_fails :
  let E := Demo.externals 2000 in
  let s := Demo.client (Num 1000) in
  OnClient.sendEmail (OAuth2Client.gmail E Scenario.library)
    (Demo.hello ["a@x.com"]) s
  = (Throw (mkError "invalid_grant"),
     mkState (credentials s) [RefreshAccessToken (credentials s)]).
Proof. reflexivity. Qed.

(** When it grants a new token, the message is sent with the new token,
    which the client keeps. *)
Example sendEmail_expired_refresh_succeeds :
  let E := Demo.renewing 2000 in
  let s := Demo.client (Num 1000) in
  let c' := {| access_token := Some "ya29.new";
               refresh_token := Some "1//0g";
               expiry_date := Num 3602000 |} in
  OnClient.sendEmail (OAuth2Client.gmail E Scenario.library)
    (Demo.hello ["a@x.com"]) s
  = (Ok "18c2f0a1",
     mkState c'
       [ RefreshAccessToken (credentials s);
         MessagesSend c' (Base64Url.encode (sendEmail_email (Demo.hello ["a@x.com"]))) ]).
Proof. reflexivity. Qed.

(** A search refreshes once, in its list call; the detail fetches go out
    with the new token. *)
Example searchEmails_expired_refresh_succeeds :
  let E := Demo.renewing 2000 in
  let s := Demo.client (Num 1000) in
  let c' := {| access_token := Some "ya29.new";
               refresh_token := Some "1//0g";
               expiry_date := Num 3602000 |} in
  calls (OnClient.searchEmails E (OAuth2Client.gmail E Scenario.library)
           [2; 0; 1] "is:unread" None) s
  = [ RefreshAccessToken (credentials s);
      MessagesList c' "is:unread" 10;
      MessagesGet c' "m3"; MessagesGet c' "m1"; MessagesGet c' "m2" ].
Proof. reflexivity. Qed.

(** A token without an expiry date is sent as it is; when the mail API
    answers 401, the library refreshes and sends the request once more. *)
Example sendEmail_repeated_after_401 :
  let E := Scenario.rejectsOld in
  let s := Demo.client Undefined in
  let c' := {| access_token := Some "ya29.new";
               refresh_token := Some "1//0g";
               expiry_date := Num 3602000 |} in
  let raw := Base64Url.encode (sendEmail_email (Demo.hello ["a@x.com"])) in
  OnClient.sendEmail (OAuth2Client.gmail E Scenario.library)
    (Demo.hello ["a@x.com"]) s
  = (Ok "18c2f0a1",
     mkState c'
       [ MessagesSend (credentials s) raw;
         RefreshAccessToken (credentials s);
         MessagesSend c' raw ]).
Proof. reflexivity. Qed.

Lemma fresh_token_is_used_as_it_is_witness :
  OnClient.searchEmails (Demo.externals 2000)
    (OAuth2Client.gmail (Demo.externals 2000) Scenario.library)
    [2; 0; 1] "is:unread" None (Demo.client (Num 3602000))
  = searchEmails (Demo.externals 2000) [2; 0; 1] "is:unread" None
      (Demo.client (Num 3602000)).
Proof.
  apply (proj2 (proj2 (fresh_token_is_used_as_it_is (Demo.externals 2000)
                         Scenario.library (Demo.client (Num 3602000))
                         eq_refl eq_refl))).
Defined.
